(** * home-monitor: capture, broadcast and sink pipelines

    A shallow embedding of the capture engine ([capture] package), of the
    push-stream and segmented-file pipeline managers and of the frame path
    of a push streamer ([rtmp] and [stream] packages), of the subscriber
    count and the frame input of the RTP bridge ([webrtc] package), of the
    history and the alerts of the performance monitor ([monitor] package),
    of the snapshot endpoint ([handler] package) and of the defaults of
    the configuration ([config] package), followed by the properties of
    the specification that were checked against them and by further
    properties of the code.

    Conventions.
    - A Go [[]byte] is a [list byte]; the nil slice stored in [lastFrame]
      is [None].
    - Go's [int] (lengths, indices, counters) is a [Z]; a counter that is
      incremented without a bound, as [RTPForwarder.subscribers], and a
      product of a number that a caller chooses wrap at 64 bits.
    - A Go map is a [gmap]; a buffered channel is a cell of a store of
      channels, and a map entry holds the index of its cell, so that a
      channel keeps its history after it is deleted from a table. A queue
      that is never closed is the list of what it holds.
    - Code that runs under one lock is one atomic step.
    - What the code prints with [log.Printf] is a list in the state, where
      a property is about it. *)

From stdpp Require Import gmap strings list fin_maps pretty.
From Stdlib Require Import ZArith Lia.
From Stdlib.Strings Require Import Byte.

Local Open Scope Z_scope.

Abbreviation bytes := (list byte).

(** Go's [len], as an [int]. *)
Definition len {A} (l : list A) : Z := Z.of_nat (length l).

(** [s[lo:]] and [s[lo:hi]] for indices the source has already checked. *)
Definition sliceFrom {A} (lo : Z) (s : list A) : list A :=
  drop (Z.to_nat lo) s.

Definition slice {A} (lo hi : Z) (s : list A) : list A :=
  take (Z.to_nat (hi - lo)) (drop (Z.to_nat lo) s).

(** ** Package config *)

Module Config.

(** The fields of [CameraConfig] that the code below reads; [AudioEnabled]
    is [Audio.Enabled]. *)
Record CameraConfig := mkCameraConfig {
  ID : string;
  Enabled : bool;
  AudioEnabled : bool;
}.

(** *** setDefaults

    The fields [setDefaults] reads or writes; of a camera, those of its
    audio configuration. *)

Record ServerConfig := mkServerConfig {
  Host : string;
  Port : Z;
}.

Record AudioConfig := mkAudioConfig {
  SampleRate : Z;
  Channels : Z;
}.

Record StorageConfig := mkStorageConfig {
  Path : string;
  SegmentDuration : string;
  RetentionDays : Z;
  Format : string;
}.

Record StreamConfig := mkStreamConfig {
  HLSSegmentDuration : Z;
  HLSPlaylistLength : Z;
  TempPath : string;
}.

Record PreviewConfig := mkPreviewConfig {
  MJPEGEnabled : bool;
  MJPEGPort : Z;
  MJPEGQuality : Z;
  WebRTCEnabled : bool;
  WebRTCPort : Z;
  STUNServer : list string;
}.

Record Settings := mkSettings {
  Server : ServerConfig;
  CamerasAudio : list AudioConfig;
  Storage : StorageConfig;
  Stream : StreamConfig;
  Preview : PreviewConfig;
}.

Definition orString (s default : string) : string :=
  if decide (s = EmptyString) then default else s.

Definition orInt (n default : Z) : Z := if n =? 0 then default else n.

Definition setDefaults (config : Settings) : Settings :=
  mkSettings
    (mkServerConfig (orString (Host (Server config)) "0.0.0.0")
       (orInt (Port (Server config)) 8080))
    ((λ a, mkAudioConfig (orInt (SampleRate a) 44100) (orInt (Channels a) 2))
       <$> CamerasAudio config)
    (mkStorageConfig (orString (Path (Storage config)) "./recordings")
       (orString (SegmentDuration (Storage config)) "5m")
       (orInt (RetentionDays (Storage config)) 7)
       (orString (Format (Storage config)) "mp4"))
    (mkStreamConfig (orInt (HLSSegmentDuration (Stream config)) 2)
       (orInt (HLSPlaylistLength (Stream config)) 5)
       (orString (TempPath (Stream config)) "./temp"))
    (mkPreviewConfig
       (if negb (MJPEGEnabled (Preview config))
           && negb (WebRTCEnabled (Preview config))
        then true else MJPEGEnabled (Preview config))
       (orInt (MJPEGPort (Preview config)) 8081)
       (orInt (MJPEGQuality (Preview config)) 5)
       (WebRTCEnabled (Preview config))
       (orInt (WebRTCPort (Preview config)) 8082)
       (if bool_decide (length (STUNServer (Preview config)) = 0%nat)
        then ["stun:stun.l.google.com:19302";
              "stun:stun1.l.google.com:19302"]
        else STUNServer (Preview config))).

End Config.

(** ** Package capture *)

Module Capture.

(** *** findBytes *)

(** The inner loop of [findBytes]: [data[i+j] == pattern[j]] for every [j],
    where the first argument is [data[i:]]. *)
Fixpoint matchAt (data pattern : bytes) : bool :=
  match pattern, data with
  | [], _ => true
  | p :: ps, d :: ds => Byte.eqb d p && matchAt ds ps
  | _ :: _, [] => false
  end.

(** The outer loop, [for i := ...; i <= len(data)-len(pattern); i++], on the
    suffix [data[i:]]. *)
Fixpoint findFrom (i : Z) (data pattern : bytes) : Z :=
  if len data <? len pattern then -1
  else if matchAt data pattern then i
  else match data with
       | [] => -1
       | _ :: ds => findFrom (i + 1) ds pattern
       end.

Definition findBytes (data pattern : bytes) : Z :=
  if (len pattern =? 0) || (len data <? len pattern) then -1
  else findFrom 0 data pattern.

(** *** The video demux of readMJPEGStream *)

Definition jpegStart : bytes := [xff; xd8].
Definition jpegEnd : bytes := [xff; xd9].

(** One pass of the inner [for] loop: the frame cut out of the working
    buffer and the buffer that is left, or [None] at a [break]. *)
Definition nextFrame (frameBuffer : bytes) : option (bytes * bytes) :=
  let startIdx := findBytes frameBuffer jpegStart in
  if startIdx =? -1 then None
  else
    let endIdx := findBytes (sliceFrom startIdx frameBuffer) jpegEnd in
    if endIdx =? -1 then None
    else
      let endIdx := endIdx + (startIdx + 2) in
      Some (slice startIdx endIdx frameBuffer, sliceFrom endIdx frameBuffer).

(** The inner loop, bounded by a number of passes. *)
Fixpoint parseLoop (fuel : nat) (frameBuffer : bytes) : list bytes * bytes :=
  match fuel with
  | O => ([], frameBuffer)
  | S fuel =>
      match nextFrame frameBuffer with
      | None => ([], frameBuffer)
      | Some (frame, rest) =>
          let '(frames, remaining) := parseLoop fuel rest in
          (frame :: frames, remaining)
      end
  end.

(** Every pass consumes at least one byte, so [length frameBuffer] passes
    are enough (see [parseFrames_unfold]). *)
Definition parseFrames (frameBuffer : bytes) : list bytes * bytes :=
  parseLoop (length frameBuffer) frameBuffer.

Definition maxFrameBuffer : Z := 2 * 1024 * 1024.
Definition keepFrameBuffer : Z := 1024 * 1024.

(** The guard after the inner loop. *)
Definition truncateBuffer (frameBuffer : bytes) : bytes :=
  if maxFrameBuffer <? len frameBuffer
  then sliceFrom (len frameBuffer - keepFrameBuffer) frameBuffer
  else frameBuffer.

(** The body of the read loop for one successful [reader.Read]: the frames
    emitted, in order, and the working buffer carried to the next read. *)
Definition demuxChunk (frameBuffer chunk : bytes) : list bytes * bytes :=
  let '(frames, remaining) := parseFrames (frameBuffer ++ chunk) in
  (frames, truncateBuffer remaining).

(** The read loop over the successive chunks of a stream. *)
Fixpoint demuxStream (frameBuffer : bytes) (chunks : list bytes)
  : list bytes * bytes :=
  match chunks with
  | [] => ([], frameBuffer)
  | chunk :: chunks =>
      let '(frames, fb) := demuxChunk frameBuffer chunk in
      let '(more, fb') := demuxStream fb chunks in
      (frames ++ more, fb')
  end.

(** *** Buffered channels

    [closes] counts the calls of [close] on the channel. Go panics when a
    closed channel is closed again or is sent to; the operations below
    report it in their second component. *)

Record Chan := mkChan {
  buf : list bytes;
  cap : nat;
  closes : nat;
}.

Definition makeChan (capacity : nat) : Chan := mkChan [] capacity 0.

Definition isClosed (ch : Chan) : bool := bool_decide (closes ch ≠ 0%nat).

Inductive SendResult :=
  | Sent (ch : Chan)
  | SendWouldBlock
  | SendPanics.

(** [select { case ch <- v: ... default: ... }] *)
Definition trySend (v : bytes) (ch : Chan) : SendResult :=
  if isClosed ch then SendPanics
  else if bool_decide (length (buf ch) < cap ch)%nat
       then Sent (mkChan (buf ch ++ [v]) (cap ch) (closes ch))
       else SendWouldBlock.

Inductive RecvResult :=
  | Received (v : bytes) (ch : Chan)
  | RecvClosed
  | RecvWouldBlock.

(** [select { case v, ok := <-ch: ... default: ... }]; a closed channel
    still hands out what it buffers, then the zero value with [ok] false. *)
Definition tryRecv (ch : Chan) : RecvResult :=
  match buf ch with
  | v :: rest => Received v (mkChan rest (cap ch) (closes ch))
  | [] => if isClosed ch then RecvClosed else RecvWouldBlock
  end.

(** [close(ch)]: the channel, and whether the call panics. *)
Definition chanClose (ch : Chan) : Chan * bool :=
  (mkChan (buf ch) (cap ch) (S (closes ch)), isClosed ch).

(** The body of the loop of [broadcastFrame] for one subscriber. *)
Definition sendDropOldest (v : bytes) (ch : Chan) : Chan * bool :=
  match trySend v ch with
  | Sent ch' => (ch', false)
  | SendPanics => (ch, true)
  | SendWouldBlock =>
      let ch1 := match tryRecv ch with
                 | Received _ ch' => ch'
                 | _ => ch
                 end in
      match trySend v ch1 with
      | Sent ch2 => (ch2, false)
      | SendWouldBlock => (ch1, false)
      | SendPanics => (ch1, true)
      end
  end.

(** The body of the loop of [broadcastAudio] for one subscriber. *)
Definition sendOrDrop (v : bytes) (ch : Chan) : Chan * bool :=
  match trySend v ch with
  | Sent ch' => (ch', false)
  | SendWouldBlock => (ch, false)
  | SendPanics => (ch, true)
  end.

(** *** FFmpegCapturer *)

Inductive error :=
  | ErrNotRunning        (* 采集器未运行 *)
  | ErrFrameTimeout      (* 获取帧超时 *)
  | ErrStartCapture      (* 启动采集失败 *)
  | ErrCapturerMissing.  (* 采集器 %s 不存在 *)

Record Capturer := mkCapturer {
  configID : string;                   (* [c.config.ID] *)
  audioEnabled : bool;                 (* [c.config.Audio.Enabled] *)
  running : bool;
  cmd : bool;                          (* [c.cmd != nil] *)
  cmdProcess : bool;                   (* [c.cmd.Process != nil] *)
  procs : nat;                         (* capture processes alive *)
  lastFrame : option bytes;
  frameSubscribers : gmap string nat;
  audioSubscribers : gmap string nat;
  chans : list Chan;                   (* the channels ever made *)
  panicked : bool;
}.

Definition NewAVCapturer (cfg : Config.CameraConfig) : Capturer :=
  mkCapturer (Config.ID cfg) (Config.AudioEnabled cfg) false false false 0
    None ∅ ∅ [] false.

Definition setRunning (b : bool) (c : Capturer) : Capturer :=
  mkCapturer (configID c) (audioEnabled c) b (cmd c) (cmdProcess c) (procs c)
    (lastFrame c) (frameSubscribers c) (audioSubscribers c) (chans c)
    (panicked c).

(** [c.cmd] is assigned: whether it is a command, whether that command has
    a process, and the capture processes then alive. *)
Definition setCmd (b p : bool) (n : nat) (c : Capturer) : Capturer :=
  mkCapturer (configID c) (audioEnabled c) (running c) b p n (lastFrame c)
    (frameSubscribers c) (audioSubscribers c) (chans c) (panicked c).

Definition setLastFrame (f : option bytes) (c : Capturer) : Capturer :=
  mkCapturer (configID c) (audioEnabled c) (running c) (cmd c) (cmdProcess c)
    (procs c) f (frameSubscribers c) (audioSubscribers c) (chans c)
    (panicked c).

Definition setFrameSubscribers (t : gmap string nat) (c : Capturer) : Capturer :=
  mkCapturer (configID c) (audioEnabled c) (running c) (cmd c) (cmdProcess c)
    (procs c) (lastFrame c) t (audioSubscribers c) (chans c) (panicked c).

Definition setAudioSubscribers (t : gmap string nat) (c : Capturer) : Capturer :=
  mkCapturer (configID c) (audioEnabled c) (running c) (cmd c) (cmdProcess c)
    (procs c) (lastFrame c) (frameSubscribers c) t (chans c) (panicked c).

Definition setChans (h : list Chan) (p : bool) (c : Capturer) : Capturer :=
  mkCapturer (configID c) (audioEnabled c) (running c) (cmd c) (cmdProcess c)
    (procs c) (lastFrame c) (frameSubscribers c) (audioSubscribers c) h
    (panicked c || p).

Definition IsRunning (c : Capturer) : bool := running c.
Definition HasAudio (c : Capturer) : bool := audioEnabled c.

(** Apply a channel operation to the channel a table entry refers to. *)
Definition onChan (op : Chan → Chan * bool) (ref : nat) (c : Capturer)
  : Capturer :=
  match chans c !! ref with
  | Some ch => let '(ch', p) := op ch in setChans (<[ref := ch']> (chans c)) p c
  | None => c
  end.

Definition frameQueueSize : nat := 30.
Definition audioQueueSize : nat := 100.

Definition SubscribeFrames (id : string) (c : Capturer) : nat * Capturer :=
  let ref := length (chans c) in
  (ref, setFrameSubscribers (<[id := ref]> (frameSubscribers c))
          (setChans (chans c ++ [makeChan frameQueueSize]) false c)).

Definition UnsubscribeFrames (id : string) (c : Capturer) : Capturer :=
  match frameSubscribers c !! id with
  | Some ref =>
      setFrameSubscribers (delete id (frameSubscribers c))
        (onChan chanClose ref c)
  | None => c
  end.

Definition SubscribeAudio (id : string) (c : Capturer) : nat * Capturer :=
  let ref := length (chans c) in
  (ref, setAudioSubscribers (<[id := ref]> (audioSubscribers c))
          (setChans (chans c ++ [makeChan audioQueueSize]) false c)).

Definition UnsubscribeAudio (id : string) (c : Capturer) : Capturer :=
  match audioSubscribers c !! id with
  | Some ref =>
      setAudioSubscribers (delete id (audioSubscribers c))
        (onChan chanClose ref c)
  | None => c
  end.

(** [for _, ch := range c.frameSubscribers { ... }] *)
Definition broadcastFrame (frame : bytes) (c : Capturer) : Capturer :=
  map_fold (λ _ ref acc, onChan (sendDropOldest frame) ref acc)
    c (frameSubscribers c).

Definition broadcastAudio (audio : bytes) (c : Capturer) : Capturer :=
  map_fold (λ _ ref acc, onChan (sendOrDrop audio) ref acc)
    c (audioSubscribers c).

(** What [readMJPEGStream] does with one frame it has cut out. *)
Definition emitFrame (c : Capturer) (frame : bytes) : Capturer :=
  broadcastFrame frame (setLastFrame (Some frame) c).

(** One successful read of [readMJPEGStream] on the capturer. *)
Definition readChunk (frameBuffer chunk : bytes) (c : Capturer)
  : bytes * Capturer :=
  let '(frames, fb) := demuxChunk frameBuffer chunk in
  (fb, foldl emitFrame c frames).

(** What the operating system answers to [startCapture]: [os.Pipe] fails,
    [c.cmd.Start()] fails, or the process is started. *)
Inductive SpawnEnv := PipeFails | SpawnFails | SpawnOk.

(** [startCapture] returns on a failed [os.Pipe] before it touches [c.cmd].
    It assigns [c.cmd] before it calls [c.cmd.Start()] and does not reset it
    when that call fails: the command is then left in [c.cmd], without a
    process. *)
Inductive captureError :=
  | ErrCreatePipe     (* 创建 MJPEG 管道失败 / 创建音频管道失败 *)
  | ErrStartFFmpeg.   (* 启动 FFmpeg 失败 *)

Definition startCapture (env : SpawnEnv) (c : Capturer)
  : option captureError * Capturer :=
  match env with
  | PipeFails => (Some ErrCreatePipe, c)
  | SpawnFails => (Some ErrStartFFmpeg, setCmd true false (procs c) c)
  | SpawnOk => (None, setCmd true true (S (procs c)) c)
  end.

Definition Start (env : SpawnEnv) (c : Capturer) : option error * Capturer :=
  if running c then (None, c)
  else match startCapture env c with
       | (Some _, c') => (Some ErrStartCapture, c')
       | (None, c') => (None, setRunning true c')
       end.

(** [if c.cmd != nil && c.cmd.Process != nil { ...; c.cmd = nil }] *)
Definition stopCapture (c : Capturer) : Capturer :=
  if cmd c && cmdProcess c then setCmd false false (pred (procs c)) c else c.

(** The two closing loops of [Stop], each under its own lock. *)
Definition closeFrameSubscribers (c : Capturer) : Capturer :=
  map_fold (λ id ref acc,
              setFrameSubscribers (delete id (frameSubscribers acc))
                (onChan chanClose ref acc))
    c (frameSubscribers c).

Definition closeAudioSubscribers (c : Capturer) : Capturer :=
  map_fold (λ id ref acc,
              setAudioSubscribers (delete id (audioSubscribers acc))
                (onChan chanClose ref acc))
    c (audioSubscribers c).

Definition Stop (c : Capturer) : option error * Capturer :=
  if negb (running c) then (None, c)
  else (None, setRunning false
                (closeAudioSubscribers
                   (closeFrameSubscribers (stopCapture c)))).

(** *** Interleavings

    The steps other goroutines can take on a capturer, one per critical
    section. A [Stop] that runs next to other calls is its sections in
    order, [AStopCapture], [ACloseFrames], [ACloseAudio], [AStopped], with
    steps of the others in between. [AStopCapture] is also what the exit
    watcher of [startCapture] leaves when the process ends by itself. *)
Inductive Action :=
  | AStart (env : SpawnEnv)
  | AStop
  | AStopCapture
  | ACloseFrames
  | ACloseAudio
  | AStopped
  | ASubscribeFrames (id : string)
  | AUnsubscribeFrames (id : string)
  | ASubscribeAudio (id : string)
  | AUnsubscribeAudio (id : string)
  | AEmitFrame (frame : bytes)
  | ABroadcastAudio (audio : bytes)
  | AReceive (ref : nat).

(** A subscriber takes an item from its queue, if there is one. *)
Definition receive (ch : Chan) : Chan * bool :=
  match tryRecv ch with
  | Received _ ch' => (ch', false)
  | _ => (ch, false)
  end.

Definition step (c : Capturer) (a : Action) : Capturer :=
  match a with
  | AStart env => snd (Start env c)
  | AStop => snd (Stop c)
  | AStopCapture => stopCapture c
  | ACloseFrames => closeFrameSubscribers c
  | ACloseAudio => closeAudioSubscribers c
  | AStopped => setRunning false c
  | ASubscribeFrames id => snd (SubscribeFrames id c)
  | AUnsubscribeFrames id => UnsubscribeFrames id c
  | ASubscribeAudio id => snd (SubscribeAudio id c)
  | AUnsubscribeAudio id => UnsubscribeAudio id c
  | AEmitFrame frame => emitFrame c frame
  | ABroadcastAudio audio => broadcastAudio audio c
  | AReceive ref => onChan receive ref c
  end.

Definition run (c : Capturer) (acts : list Action) : Capturer :=
  foldl step c acts.

(** *** GetFrame

    Time is a count of nanoseconds. While [GetFrame] waits in its [select],
    the other goroutines take the steps of [sched], each at its offset from
    the moment the wait began; the timer of [time.After] fires at
    [getFrameTimeout]. *)
Definition getFrameTimeout : Z := 3 * 1000000000.

(** How the [select] ended; [GotFrame None] is the zero value that a
    closed channel hands out. *)
Inductive Waited :=
  | GotFrame (frame : option bytes)
  | TimerFired.

Fixpoint awaitFrame (ref : nat) (elapsed : Z) (sched : list (Z * Action))
    (c : Capturer) : Waited * Z * Capturer :=
  match tryRecv <$> chans c !! ref with
  | Some (Received v ch') =>
      (GotFrame (Some v), elapsed, setChans (<[ref := ch']> (chans c)) false c)
  | Some RecvClosed => (GotFrame None, elapsed, c)
  | _ =>
      match sched with
      | [] => (TimerFired, getFrameTimeout, c)
      | (t, a) :: sched =>
          if getFrameTimeout <=? t then (TimerFired, getFrameTimeout, c)
          else awaitFrame ref (Z.max elapsed t) sched (step c a)
      end
  end.

Definition snapshotID (now : Z) : string := "snapshot_" +:+ pretty now.

(** The result is Go's pair [([]byte, error)], then the time spent waiting
    and the capturer afterwards. *)
Definition GetFrame (now : Z) (sched : list (Z * Action)) (c : Capturer)
  : (option bytes * option error) * Z * Capturer :=
  if negb (running c) then ((None, Some ErrNotRunning), 0, c)
  else match lastFrame c with
       | Some frame => ((Some frame, None), 0, c)
       | None =>
           let subID := snapshotID now in
           let '(ref, c1) := SubscribeFrames subID c in
           let '(w, elapsed, c2) := awaitFrame ref 0 sched c1 in
           let c3 := UnsubscribeFrames subID c2 in
           match w with
           | GotFrame frame => ((frame, None), elapsed, c3)
           | TimerFired => ((None, Some ErrFrameTimeout), elapsed, c3)
           end
       end.

(** *** Manager (the capture registry) *)

Definition GetCapturer (id : string) (capturers : gmap string Capturer)
  : option Capturer * option error :=
  match capturers !! id with
  | Some c => (Some c, None)
  | None => (None, Some ErrCapturerMissing)
  end.

(** *** readAudioStream *)

Definition audioFrameSize : Z := 960 * 2 * 1.

(** What [io.ReadFull] returns on a pipe. *)
Inductive ioError := EOF | ErrUnexpectedEOF.

(** [io.ReadFull(pipe, buffer)] on a pipe that holds [pipe] until its end:
    [n], [err], the bytes read and what the pipe still holds. *)
Definition ReadFull (size : Z) (pipe : bytes)
  : Z * option ioError * bytes * bytes :=
  if size <=? len pipe
  then (size, None, slice 0 size pipe, sliceFrom size pipe)
  else (len pipe, Some (if len pipe =? 0 then EOF else ErrUnexpectedEOF),
        pipe, []).

(** The loop of [readAudioStream], bounded by a number of passes: the
    blocks handed to [broadcastAudio], in order. *)
Fixpoint audioLoop (fuel : nat) (pipe : bytes) : list bytes :=
  match fuel with
  | O => []
  | S fuel =>
      let '(n, err, buffer, rest) := ReadFull audioFrameSize pipe in
      match err with
      | Some _ => []
      | None =>
          if n =? audioFrameSize
          then slice 0 n buffer :: audioLoop fuel rest
          else audioLoop fuel rest
      end
  end.

(** Every pass that goes on consumes a block, so [length pipe] passes are
    enough. *)
Definition audioBlocks (pipe : bytes) : list bytes :=
  audioLoop (length pipe) pipe.

(** [readAudioStream] up to the end of the pipe; [None] is the nil pipe of
    a capturer without audio. *)
Definition readAudioStream (audioPipe : option bytes) (c : Capturer)
  : Capturer :=
  match audioPipe with
  | None => c
  | Some pipe => foldl (λ c block, broadcastAudio block c) c (audioBlocks pipe)
  end.

(** *** Manager: filling, starting and stopping the registry *)

Inductive addError :=
  | ErrCapturerExists.   (* 采集器 %s 已存在 *)

Definition AddCapturer (cfg : Config.CameraConfig)
    (capturers : gmap string Capturer)
  : (option Capturer * option addError) * gmap string Capturer :=
  match capturers !! Config.ID cfg with
  | Some _ => ((None, Some ErrCapturerExists), capturers)
  | None =>
      let capturer := NewAVCapturer cfg in
      ((Some capturer, None), <[Config.ID cfg := capturer]> capturers)
  end.

(** The loop of [main] over the configured cameras: a disabled camera is
    skipped, a failed [AddCapturer] is logged and the loop goes on. With
    recording enabled the loop calls [AddCapturerWithRecording], which
    fills the registry in the same way. *)
Definition addCapturers (cams : list Config.CameraConfig)
    (capturers : gmap string Capturer) : gmap string Capturer :=
  foldl (λ acc cam, if Config.Enabled cam then (AddCapturer cam acc).2 else acc)
    capturers cams.

(** [StartAll] starts the capturers in the order in which the map hands
    them out, [order], and returns at the first error; [env] is what the
    operating system answers to each capturer's [startCapture]. The
    registry holds pointers, so what a failed [Start] has done to its
    capturer stays in the registry. *)
Fixpoint StartAll (env : string → SpawnEnv) (order : list string)
    (capturers : gmap string Capturer)
  : option error * gmap string Capturer :=
  match order with
  | [] => (None, capturers)
  | id :: order =>
      match capturers !! id with
      | None => StartAll env order capturers
      | Some c =>
          match Start (env id) c with
          | (Some err, c') => (Some err, <[id := c']> capturers)
          | (None, c') => StartAll env order (<[id := c']> capturers)
          end
      end
  end.

Definition StopAll (capturers : gmap string Capturer)
  : gmap string Capturer :=
  (λ c, (Stop c).2) <$> capturers.

End Capture.

(** ** Package rtmp: the push-stream manager *)

Module Rtmp.

Inductive error :=
  | ErrAlreadyStreaming     (* 摄像头 %s 已在推流中 *)
  | ErrCameraNotFound       (* 摄像头不存在: %s *)
  | ErrGetCapturer          (* 获取采集器失败 *)
  | ErrCapturerNotRunning   (* 采集器未运行: %s *)
  | ErrPipe                 (* 创建视频管道失败 / 创建音频管道失败 *)
  | ErrSpawn.               (* 启动 FFmpeg RTMP 推流失败 *)

Record Streamer := mkStreamer {
  cameraID : string;
  rtmpURL : string;
  running : bool;
}.

Definition NewStreamer (cameraID rtmpURL : string) : Streamer :=
  mkStreamer cameraID rtmpURL false.

(** The manager, the capture registry it points to, and the transcoding
    processes alive. *)
Record Manager := mkManager {
  captureManager : gmap string Capture.Capturer;   (* its [capturers] *)
  cameras : gmap string Config.CameraConfig;
  streamers : gmap string Streamer;
  frameFeeds : gset string;
  procs : nat;
}.

Definition NewManager (captureManager : gmap string Capture.Capturer)
    (cams : list Config.CameraConfig) : Manager :=
  mkManager captureManager
    (foldl (λ m cam, if Config.Enabled cam then <[Config.ID cam := cam]> m
                     else m) ∅ cams)
    ∅ ∅ 0.

(** [Streamer.Start]: the error, the streamer, and the processes spawned. *)
Definition StreamerStart (env : Capture.SpawnEnv) (s : Streamer)
  : option error * Streamer * nat :=
  if running s then (None, s, 0%nat)
  else match env with
       | Capture.PipeFails => (Some ErrPipe, s, 0%nat)
       | Capture.SpawnFails => (Some ErrSpawn, s, 0%nat)
       | Capture.SpawnOk =>
           (None, mkStreamer (cameraID s) (rtmpURL s) true, 1%nat)
       end.

Definition videoSubID (cameraID : string) : string := "rtmp_video_" +:+ cameraID.
Definition audioSubID (cameraID : string) : string := "rtmp_audio_" +:+ cameraID.

Definition StartStream (env : Capture.SpawnEnv) (cameraID rtmpURL : string)
    (m : Manager) : option error * Manager :=
  if bool_decide (running <$> streamers m !! cameraID = Some true)
  then (Some ErrAlreadyStreaming, m)
  else
    match cameras m !! cameraID with
    | None => (Some ErrCameraNotFound, m)
    | Some camConfig =>
        match Capture.GetCapturer cameraID (captureManager m) with
        | (Some capturer, _) =>
            if negb (Capture.IsRunning capturer)
            then (Some ErrCapturerNotRunning, m)
            else
              match StreamerStart env (NewStreamer cameraID rtmpURL) with
              | (Some err, _, _) => (Some err, m)
              | (None, streamer, spawned) =>
                  let c1 := snd (Capture.SubscribeFrames
                                   (videoSubID cameraID) capturer) in
                  let c2 := if Capture.HasAudio c1
                            then snd (Capture.SubscribeAudio
                                        (audioSubID cameraID) c1)
                            else c1 in
                  (None,
                   mkManager (<[cameraID := c2]> (captureManager m)) (cameras m)
                     (<[cameraID := streamer]> (streamers m))
                     ({[cameraID]} ∪ frameFeeds m)
                     (procs m + spawned))
              end
        | (None, _) => (Some ErrGetCapturer, m)
        end
    end.

(** [Streamer.Stop] kills the process of a running streamer. *)
Definition StopStream (cameraID : string) (m : Manager) : Manager :=
  match streamers m !! cameraID with
  | Some s =>
      mkManager (captureManager m) (cameras m) (delete cameraID (streamers m))
        (frameFeeds m ∖ {[cameraID]})
        (if running s then pred (procs m) else procs m)
  | None =>
      mkManager (captureManager m) (cameras m) (streamers m)
        (frameFeeds m ∖ {[cameraID]}) (procs m)
  end.

(** The exit watcher of [Streamer.Start]: the process has ended. *)
Definition processExited (cameraID : string) (m : Manager) : Manager :=
  match streamers m !! cameraID with
  | Some s =>
      if running s
      then mkManager (captureManager m) (cameras m)
             (<[cameraID := mkStreamer (Rtmp.cameraID s) (rtmpURL s) false]>
                (streamers m))
             (frameFeeds m) (pred (procs m))
      else m
  | None => m
  end.

Inductive Call :=
  | CStartStream (env : Capture.SpawnEnv) (cameraID rtmpURL : string)
  | CStopStream (cameraID : string)
  | CProcessExited (cameraID : string)
  | CCapturer (cameraID : string) (a : Capture.Action).

Definition call (m : Manager) (k : Call) : Manager :=
  match k with
  | CStartStream env id url => snd (StartStream env id url m)
  | CStopStream id => StopStream id m
  | CProcessExited id => processExited id m
  | CCapturer id a =>
      mkManager (alter (λ c, Capture.step c a) id (captureManager m)) (cameras m)
        (streamers m) (frameFeeds m) (procs m)
  end.

Definition calls (m : Manager) (ks : list Call) : Manager := foldl call m ks.

Definition GetURL (s : Streamer) : string := rtmpURL s.

Definition GetStreamStatus (cameraID : string) (m : Manager) : bool * string :=
  match streamers m !! cameraID with
  | Some s => if running s then (true, GetURL s) else (false, EmptyString)
  | None => (false, EmptyString)
  end.

Definition GetAllStreams (m : Manager) : gmap string string :=
  map_fold (λ id s streams, if running s then <[id := GetURL s]> streams
                            else streams)
    ∅ (streamers m).

(** [StopAll]: the loop over the feeds, then the loop over the streamers. *)
Definition StopAll (m : Manager) : Manager :=
  let feeds := set_fold (λ id feeds, feeds ∖ {[id]})
                 (frameFeeds m) (frameFeeds m) in
  map_fold (λ id s acc,
              mkManager (captureManager acc) (cameras acc)
                (delete id (streamers acc)) (frameFeeds acc)
                (if running s then pred (procs acc) else procs acc))
    (mkManager (captureManager m) (cameras m) (streamers m) feeds (procs m))
    (streamers m).

End Rtmp.

(** ** Package stream: the segmented-file (HLS) output manager *)

Module Stream.

Inductive error :=
  | ErrAlreadyRunning   (* HLS 输出已在运行: %s *)
  | ErrCameraNotFound   (* 摄像头不存在: %s *)
  | ErrGetCapturer      (* 获取采集器失败 *)
  | ErrMkdir            (* 创建 HLS 输出目录失败 *)
  | ErrPipe             (* 创建视频管道失败 / 创建音频管道失败 *)
  | ErrSpawn.           (* 启动 HLS FFmpeg 失败 *)

(** What the operating system answers to [HLSOutput.Start]. *)
Inductive StartEnv := MkdirFails | PipeFails | SpawnFails | SpawnOk.

Record HLSOutput := mkHLSOutput {
  capturerID : string;
  running : bool;
}.

Definition NewHLSOutput (capturer : Capture.Capturer) : HLSOutput :=
  mkHLSOutput (Capture.configID capturer) false.

Record HLSOutputManager := mkManager {
  captureManager : gmap string Capture.Capturer;   (* its [capturers] *)
  cameras : gmap string Config.CameraConfig;
  outputs : gmap string HLSOutput;
  procs : nat;
}.

Definition NewHLSOutputManager
    (captureManager : gmap string Capture.Capturer)
    (cams : list Config.CameraConfig) : HLSOutputManager :=
  mkManager captureManager
    (foldl (λ m cam, if Config.Enabled cam then <[Config.ID cam := cam]> m
                     else m) ∅ cams)
    ∅ 0.

Definition OutputStart (env : StartEnv) (h : HLSOutput)
  : option error * HLSOutput * nat :=
  if running h then (None, h, 0%nat)
  else match env with
       | MkdirFails => (Some ErrMkdir, h, 0%nat)
       | PipeFails => (Some ErrPipe, h, 0%nat)
       | SpawnFails => (Some ErrSpawn, h, 0%nat)
       | SpawnOk => (None, mkHLSOutput (capturerID h) true, 1%nat)
       end.

Definition StartOutput (env : StartEnv) (cameraID : string)
    (m : HLSOutputManager) : option error * HLSOutputManager :=
  if bool_decide (running <$> outputs m !! cameraID = Some true)
  then (Some ErrAlreadyRunning, m)
  else
    match cameras m !! cameraID with
    | None => (Some ErrCameraNotFound, m)
    | Some camCfg =>
        match Capture.GetCapturer cameraID (captureManager m) with
        | (Some capturer, _) =>
            match OutputStart env (NewHLSOutput capturer) with
            | (Some err, _, _) => (Some err, m)
            | (None, output, spawned) =>
                (None,
                 mkManager (captureManager m) (cameras m)
                   (<[cameraID := output]> (outputs m))
                   (procs m + spawned))
            end
        | (None, _) => (Some ErrGetCapturer, m)
        end
    end.

Definition GetPlaylistURL (h : HLSOutput) : string :=
  "/hls/" +:+ capturerID h +:+ "/index.m3u8".

(** [HLSOutput.Stop] kills the process of a running output. *)
Definition StopOutput (cameraID : string) (m : HLSOutputManager)
  : HLSOutputManager :=
  match outputs m !! cameraID with
  | Some h =>
      mkManager (captureManager m) (cameras m) (delete cameraID (outputs m))
        (if running h then pred (procs m) else procs m)
  | None => m
  end.

(** The exit watcher of [HLSOutput.Start]: the process has ended. *)
Definition processExited (cameraID : string) (m : HLSOutputManager)
  : HLSOutputManager :=
  match outputs m !! cameraID with
  | Some h =>
      if running h
      then mkManager (captureManager m) (cameras m)
             (<[cameraID := mkHLSOutput (capturerID h) false]> (outputs m))
             (pred (procs m))
      else m
  | None => m
  end.

Definition GetOutputStatus (cameraID : string) (m : HLSOutputManager)
  : bool * string :=
  match outputs m !! cameraID with
  | Some h => if running h then (true, GetPlaylistURL h)
              else (false, EmptyString)
  | None => (false, EmptyString)
  end.

Definition GetAllOutputs (m : HLSOutputManager) : gmap string string :=
  map_fold (λ id h acc, if running h then <[id := GetPlaylistURL h]> acc
                        else acc)
    ∅ (outputs m).

Definition StopAll (m : HLSOutputManager) : HLSOutputManager :=
  map_fold (λ id h acc,
              mkManager (captureManager acc) (cameras acc)
                (delete id (outputs acc))
                (if running h then pred (procs acc) else procs acc))
    m (outputs m).

Inductive Call :=
  | CStartOutput (env : StartEnv) (cameraID : string)
  | CStopOutput (cameraID : string)
  | CProcessExited (cameraID : string)
  | CCapturer (cameraID : string) (a : Capture.Action).

Definition call (m : HLSOutputManager) (k : Call) : HLSOutputManager :=
  match k with
  | CStartOutput env id => snd (StartOutput env id m)
  | CStopOutput id => StopOutput id m
  | CProcessExited id => processExited id m
  | CCapturer id a =>
      mkManager (alter (λ c, Capture.step c a) id (captureManager m))
        (cameras m) (outputs m) (procs m)
  end.

Definition calls (m : HLSOutputManager) (ks : list Call) : HLSOutputManager :=
  foldl call m ks.

End Stream.

(** ** Package webrtc: the subscriber count of the RTP bridge *)

Module Webrtc.

(** Go's [int] on a 64-bit platform. *)
Definition wrapInt (z : Z) : Z := (z + 2 ^ 63) mod 2 ^ 64 - 2 ^ 63.

Record RTPForwarder := mkRTPForwarder {
  cameraID : string;
  subscribers : Z;
}.

Definition NewRTPForwarder (cameraID : string) : RTPForwarder :=
  mkRTPForwarder cameraID 0.

Definition AddSubscriber (f : RTPForwarder) : RTPForwarder :=
  mkRTPForwarder (cameraID f) (wrapInt (subscribers f + 1)).

Definition RemoveSubscriber (f : RTPForwarder) : Z * RTPForwarder :=
  let f' := mkRTPForwarder (cameraID f) (wrapInt (subscribers f - 1)) in
  (subscribers f', f').

Definition GetSubscriberCount (f : RTPForwarder) : Z := subscribers f.

Inductive Op := Add | Remove.

#[global] Instance Op_eq_dec : EqDecision Op.
Proof. solve_decision. Defined.

Definition doOp (f : RTPForwarder) (k : Op) : RTPForwarder :=
  match k with
  | Add => AddSubscriber f
  | Remove => snd (RemoveSubscriber f)
  end.

Definition doOps (f : RTPForwarder) (ks : list Op) : RTPForwarder :=
  foldl doOp f ks.

(** The count read after each call of a sequence. *)
Fixpoint counts (f : RTPForwarder) (ks : list Op) : list Z :=
  match ks with
  | [] => []
  | k :: ks => GetSubscriberCount (doOp f k) :: counts (doOp f k) ks
  end.

Definition adds (ks : list Op) : Z :=
  len (filter (λ k, k = Add) ks).

Definition removes (ks : list Op) : Z :=
  len (filter (λ k, k = Remove) ks).

(** *** The frame input of the RTP bridge *)

Definition frameInputSize : nat := 10.

(** [s[i]], for an index within the slice. *)
Definition byteAt (s : bytes) (i : Z) : byte := nth (Z.to_nat i) s x00.

Inductive WriteLog :=
  | LogTooSmall (n : Z)             (* WriteFrame: 帧太小 (%d bytes) *)
  | LogNotJPEG (b0 b1 : byte)       (* WriteFrame: 不是有效的 JPEG *)
  | LogNoEndMarker (b0 b1 : byte).  (* WriteFrame: JPEG 没有正确的结束标记 *)

(** [WriteFrame] on the queue [frameInput]: the queue afterwards and the
    lines logged. *)
Definition WriteFrame (frame : bytes) (frameInput : list bytes)
  : list bytes * list WriteLog :=
  if len frame <? 2 then (frameInput, [LogTooSmall (len frame)])
  else
    let isJPEG := Byte.eqb (byteAt frame 0) xff
                  && Byte.eqb (byteAt frame 1) xd8 in
    let hasEnd := (2 <=? len frame)
                  && Byte.eqb (byteAt frame (len frame - 2)) xff
                  && Byte.eqb (byteAt frame (len frame - 1)) xd9 in
    if negb isJPEG
    then (frameInput, [LogNotJPEG (byteAt frame 0) (byteAt frame 1)])
    else
      (if bool_decide (length frameInput < frameInputSize)%nat
       then frameInput ++ [frame] else frameInput,
       if negb hasEnd
       then [LogNoEndMarker (byteAt frame (len frame - 2))
               (byteAt frame (len frame - 1))]
       else []).

End Webrtc.

(** ** Package rtmp: the frame path of a streamer *)

Module RtmpStreamer.

Definition frameInputSize : nat := 30.

(** [WriteFrame] on the queue [frameInput] of a streamer. *)
Definition WriteFrame (running : bool) (frame : bytes)
    (frameInput : list bytes) : list bytes :=
  if negb running then frameInput
  else if bool_decide (length frameInput < frameInputSize)%nat
       then frameInput ++ [frame] else frameInput.

(** What one pass of the loop of [feedFrames] meets: the context is done,
    or a frame comes out of the queue while the streamer is running or
    not, the pipe is there or not, and the write succeeds or fails. The
    queue is never closed. *)
Inductive FeedEvent :=
  | EDone
  | EFrame (running stdin : bool) (frame : bytes) (writeOk : bool).

Inductive LogLine :=
  | LogWriteFailed            (* RTMP 写入视频帧失败 *)
  | LogSuppressed             (* RTMP 后续视频写入错误将不再显示... *)
  | LogPushed (frameCount : Z).   (* RTMP 已推送 %d 视频帧 *)

#[global] Instance LogLine_eq_dec : EqDecision LogLine.
Proof. solve_decision. Defined.

(** The counters of the loop, the frames written to the pipe and the lines
    logged. *)
Record Feed := mkFeed {
  frameCount : Z;
  errCount : Z;
  written : list bytes;
  logs : list LogLine;
}.

(** One pass; [None] is a [return]. *)
Definition feedStep (st : Feed) (ev : FeedEvent) : option Feed :=
  match ev with
  | EDone => None
  | EFrame running stdin frame writeOk =>
      if negb running then None
      else if stdin && (0 <? len frame)
      then
        if negb writeOk
        then
          let errCount := Webrtc.wrapInt (errCount st + 1) in
          Some (mkFeed (frameCount st) errCount (written st)
                  (logs st
                   ++ (if errCount <=? 3 then [LogWriteFailed] else [])
                   ++ (if errCount =? 3 then [LogSuppressed] else [])))
        else
          let frameCount := Webrtc.wrapInt (frameCount st + 1) in
          Some (mkFeed frameCount 0 (written st ++ [frame])
                  (logs st
                   ++ (if (frameCount =? 1) || (Z.rem frameCount 300 =? 0)
                       then [LogPushed frameCount] else [])))
      else Some st
  end.

Fixpoint feedLoop (st : Feed) (evs : list FeedEvent) : Feed :=
  match evs with
  | [] => st
  | ev :: evs =>
      match feedStep st ev with
      | Some st' => feedLoop st' evs
      | None => st
      end
  end.

Definition feedFrames (evs : list FeedEvent) : Feed :=
  feedLoop (mkFeed 0 0 [] []) evs.

End RtmpStreamer.

(** ** Package monitor: the history and the alerts of the performance
    monitor *)

Module Monitor.

Record HistoryPoint := mkHistoryPoint {
  Timestamp : Z;
  MemAlloc : Z;        (* uint64 *)
  MemSys : Z;          (* uint64 *)
  NumGoroutine : Z;
  NumGC : Z;
}.

Inductive AlertType :=
  | Memory               (* memory *)
  | MemoryResolved       (* memory_resolved *)
  | Goroutine            (* goroutine *)
  | GoroutineResolved.   (* goroutine_resolved *)

#[global] Instance AlertType_eq_dec : EqDecision AlertType.
Proof. solve_decision. Defined.

(** An alert, without its time stamp and the text of its message; [Value]
    is the measurement the text is printed from. *)
Record Alert := mkAlert {
  Type' : AlertType;
  Value : Z;
  Resolved : bool;
}.

Record Monitor := mkMonitor {
  history : list HistoryPoint;
  historySize : Z;
  alerts : list Alert;
  alertsLimit : Z;
  memThreshold : Z;         (* uint64 *)
  goroutineThreshold : Z;
  lastMemAlert : bool;
  lastGoroutineAlert : bool;
  logged : list Alert;      (* the alerts [addAlert] has printed to the log *)
}.

Definition NewMonitor : Monitor :=
  mkMonitor [] 720 [] 100 (512 * 1024 * 1024) 1000 false false [].

Definition SetThresholds (memMB goroutines : Z) (m : Monitor) : Monitor :=
  mkMonitor (history m) (historySize m) (alerts m) (alertsLimit m)
    (if 0 <? memMB then (memMB * 1024 * 1024) mod 2 ^ 64 else memThreshold m)
    (if 0 <? goroutines then goroutines else goroutineThreshold m)
    (lastMemAlert m) (lastGoroutineAlert m) (logged m).

Definition setHistory (h : list HistoryPoint) (m : Monitor) : Monitor :=
  mkMonitor h (historySize m) (alerts m) (alertsLimit m) (memThreshold m)
    (goroutineThreshold m) (lastMemAlert m) (lastGoroutineAlert m) (logged m).

Definition setAlerts (a : list Alert) (m : Monitor) : Monitor :=
  mkMonitor (history m) (historySize m) a (alertsLimit m) (memThreshold m)
    (goroutineThreshold m) (lastMemAlert m) (lastGoroutineAlert m) (logged m).

Definition setLastMemAlert (b : bool) (m : Monitor) : Monitor :=
  mkMonitor (history m) (historySize m) (alerts m) (alertsLimit m)
    (memThreshold m) (goroutineThreshold m) b (lastGoroutineAlert m)
    (logged m).

Definition setLastGoroutineAlert (b : bool) (m : Monitor) : Monitor :=
  mkMonitor (history m) (historySize m) (alerts m) (alertsLimit m)
    (memThreshold m) (goroutineThreshold m) (lastMemAlert m) b (logged m).

(** [log.Printf] of [addAlert]: one line for the alert, marked as an alert
    or as a resolution and printed from its message. *)
Definition setLogged (l : list Alert) (m : Monitor) : Monitor :=
  mkMonitor (history m) (historySize m) (alerts m) (alertsLimit m)
    (memThreshold m) (goroutineThreshold m) (lastMemAlert m)
    (lastGoroutineAlert m) l.

Definition addAlert (alertType : AlertType) (value : Z) (m : Monitor)
  : Monitor :=
  let alert := mkAlert alertType value
                 (bool_decide (alertType = MemoryResolved
                               ∨ alertType = GoroutineResolved)) in
  let alerts := alerts m ++ [alert] in
  setLogged (logged m ++ [alert])
    (setAlerts (if alertsLimit m <? len alerts then sliceFrom 1 alerts
                else alerts) m).

Definition checkAlerts (point : HistoryPoint) (m : Monitor) : Monitor :=
  let m :=
    if memThreshold m <? MemAlloc point
    then if negb (lastMemAlert m)
         then setLastMemAlert true (addAlert Memory (MemAlloc point) m)
         else m
    else if lastMemAlert m
         then setLastMemAlert false
                (addAlert MemoryResolved (MemAlloc point) m)
         else m in
  if goroutineThreshold m <? NumGoroutine point
  then if negb (lastGoroutineAlert m)
       then setLastGoroutineAlert true
              (addAlert Goroutine (NumGoroutine point) m)
       else m
  else if lastGoroutineAlert m
       then setLastGoroutineAlert false
              (addAlert GoroutineResolved (NumGoroutine point) m)
       else m.

(** [collect], for the point it has measured. *)
Definition collect (point : HistoryPoint) (m : Monitor) : Monitor :=
  let history := history m ++ [point] in
  checkAlerts point
    (setHistory (if historySize m <? len history then sliceFrom 1 history
                 else history) m).

(** [GetHistory]; [None] is the panic of [make] on a negative length. *)
Definition GetHistory (minutes : Z) (m : Monitor)
  : option (list HistoryPoint) :=
  let minutes := if minutes <=? 0 then 60 else minutes in
  let points := Webrtc.wrapInt (minutes * 12) in
  let points := if len (history m) <? points then len (history m)
                else points in
  if points =? 0 then Some []
  else if points <? 0 then None
  else Some (sliceFrom (len (history m) - points) (history m)).

Definition GetAlerts (limit : Z) (m : Monitor) : list Alert :=
  let n := len (alerts m) in
  let limit := if (limit <=? 0) || (n <? limit) then n else limit in
  omap (λ i : nat, alerts m !! Z.to_nat (n - 1 - Z.of_nat i))
    (seq 0 (Z.to_nat limit)).

Inductive Event :=
  | ECollect (point : HistoryPoint)
  | ESetThresholds (memMB goroutines : Z).

Definition step (m : Monitor) (ev : Event) : Monitor :=
  match ev with
  | ECollect point => collect point m
  | ESetThresholds memMB goroutines => SetThresholds memMB goroutines m
  end.

Definition run (m : Monitor) (evs : list Event) : Monitor := foldl step m evs.

(** *** formatBytes *)

(** The loop of [formatBytes],
    [for n := bytes / unit; n >= unit; n /= unit { div *= unit; exp++ }],
    bounded by a number of passes; [div] is a [uint64] and [exp] an
    [int]. *)
Fixpoint unitLoop (fuel : nat) (n div exp : Z) : Z * Z :=
  match fuel with
  | O => (div, exp)
  | S fuel =>
      if 1024 <=? n
      then unitLoop fuel (n / 1024) ((div * 1024) mod 2 ^ 64)
             (Webrtc.wrapInt (exp + 1))
      else (div, exp)
  end.

(** What [formatBytes] prints: the count of bytes as it is, or the count
    over [div] with one decimal and the letter of the unit. *)
Inductive Formatted :=
  | Plain (bytes : Z)                          (* %d B *)
  | Scaled (bytes div : Z) (prefix : Ascii.ascii).   (* %.1f %cB *)

(** [None] is the panic of an index out of range. A [uint64] is halved ten
    times at each pass, so 64 passes are more than the loop can take. *)
Definition formatBytes (bytes : Z) : option Formatted :=
  if bytes <? 1024 then Some (Plain bytes)
  else
    let '(div, exp) := unitLoop 64 (bytes / 1024) 1024 0 in
    if exp <? 0 then None
    else match String.get (Z.to_nat exp) "KMGTPE" with
         | Some c => Some (Scaled bytes div c)
         | None => None
         end.

End Monitor.

(** ** Package handler: the snapshot endpoint of the MJPEG service *)

Module Handler.

Inductive Response :=
  | StatusNotFound               (* 404, 摄像头不存在 *)
  | StatusServiceUnavailable     (* 503, 暂无画面 *)
  | StatusOK (body : bytes).     (* 200, image/jpeg *)

(** [GetSnapshot] for the camera id of the request: the response, and the
    registry after the call. *)
Definition GetSnapshot (cameraID : string) (now : Z)
    (sched : list (Z * Capture.Action))
    (capturers : gmap string Capture.Capturer)
  : Response * gmap string Capture.Capturer :=
  match Capture.GetCapturer cameraID capturers with
  | (Some capturer, _) =>
      let '((frame, err), _, capturer') :=
        Capture.GetFrame now sched capturer in
      (match err, frame with
       | None, Some frame => StatusOK frame
       | _, _ => StatusServiceUnavailable
       end,
       <[cameraID := capturer']> capturers)
  | (None, _) => (StatusNotFound, capturers)
  end.

End Handler.

(** * Predicates and sample states

    What the properties below are stated with: the shape of a frame cut,
    the invariant of a capturer and its parts, the schedules on which
    [GetFrame] times out, the invariants of the managers and of the
    monitor, and the concrete states the properties are tried on. *)

Section Predicates.
Import Capture.


(** The frame of one pass: what [nextFrame] cuts out of the buffer. *)
Definition cutsFrame (frameBuffer frame rest : bytes) : Prop :=
  ∃ pre body,
    frameBuffer = pre ++ frame ++ rest
    ∧ frame = jpegStart ++ body ++ jpegEnd
    ∧ findBytes frameBuffer jpegStart = len pre.

(** The buffer that each read of a stream leaves behind is within the
    ceiling at which [readMJPEGStream] cuts it. *)
Fixpoint withinCeiling (frameBuffer : bytes) (chunks : list bytes) : Prop :=
  match chunks with
  | [] => True
  | chunk :: chunks =>
      len (parseFrames (frameBuffer ++ chunk)).2 ≤ maxFrameBuffer
      ∧ withinCeiling (parseFrames (frameBuffer ++ chunk)).2 chunks
  end.

(** A channel operation applied to a list of channels, last first. *)
Definition applyAll (op : Chan → Chan * bool) (refs : list nat)
    (c : Capturer) : Capturer :=
  foldr (onChan op) c refs.

(** The channels a table refers to. *)
Definition tableRefs (t : gmap string nat) : list nat := (map_to_list t).*2.

Definition tableInj (t : gmap string nat) : Prop :=
  ∀ id1 id2 ref, t !! id1 = Some ref → t !! id2 = Some ref → id1 = id2.

(** What [onChan] leaves alone. *)
Definition sameRest (c c' : Capturer) : Prop :=
  configID c' = configID c ∧ audioEnabled c' = audioEnabled c
  ∧ running c' = running c ∧ cmd c' = cmd c ∧ procs c' = procs c
  ∧ lastFrame c' = lastFrame c
  ∧ frameSubscribers c' = frameSubscribers c
  ∧ audioSubscribers c' = audioSubscribers c
  ∧ length (chans c') = length (chans c).

(** Deleting the keys of a list of entries. *)
Definition deleteAll (l : list (string * nat)) (t : gmap string nat)
  : gmap string nat :=
  foldr (λ p acc, delete p.1 acc) t l.

(** Every table entry refers to a channel of its own that is open, no
    channel was closed twice, and nothing has panicked. *)
Record wf (c : Capturer) : Prop := mkWf {
  wf_frame_inj : tableInj (frameSubscribers c);
  wf_audio_inj : tableInj (audioSubscribers c);
  wf_disjoint : ∀ id1 id2 ref,
    frameSubscribers c !! id1 = Some ref →
    audioSubscribers c !! id2 ≠ Some ref;
  wf_frame_open : ∀ id ref,
    frameSubscribers c !! id = Some ref →
    ∃ ch, chans c !! ref = Some ch ∧ closes ch = 0%nat;
  wf_audio_open : ∀ id ref,
    audioSubscribers c !! id = Some ref →
    ∃ ch, chans c !! ref = Some ch ∧ closes ch = 0%nat;
  wf_closes : ∀ ref ch, chans c !! ref = Some ch → (closes ch ≤ 1)%nat;
  wf_panicked : panicked c = false;
}.

(** An operation that keeps a channel as closed as it was and does not
    panic on it. *)
Definition benign (op : Chan → Chan * bool) (ch : Chan) : Prop :=
  closes (op ch).1 = closes ch ∧ (op ch).2 = false.

(** A queue has some capacity and never holds more than it. *)
Definition sized (ch : Chan) : Prop :=
  (length (buf ch) ≤ cap ch)%nat ∧ cap ch ≠ 0%nat.

Definition allSized (c : Capturer) : Prop :=
  ∀ r ch, chans c !! r = Some ch → sized ch.

(** The steps of other goroutines that neither put a frame into a frame
    queue nor close one. *)
Definition quietAction (a : Action) : bool :=
  match a with
  | AStop | ACloseFrames | AUnsubscribeFrames _ | AEmitFrame _ => false
  | _ => true
  end.




(** The queue [GetFrame] waits on is still empty and open, and is not an
    audio queue. *)
Definition waiting (ref : nat) (c : Capturer) : Prop :=
  chans c !! ref = Some (makeChan frameQueueSize)
  ∧ ∀ sid, audioSubscribers c !! sid ≠ Some ref.


(** Every streamer of the push-stream manager belongs to a registered
    camera. *)
Definition streamersRegistered (m : Rtmp.Manager) : Prop :=
  ∀ id s, Rtmp.streamers m !! id = Some s → is_Some (Rtmp.cameras m !! id).

(** The pattern lies in the data at index [j]. *)
Definition occursAt (data pattern : bytes) (j : Z) : Prop :=
  ∃ pre post, data = pre ++ pattern ++ post ∧ len pre = j.

(** The frames a run of steps has emitted, oldest first. *)
Fixpoint emitted (acts : list Action) : list bytes :=
  match acts with
  | [] => []
  | AEmitFrame frame :: acts => frame :: emitted acts
  | _ :: acts => emitted acts
  end.

(** The steps over which a [GetFrame] that waits under [sid] keeps
    waiting on its subscription: all but an emitted frame, a [Stop], which
    closes the frame queues, and a subscription or an unsubscription under
    the same id, which takes over the table entry or removes it. *)
Definition keepsWaiting (sid : string) (a : Action) : bool :=
  match a with
  | AStop | ACloseFrames | AEmitFrame _ => false
  | ASubscribeFrames id | AUnsubscribeFrames id => negb (bool_decide (id = sid))
  | _ => true
  end.

(** The steps that close the queue of the frame subscription [sid]: a
    [Stop], as a whole or at its section for the frame queues, and an
    unsubscription under [sid]. *)
Definition closesQueue (sid : string) (a : Action) : bool :=
  match a with
  | AStop | ACloseFrames => true
  | AUnsubscribeFrames id => bool_decide (id = sid)
  | _ => false
  end.

(** A channel that neither table refers to. *)
Definition untabled (ref : nat) (c : Capturer) : Prop :=
  (∀ sid, frameSubscribers c !! sid ≠ Some ref)
  ∧ (∀ sid, audioSubscribers c !! sid ≠ Some ref).

(** The camera is enabled and configured under [id]. *)
Definition enabledAs (id : string) (cam : Config.CameraConfig) : bool :=
  Config.Enabled cam && bool_decide (Config.ID cam = id).

(** The steps that are a whole call or a whole event: [Stop] as one step
    rather than its sections one by one. *)
Definition wholeCall (a : Action) : bool :=
  match a with
  | ACloseFrames | ACloseAudio | AStopped => false
  | _ => true
  end.

(** The process count agrees with [cmd], whose command is one that was
    started, and a stopped capturer has no process. *)
Definition processKept (c : Capturer) : Prop :=
  procs c = (if cmd c then 1 else 0)%nat
  ∧ (running c = false → cmd c = false)
  ∧ (cmd c = true → cmdProcess c = true).

(** The capturer has a process of its own: [c.cmd] is a command that was
    started. *)
Definition hasProcess (c : Capturer) : bool := cmd c && cmdProcess c.

(** One process when [cmd] holds a command that was started and none
    otherwise, and none for a stopped capturer. *)
Definition processTracked (c : Capturer) : Prop :=
  procs c = (if hasProcess c then 1 else 0)%nat
  ∧ (running c = false → hasProcess c = false).

(** The streamers of the push-stream manager that are running. *)
Definition runningStreamers (m : Rtmp.Manager) : gmap string Rtmp.Streamer :=
  filter (λ p, Rtmp.running p.2 = true) (Rtmp.streamers m).

(** One process for each running streamer, and a feed for each streamer. *)
Definition processesKept (m : Rtmp.Manager) : Prop :=
  Rtmp.procs m = size (runningStreamers m)
  ∧ Rtmp.frameFeeds m = dom (Rtmp.streamers m).

(** The outputs of the segmented-output manager that are running. *)
Definition runningOutputs (m : Stream.HLSOutputManager)
  : gmap string Stream.HLSOutput :=
  filter (λ p, Stream.running p.2 = true) (Stream.outputs m).

(** One process for each running output; every capturer is registered
    under the id of its camera, and every output under the id of its
    capturer. *)
Definition outputsKept (m : Stream.HLSOutputManager) : Prop :=
  Stream.procs m = size (runningOutputs m)
  ∧ (∀ id c, Stream.captureManager m !! id = Some c → configID c = id)
  ∧ (∀ id h, Stream.outputs m !! id = Some h → Stream.capturerID h = id).

(** What the reader of the queue [ref] takes from it in one step, and over
    a run of steps. *)
Definition taken (ref : nat) (c : Capturer) (a : Action) : option bytes :=
  match a with
  | AReceive r =>
      if decide (r = ref) then chans c !! ref ≫= (λ ch, head (buf ch))
      else None
  | _ => None
  end.

Fixpoint received (ref : nat) (c : Capturer) (acts : list Action)
  : list bytes :=
  match acts with
  | [] => []
  | a :: acts => option_list (taken ref c a) ++ received ref (step c a) acts
  end.

(** No audio subscription refers to the channel. *)
Definition notAudio (ref : nat) (c : Capturer) : Prop :=
  ∀ sid, audioSubscribers c !! sid ≠ Some ref.

(** The points a run of monitor events has collected, oldest first. *)
Fixpoint collected (evs : list Monitor.Event) : list Monitor.HistoryPoint :=
  match evs with
  | [] => []
  | Monitor.ECollect point :: evs => point :: collected evs
  | _ :: evs => collected evs
  end.

(** The alerts of one kind, memory ([true]) or goroutine ([false]), in a
    list of alert types. *)
Definition isMemory (t : Monitor.AlertType) : bool :=
  match t with
  | Monitor.Memory | Monitor.MemoryResolved => true
  | _ => false
  end.

Definition ownAlerts (kind : bool) (types : list Monitor.AlertType)
  : list Monitor.AlertType :=
  filter (λ t, isMemory t = kind) types.

Definition alertTypes (m : Monitor.Monitor) : list Monitor.AlertType :=
  Monitor.Type' <$> Monitor.alerts m.

(** No two neighbours are the same. *)
Fixpoint alternating (l : list Monitor.AlertType) : Prop :=
  match l with
  | [] => True
  | a :: rest =>
      match rest with [] => True | b :: _ => a ≠ b end ∧ alternating rest
  end.

(** The alerts of a kind alternate, and the flag of the kind is set when
    the last of them is the alert rather than its resolution. *)
Definition alertsKept (kind : bool) (on : Monitor.AlertType) (flag : bool)
    (types : list Monitor.AlertType) : Prop :=
  alternating (ownAlerts kind types)
  ∧ ∀ y, last (ownAlerts kind types) = Some y → (y = on ↔ flag = true).

Definition monitorKept (m : Monitor.Monitor) : Prop :=
  Monitor.alertsLimit m = 100
  ∧ len (Monitor.alerts m) ≤ 100
  ∧ alertsKept true Monitor.Memory (Monitor.lastMemAlert m) (alertTypes m)
  ∧ alertsKept false Monitor.Goroutine (Monitor.lastGoroutineAlert m)
      (alertTypes m)
  ∧ Forall (λ a, Monitor.Resolved a
                 = bool_decide (Monitor.Type' a = Monitor.MemoryResolved
                                ∨ Monitor.Type' a = Monitor.GoroutineResolved))
      (Monitor.alerts m).

(** The types of the alerts the monitor has logged, oldest first: all the
    alerts it has raised. *)
Definition loggedTypes (m : Monitor.Monitor) : list Monitor.AlertType :=
  Monitor.Type' <$> Monitor.logged m.

(** The alerts of a kind alternate, the first of them is the alert rather
    than its resolution, and the flag of the kind is set exactly when the
    last of them is the alert. *)
Definition raisedKept (kind : bool) (on : Monitor.AlertType) (flag : bool)
    (types : list Monitor.AlertType) : Prop :=
  alternating (ownAlerts kind types)
  ∧ (∀ y, head (ownAlerts kind types) = Some y → y = on)
  ∧ (flag = true ↔ last (ownAlerts kind types) = Some on).

(** The alerts held are the last hundred of the alerts logged. *)
Definition logKept (m : Monitor.Monitor) : Prop :=
  Monitor.alertsLimit m = 100
  ∧ Monitor.alerts m
    = drop (length (Monitor.logged m) - 100) (Monitor.logged m)
  ∧ raisedKept true Monitor.Memory (Monitor.lastMemAlert m) (loggedTypes m)
  ∧ raisedKept false Monitor.Goroutine (Monitor.lastGoroutineAlert m)
      (loggedTypes m).

(** Every setting that has a default is set, and a preview is enabled. *)
Definition filled (config : Config.Settings) : Prop :=
  Config.Host (Config.Server config) ≠ EmptyString
  ∧ Config.Port (Config.Server config) ≠ 0
  ∧ Forall (λ a, Config.SampleRate a ≠ 0 ∧ Config.Channels a ≠ 0)
      (Config.CamerasAudio config)
  ∧ Config.Path (Config.Storage config) ≠ EmptyString
  ∧ Config.SegmentDuration (Config.Storage config) ≠ EmptyString
  ∧ Config.RetentionDays (Config.Storage config) ≠ 0
  ∧ Config.Format (Config.Storage config) ≠ EmptyString
  ∧ Config.HLSSegmentDuration (Config.Stream config) ≠ 0
  ∧ Config.HLSPlaylistLength (Config.Stream config) ≠ 0
  ∧ Config.TempPath (Config.Stream config) ≠ EmptyString
  ∧ (Config.MJPEGEnabled (Config.Preview config)
     || Config.WebRTCEnabled (Config.Preview config)) = true
  ∧ Config.MJPEGPort (Config.Preview config) ≠ 0
  ∧ Config.MJPEGQuality (Config.Preview config) ≠ 0
  ∧ Config.WebRTCPort (Config.Preview config) ≠ 0
  ∧ Config.STUNServer (Config.Preview config) ≠ [].

(** The frames a run of feed events takes out of the queue, and the number
    of failure lines and of suppression notices in a log. *)
Fixpoint offered (evs : list RtmpStreamer.FeedEvent) : list bytes :=
  match evs with
  | [] => []
  | RtmpStreamer.EFrame _ _ frame _ :: evs => frame :: offered evs
  | _ :: evs => offered evs
  end.

Definition failuresLogged (logs : list RtmpStreamer.LogLine) : Z :=
  len (filter (λ l, l = RtmpStreamer.LogWriteFailed) logs).

Definition noticesLogged (logs : list RtmpStreamer.LogLine) : Z :=
  len (filter (λ l, l = RtmpStreamer.LogSuppressed) logs).

(** After [k] passes: the counters are in range, the frame counter is the
    number of frames written, and the failure lines are at most three for
    each run of failures. *)
Definition feedKept (k : Z) (st : RtmpStreamer.Feed) : Prop :=
  0 ≤ RtmpStreamer.errCount st
  ∧ 0 ≤ RtmpStreamer.frameCount st
  ∧ RtmpStreamer.errCount st + RtmpStreamer.frameCount st ≤ k
  ∧ RtmpStreamer.frameCount st = len (RtmpStreamer.written st)
  ∧ failuresLogged (RtmpStreamer.logs st)
    ≤ 3 * len (RtmpStreamer.written st)
      + Z.min (RtmpStreamer.errCount st) 3
  ∧ noticesLogged (RtmpStreamer.logs st)
    ≤ len (RtmpStreamer.written st)
      + (if 3 <=? RtmpStreamer.errCount st then 1 else 0).

(** ** Sample states *)

(** Three cameras: one with audio, one without, one that is disabled. *)
Definition cam1 : Config.CameraConfig := Config.mkCameraConfig "cam1" true true.
Definition cam2 : Config.CameraConfig := Config.mkCameraConfig "cam2" true false.
Definition cam3 : Config.CameraConfig := Config.mkCameraConfig "cam3" false false.

(** Thirty-one frames and a hundred and one audio blocks, all different. *)
Definition sampleFrames : list (list byte) :=
  (λ n, [xff; xd8] ++ replicate n x00 ++ [xff; xd9]) <$> seq 0 31.

Definition sampleBlocks : list (list byte) :=
  (λ n, replicate (S n) x01) <$> seq 0 101.

(** A running capturer whose only frame subscriber has a full queue. *)
Definition fullFrameQueue : Capture.Capturer :=
  Capture.run (Capture.NewAVCapturer cam1)
    (Capture.AStart Capture.SpawnOk :: Capture.ASubscribeFrames "viewer"
     :: (Capture.AEmitFrame <$> take 30 sampleFrames)).

(** A running capturer whose only audio subscriber has a full queue. *)
Definition fullAudioQueue : Capture.Capturer :=
  Capture.run (Capture.NewAVCapturer cam1)
    (Capture.AStart Capture.SpawnOk :: Capture.ASubscribeAudio "listener"
     :: (Capture.ABroadcastAudio <$> take 100 sampleBlocks)).

(** A running capturer with two frame subscribers and an audio subscriber,
    one of the frame subscribers gone again. *)
Definition subscribedActions : list Capture.Action :=
  [Capture.AStart Capture.SpawnOk; Capture.ASubscribeFrames "viewer";
   Capture.ASubscribeAudio "listener"; Capture.ASubscribeFrames "snapshot";
   Capture.AEmitFrame [xff; xd8; x41; xff; xd9];
   Capture.AUnsubscribeFrames "snapshot"].

(** A capturer that was stopped after it had cached a frame. *)
Definition stoppedWithFrame : Capture.Capturer :=
  Capture.run (Capture.NewAVCapturer cam2)
    [Capture.AStart Capture.SpawnOk;
     Capture.AEmitFrame [xff; xd8; x41; xff; xd9]; Capture.AStop].

(** A capture registry with one running capturer and one that was never
    started, and the two managers over it with both cameras registered. *)
Definition sampleCapturers : gmap string Capture.Capturer :=
  {[ "cam1" := (Capture.Start Capture.SpawnOk
                  (Capture.NewAVCapturer cam1)).2;
     "cam2" := Capture.NewAVCapturer cam2 ]}.

(** The registry after a [StartAll] that failed at the second capturer,
    for which ffmpeg could not be started. *)
Definition failedCapturers : gmap string Capture.Capturer :=
  {[ "cam1" := (Capture.Start Capture.SpawnOk
                  (Capture.NewAVCapturer cam1)).2;
     "cam2" := (Capture.Start Capture.SpawnFails
                  (Capture.NewAVCapturer cam2)).2 ]}.

Definition sampleCameras : list Config.CameraConfig :=
  [cam1; cam2; cam3].

Definition sampleRtmp : Rtmp.Manager :=
  Rtmp.NewManager sampleCapturers sampleCameras.

Definition sampleHls : Stream.HLSOutputManager :=
  Stream.NewHLSOutputManager sampleCapturers sampleCameras.

(** A capturer whose first start failed at ffmpeg, that was then started,
    lost its process and was stopped, and whose next start failed again. *)
Definition failedStartActions : list Capture.Action :=
  [Capture.AStart Capture.SpawnFails; Capture.AStart Capture.SpawnOk;
   Capture.ASubscribeFrames "viewer"; Capture.AStopCapture; Capture.AStop;
   Capture.AStart Capture.PipeFails; Capture.AStart Capture.SpawnFails].

(** A capturer that emitted a frame, was stopped and was started again. *)
Definition restartedActions : list Capture.Action :=
  [Capture.AStart Capture.SpawnOk;
   Capture.AEmitFrame [xff; xd8; x41; xff; xd9];
   Capture.AStop; Capture.AStart Capture.SpawnOk].

End Predicates.

(** * Properties *)

(** ** The subscriber count of the RTP bridge *)

Section SubscriberCount.
Import Webrtc.

Lemma wrapInt_id z : - 2 ^ 63 ≤ z < 2 ^ 63 → wrapInt z = z.
Proof.
  intros Hz. unfold wrapInt.
  rewrite Z.mod_small by lia. lia.
Qed.

Lemma adds_cons k ks :
  adds (k :: ks) = (if decide (k = Add) then 1 else 0) + adds ks.
Proof.
  unfold adds, len. rewrite filter_cons.
  destruct (decide (k = Add)); simpl length; lia.
Qed.

Lemma removes_cons k ks :
  removes (k :: ks) = (if decide (k = Remove) then 1 else 0) + removes ks.
Proof.
  unfold removes, len. rewrite filter_cons.
  destruct (decide (k = Remove)); simpl length; lia.
Qed.

(** As long as the counter stays inside the range of [int], a run of
    calls moves it by the adds minus the removes. *)
Lemma doOps_subscribers ks : ∀ f,
  - 2 ^ 63 ≤ subscribers f - len ks →
  subscribers f + len ks < 2 ^ 63 →
  subscribers (doOps f ks) = subscribers f + adds ks - removes ks.
Proof.
  induction ks as [|k ks IH]; intros f Hlo Hhi.
  - unfold adds, removes, len. simpl. lia.
  - unfold doOps in *. simpl foldl.
    rewrite adds_cons, removes_cons.
    unfold len in Hlo, Hhi. simpl length in Hlo, Hhi.
    destruct k; simpl doOp.
    + rewrite IH; simpl subscribers; rewrite wrapInt_id by lia;
        unfold len; repeat case_decide; try congruence; lia.
    + rewrite IH; simpl subscribers; rewrite wrapInt_id by lia;
        unfold len; repeat case_decide; try congruence; lia.
Qed.

Lemma counts_lookup ks : ∀ f i,
  (i < length ks)%nat →
  counts f ks !! i = Some (GetSubscriberCount (doOps f (take (S i) ks))).
Proof.
  induction ks as [|k ks IH]; intros f i Hi; simpl in Hi; [lia|].
  destruct i as [|i]; simpl.
  - reflexivity.
  - rewrite IH by lia. done.
Qed.

Lemma counts_length ks : ∀ f, length (counts f ks) = length ks.
Proof. induction ks; intros; simpl; auto. Qed.

End SubscriberCount.

(** C3, as the code has it. For every sequence of fewer than 2^63
    AddSubscriber/RemoveSubscriber calls on a fresh forwarder, the count
    after the calls is the number of adds minus the number of removes, and
    so is the count read after each call; RemoveSubscriber returns the
    count it leaves; the count is never negative when no prefix of the
    sequence has more removes than adds; and add, add, remove, remove
    reads 1, 2, 1, 0. *)
Theorem subscriber_count_tracks_calls (id : string) (ks : list Webrtc.Op) :
  len ks < 2 ^ 63 →
  Webrtc.GetSubscriberCount (Webrtc.doOps (Webrtc.NewRTPForwarder id) ks)
    = Webrtc.adds ks - Webrtc.removes ks
  ∧ (∀ i, (i < length ks)%nat →
       Webrtc.counts (Webrtc.NewRTPForwarder id) ks !! i
       = Some (Webrtc.adds (take (S i) ks) - Webrtc.removes (take (S i) ks)))
  ∧ (∀ f, fst (Webrtc.RemoveSubscriber f)
          = Webrtc.GetSubscriberCount (snd (Webrtc.RemoveSubscriber f)))
  ∧ ((∀ n, Webrtc.removes (take n ks) ≤ Webrtc.adds (take n ks)) →
     Forall (λ n, 0 ≤ n) (Webrtc.counts (Webrtc.NewRTPForwarder id) ks))
  ∧ Webrtc.counts (Webrtc.NewRTPForwarder id)
      [Webrtc.Add; Webrtc.Add; Webrtc.Remove; Webrtc.Remove] = [1; 2; 1; 0].
Proof.
  intros Hlen.
  assert (Hprefix : ∀ n,
    Webrtc.GetSubscriberCount
      (Webrtc.doOps (Webrtc.NewRTPForwarder id) (take n ks))
    = Webrtc.adds (take n ks) - Webrtc.removes (take n ks)).
  { intros n. unfold Webrtc.GetSubscriberCount.
    assert (len (take n ks) ≤ len ks).
    { unfold len. rewrite length_take. lia. }
    rewrite doOps_subscribers; simpl; lia. }
  split; [|split; [|split; [|split]]].
  - specialize (Hprefix (length ks)). by rewrite firstn_all in Hprefix.
  - intros i Hi. rewrite counts_lookup by done. by rewrite Hprefix.
  - done.
  - intros Hbal. apply Forall_lookup. intros i n Hi.
    assert (i < length ks)%nat as Hlt.
    { apply lookup_lt_Some in Hi. by rewrite counts_length in Hi. }
    rewrite counts_lookup in Hi by done. injection Hi as <-.
    rewrite Hprefix. specialize (Hbal (S i)). lia.
  - reflexivity.
Qed.

Lemma subscriber_count_tracks_calls_witness :
  len [Webrtc.Add; Webrtc.Remove; Webrtc.Add] < 2 ^ 63
  ∧ Webrtc.GetSubscriberCount
      (Webrtc.doOps (Webrtc.NewRTPForwarder "cam1")
         [Webrtc.Add; Webrtc.Remove; Webrtc.Add]) = 1.
Proof.
  assert (H : len [Webrtc.Add; Webrtc.Remove; Webrtc.Add] < 2 ^ 63)
    by (vm_compute; reflexivity).
  split; [exact H|].
  exact (proj1 (subscriber_count_tracks_calls "cam1"
                  [Webrtc.Add; Webrtc.Remove; Webrtc.Add] H)).
Defined.

(** C3 as stated fails: RemoveSubscriber on a fresh forwarder returns -1
    and leaves the count negative. *)
Lemma subscriber_count_goes_negative :
  fst (Webrtc.RemoveSubscriber (Webrtc.NewRTPForwarder "cam1")) = -1
  ∧ ¬ Forall (λ n, 0 ≤ n)
        (Webrtc.counts (Webrtc.NewRTPForwarder "cam1") [Webrtc.Remove]).
Proof.
  split; [reflexivity|].
  intros H. apply Forall_cons in H as [H _]. vm_compute in H. by apply H.
Qed.

(** ** The video demux *)

Section Demux.
Import Capture.

Lemma len_app {A} (l k : list A) : len (l ++ k) = len l + len k.
Proof. unfold len. rewrite length_app. lia. Qed.

Lemma matchAt_prefix pattern : ∀ data,
  matchAt data pattern = true → ∃ post, data = pattern ++ post.
Proof.
  induction pattern as [|p ps IH]; intros data H.
  - by exists data.
  - destruct data as [|d ds]; simpl in H; [done|].
    apply andb_true_iff in H as [Hd Hds].
    apply byte_dec_bl in Hd as ->.
    destruct (IH _ Hds) as [post ->]. by exists post.
Qed.

(** A hit of the outer loop is at an index where the pattern lies. *)
Lemma findFrom_found pattern data : ∀ i k,
  findFrom i data pattern = k → k ≠ -1 → 0 ≤ i →
  ∃ pre post, data = pre ++ pattern ++ post ∧ k = i + len pre.
Proof.
  induction data as [|d ds IH]; intros i k Hk Hne Hi;
    cbn [findFrom] in Hk.
  - destruct (len [] <? len pattern); [lia|].
    destruct (matchAt [] pattern) eqn:Hm; [|lia].
    apply matchAt_prefix in Hm as [post Hpost].
    exists [], post. split; [done|]. unfold len. simpl. lia.
  - destruct (len (d :: ds) <? len pattern); [lia|].
    destruct (matchAt (d :: ds) pattern) eqn:Hm.
    + apply matchAt_prefix in Hm as [post Hpost].
      exists [], post. split; [done|]. unfold len. simpl. lia.
    + destruct (IH (i + 1) k Hk Hne ltac:(lia)) as (pre & post & -> & ->).
      exists (d :: pre), post. split; [done|].
      unfold len. simpl length. lia.
Qed.

Lemma findBytes_found data pattern k :
  findBytes data pattern = k → k ≠ -1 →
  ∃ pre post, data = pre ++ pattern ++ post ∧ k = len pre.
Proof.
  unfold findBytes. intros Hk Hne.
  destruct ((len pattern =? 0) || (len data <? len pattern)); [lia|].
  destruct (findFrom_found _ _ _ _ Hk Hne ltac:(lia)) as (pre & post & ? & ?).
  exists pre, post. split; [done|lia].
Qed.

Lemma sliceFrom_app {A} (pre post : list A) :
  sliceFrom (len pre) (pre ++ post) = post.
Proof.
  unfold sliceFrom, len. rewrite Nat2Z.id. by rewrite drop_app_length.
Qed.

Lemma sliceFrom_app2 {A} (pre mid post : list A) :
  sliceFrom (len pre + len mid) (pre ++ mid ++ post) = post.
Proof.
  rewrite <- len_app, app_assoc. apply sliceFrom_app.
Qed.

Lemma slice_app {A} (pre mid post : list A) :
  slice (len pre) (len pre + len mid) (pre ++ mid ++ post) = mid.
Proof.
  unfold slice. fold (sliceFrom (len pre) (pre ++ mid ++ post)).
  rewrite sliceFrom_app.
  replace (Z.to_nat (len pre + len mid - len pre)) with (length mid)
    by (unfold len; lia).
  by rewrite take_app_length.
Qed.

Lemma nextFrame_cuts frameBuffer frame rest :
  nextFrame frameBuffer = Some (frame, rest) →
  cutsFrame frameBuffer frame rest.
Proof.
  unfold nextFrame. intros H.
  destruct (findBytes frameBuffer jpegStart =? -1) eqn:Hs; [done|].
  apply Z.eqb_neq in Hs.
  destruct (findBytes_found _ _ _ eq_refl Hs) as (pre & post & Hfb & Hpre).
  rewrite Hpre in H. rewrite Hfb in H.
  rewrite sliceFrom_app in H.
  destruct (findBytes (jpegStart ++ post) jpegEnd =? -1) eqn:He; [done|].
  apply Z.eqb_neq in He.
  destruct (findBytes_found _ _ _ eq_refl He) as (pre2 & post2 & Hsl & Hpre2).
  rewrite Hpre2 in H.
  assert (∃ body, pre2 = jpegStart ++ body) as [body ->].
  { destruct pre2 as [|a [|b body]]; simpl in Hsl.
    - discriminate Hsl.
    - discriminate Hsl.
    - injection Hsl as <- <- _. by exists body. }
  exists pre, body.
  assert (post = body ++ jpegEnd ++ post2) as ->.
  { rewrite <- app_assoc in Hsl. by apply app_inv_head in Hsl. }
  replace (len (jpegStart ++ body) + (len pre + 2))
    with (len pre + len (jpegStart ++ body ++ jpegEnd)) in H
    by (rewrite !len_app; unfold len; simpl; lia).
  replace (jpegStart ++ body ++ jpegEnd ++ post2)
    with ((jpegStart ++ body ++ jpegEnd) ++ post2) in H, Hfb
    by (by rewrite <- !app_assoc).
  rewrite slice_app, sliceFrom_app2 in H.
  injection H as <- <-.
  split; [done|]. split; [done|]. congruence.
Qed.

Lemma nextFrame_shrinks frameBuffer frame rest :
  nextFrame frameBuffer = Some (frame, rest) →
  (length rest < length frameBuffer)%nat.
Proof.
  intros H. apply nextFrame_cuts in H as (pre & body & -> & -> & _).
  rewrite !length_app. simpl. lia.
Qed.

Lemma nextFrame_nil : nextFrame [] = None.
Proof. reflexivity. Qed.

(** The bound on the passes is never the reason the loop ends. *)
Lemma parseLoop_enough n : ∀ m frameBuffer,
  (length frameBuffer ≤ n)%nat → (length frameBuffer ≤ m)%nat →
  parseLoop n frameBuffer = parseLoop m frameBuffer.
Proof.
  induction n as [|n IH]; intros m fb Hn Hm.
  - destruct fb; [|simpl in Hn; lia].
    destruct m; [done|]. cbn [parseLoop]. by rewrite nextFrame_nil.
  - destruct m as [|m].
    + destruct fb; [|simpl in Hm; lia].
      cbn [parseLoop]. by rewrite nextFrame_nil.
    + cbn [parseLoop]. destruct (nextFrame fb) as [[frame rest]|] eqn:Hnext; [|done].
      apply nextFrame_shrinks in Hnext.
      rewrite (IH m rest) by lia. done.
Qed.

Lemma parseFrames_unfold frameBuffer :
  parseFrames frameBuffer =
    match nextFrame frameBuffer with
    | None => ([], frameBuffer)
    | Some (frame, rest) =>
        (frame :: fst (parseFrames rest), snd (parseFrames rest))
    end.
Proof.
  unfold parseFrames. destruct frameBuffer as [|b fb]; [done|].
  simpl length. cbn [parseLoop].
  destruct (nextFrame (b :: fb)) as [[frame rest]|] eqn:Hnext; [|done].
  apply nextFrame_shrinks in Hnext. simpl in Hnext.
  rewrite (parseLoop_enough (length fb) (length rest) rest) by lia.
  by destruct (parseLoop (length rest) rest).
Qed.

Lemma parseFrames_done frameBuffer :
  nextFrame (snd (parseFrames frameBuffer)) = None.
Proof.
  remember (length frameBuffer) as n eqn:Hn.
  revert frameBuffer Hn.
  induction n as [n IH] using lt_wf_ind. intros fb ->.
  rewrite parseFrames_unfold.
  destruct (nextFrame fb) as [[frame rest]|] eqn:Hnext; [|done].
  simpl. eapply IH; [|done]. by apply nextFrame_shrinks in Hnext.
Qed.

Lemma truncateBuffer_len b :
  len (truncateBuffer b)
  = if maxFrameBuffer <? len b then keepFrameBuffer else len b.
Proof.
  unfold truncateBuffer.
  destruct (maxFrameBuffer <? len b) eqn:Hb; [|done].
  apply Z.ltb_lt in Hb. unfold sliceFrom, len in *.
  rewrite length_drop. unfold maxFrameBuffer, keepFrameBuffer in *. lia.
Qed.

Lemma truncateBuffer_bound b : len (truncateBuffer b) ≤ maxFrameBuffer.
Proof.
  rewrite truncateBuffer_len.
  destruct (maxFrameBuffer <? len b) eqn:Hb.
  - unfold maxFrameBuffer, keepFrameBuffer. lia.
  - by apply Z.ltb_ge in Hb.
Qed.

Lemma truncateBuffer_suffix b : truncateBuffer b `suffix_of` b.
Proof.
  unfold truncateBuffer, sliceFrom.
  destruct (maxFrameBuffer <? len b); [apply suffix_drop|done].
Qed.

Lemma demuxChunk_buffer frameBuffer chunk :
  snd (demuxChunk frameBuffer chunk)
  = truncateBuffer (snd (parseFrames (frameBuffer ++ chunk))).
Proof.
  unfold demuxChunk. by destruct (parseFrames (frameBuffer ++ chunk)).
Qed.

Lemma demuxStream_bound chunks : ∀ frameBuffer,
  len frameBuffer ≤ maxFrameBuffer →
  len (snd (demuxStream frameBuffer chunks)) ≤ maxFrameBuffer.
Proof.
  induction chunks as [|chunk chunks IH]; intros fb Hfb; [done|].
  simpl. pose proof (demuxChunk_buffer fb chunk) as Hb.
  destruct (demuxChunk fb chunk) as [frames fb1]. simpl in Hb.
  specialize (IH fb1). destruct (demuxStream fb1 chunks) as [more fb2].
  simpl in *. apply IH. rewrite Hb. apply truncateBuffer_bound.
Qed.

End Demux.


(** C5. Whatever the stream holds, the working buffer left by the
    processing of a read is at most 2MB long: it is the buffer left by the
    scan when that is at most 2MB long, and its last 1MB otherwise; when
    the buffer holds no marker pair the scan leaves all of it and emits
    nothing. So the buffer is at most 2MB long after every read of a
    stream. *)
Theorem demux_buffer_bounded (frameBuffer chunk : list byte)
    (chunks : list (list byte)) :
  let scanned := snd (Capture.parseFrames (frameBuffer ++ chunk)) in
  let kept := snd (Capture.demuxChunk frameBuffer chunk) in
  len kept ≤ Capture.maxFrameBuffer
  ∧ kept `suffix_of` scanned
  ∧ len kept = (if Capture.maxFrameBuffer <? len scanned
                then Capture.keepFrameBuffer else len scanned)
  ∧ match Capture.nextFrame (frameBuffer ++ chunk) with
    | None => Capture.demuxChunk frameBuffer chunk
              = ([], Capture.truncateBuffer (frameBuffer ++ chunk))
    | Some _ => True
    end
  ∧ len (snd (Capture.demuxStream [] chunks)) ≤ Capture.maxFrameBuffer
  ∧ Capture.maxFrameBuffer = 2 * 1024 * 1024
  ∧ Capture.keepFrameBuffer = 1024 * 1024.
Proof.
  intros scanned kept. subst scanned kept.
  rewrite demuxChunk_buffer.
  split; [apply truncateBuffer_bound|].
  split; [apply truncateBuffer_suffix|].
  split; [apply truncateBuffer_len|].
  split; [|split; [|done]].
  - unfold Capture.demuxChunk. rewrite parseFrames_unfold.
    by destruct (Capture.nextFrame (frameBuffer ++ chunk)) as [[? ?]|].
  - apply demuxStream_bound. unfold len, Capture.maxFrameBuffer. simpl. lia.
Qed.

(** ** Subscriber tables and their channels *)

Section Tables.
Import Capture.

Lemma elem_of_tableRefs t ref :
  ref ∈ tableRefs t ↔ ∃ id, t !! id = Some ref.
Proof.
  unfold tableRefs. rewrite list_elem_of_fmap. split.
  - intros [[id r] [-> Hin]]. exists id. by apply elem_of_map_to_list.
  - intros [id Hid]. exists (id, ref). split; [done|].
    by apply elem_of_map_to_list.
Qed.

Lemma NoDup_tableRefs t : tableInj t → NoDup (tableRefs t).
Proof.
  intros Hinj. unfold tableRefs.
  apply NoDup_fmap_2_strong; [|apply NoDup_map_to_list].
  intros [id1 r1] [id2 r2] H1 H2 Heq. simpl in Heq. subst r2.
  apply elem_of_map_to_list in H1, H2.
  by rewrite (Hinj id1 id2 r1 H1 H2).
Qed.

Lemma onChan_chans op ref c r :
  chans (onChan op ref c) !! r
  = if decide (r = ref) then (λ ch, (op ch).1) <$> chans c !! r
    else chans c !! r.
Proof.
  unfold onChan. destruct (chans c !! ref) as [ch|] eqn:Hch.
  - destruct (op ch) as [ch' p] eqn:Hop. simpl.
    case_decide as Hr.
    + subst r. rewrite list_lookup_insert_eq
        by (by apply lookup_lt_Some in Hch).
      by rewrite Hch; simpl; rewrite Hop.
    + by rewrite list_lookup_insert_ne.
  - case_decide as Hr; [|done]. subst r. by rewrite Hch.
Qed.

Lemma onChan_panicked op ref c :
  panicked (onChan op ref c)
  = panicked c || from_option (λ ch, (op ch).2) false (chans c !! ref).
Proof.
  unfold onChan. destruct (chans c !! ref) as [ch|]; simpl.
  - by destruct (op ch).
  - by rewrite orb_false_r.
Qed.

Lemma onChan_length op ref c :
  length (chans (onChan op ref c)) = length (chans c).
Proof.
  unfold onChan. destruct (chans c !! ref) as [ch|]; [|done].
  destruct (op ch). simpl. apply length_insert.
Qed.

Lemma sameRest_refl c : sameRest c c.
Proof. by repeat split. Qed.

Lemma sameRest_trans c1 c2 c3 :
  sameRest c1 c2 → sameRest c2 c3 → sameRest c1 c3.
Proof.
  unfold sameRest. intros (?&?&?&?&?&?&?&?&?) (?&?&?&?&?&?&?&?&?).
  repeat split; congruence.
Qed.

Lemma onChan_sameRest op ref c : sameRest c (onChan op ref c).
Proof.
  unfold sameRest. rewrite onChan_length. unfold onChan.
  destruct (chans c !! ref) as [ch|]; [|by repeat split].
  destruct (op ch). by repeat split.
Qed.

Lemma applyAll_sameRest op refs c : sameRest c (applyAll op refs c).
Proof.
  induction refs as [|r refs IH]; [apply sameRest_refl|].
  simpl. eapply sameRest_trans; [exact IH|apply onChan_sameRest].
Qed.

(** Each channel of the list gets the operation once, the others none. *)
Lemma applyAll_chans op refs c r :
  NoDup refs →
  chans (applyAll op refs c) !! r
  = if decide (r ∈ refs) then (λ ch, (op ch).1) <$> chans c !! r
    else chans c !! r.
Proof.
  induction refs as [|r0 refs IH]; intros Hnd; cbn [applyAll foldr].
  - case_decide as Hin; [by apply elem_of_nil in Hin|done].
  - apply NoDup_cons in Hnd as [Hr0 Hnd]. fold (applyAll op refs c).
    rewrite onChan_chans, IH by done.
    destruct (decide (r = r0)) as [->|Hne].
    + rewrite (decide_False (P := r0 ∈ refs)) by done.
      by rewrite decide_True by apply list_elem_of_here.
    + destruct (decide (r ∈ refs)) as [Hin|Hin].
      * by rewrite decide_True by (by apply list_elem_of_further).
      * rewrite decide_False; [done|].
        by intros [?|?]%elem_of_cons.
Qed.

Lemma applyAll_panicked op refs c :
  NoDup refs →
  panicked (applyAll op refs c) = true ↔
    panicked c = true
    ∨ ∃ r ch, r ∈ refs ∧ chans c !! r = Some ch ∧ (op ch).2 = true.
Proof.
  induction refs as [|r0 refs IH]; intros Hnd; cbn [applyAll foldr].
  - split; [by left|]. intros [?|(r & ch & Hin & _)]; [done|].
    by apply elem_of_nil in Hin.
  - apply NoDup_cons in Hnd as [Hr0 Hnd]. fold (applyAll op refs c).
    rewrite onChan_panicked, orb_true_iff. rewrite (IH Hnd).
    rewrite applyAll_chans by done.
    case_decide as Hin; [done|].
    split.
    + intros [[?|(r & ch & Hr & Hch & Hop)]|Hop]; [by left|..].
      * right. exists r, ch. split; [by apply list_elem_of_further|done].
      * right. destruct (chans c !! r0) as [ch|] eqn:Hch; [|done].
        exists r0, ch. split; [apply list_elem_of_here|done].
    + intros [?|(r & ch & Hr & Hch & Hop)]; [by left; left|].
      apply elem_of_cons in Hr as [->|Hr].
      * right. by rewrite Hch.
      * left. right. by exists r, ch.
Qed.

Lemma foldr_table_applyAll op c (l : list (string * nat)) :
  foldr (uncurry (λ (_ : string) ref acc, onChan op ref acc)) c l
  = applyAll op (l.*2) c.
Proof.
  induction l as [|[id r] l IH]; [done|]. simpl. by rewrite IH.
Qed.

Lemma broadcastFrame_applyAll frame c :
  broadcastFrame frame c
  = applyAll (sendDropOldest frame) (tableRefs (frameSubscribers c)) c.
Proof.
  unfold broadcastFrame. rewrite map_fold_foldr.
  apply foldr_table_applyAll.
Qed.

Lemma broadcastAudio_applyAll audio c :
  broadcastAudio audio c
  = applyAll (sendOrDrop audio) (tableRefs (audioSubscribers c)) c.
Proof.
  unfold broadcastAudio. rewrite map_fold_foldr.
  apply foldr_table_applyAll.
Qed.

Lemma onChan_setFrameSubscribers op ref t c :
  onChan op ref (setFrameSubscribers t c)
  = setFrameSubscribers t (onChan op ref c).
Proof.
  unfold onChan. simpl. destruct (chans c !! ref) as [ch|]; [|done].
  by destruct (op ch).
Qed.

Lemma onChan_setAudioSubscribers op ref t c :
  onChan op ref (setAudioSubscribers t c)
  = setAudioSubscribers t (onChan op ref c).
Proof.
  unfold onChan. simpl. destruct (chans c !! ref) as [ch|]; [|done].
  by destruct (op ch).
Qed.

Lemma deleteAll_lookup l t k :
  deleteAll l t !! k = if decide (k ∈ l.*1) then None else t !! k.
Proof.
  induction l as [|[id r] l IH]; cbn [deleteAll foldr].
  - case_decide as Hin; [by apply elem_of_nil in Hin|done].
  - fold (deleteAll l t). rewrite lookup_delete, IH. cbn [fst fmap list_fmap].
    destruct (decide (id = k)) as [->|Hne].
    + by rewrite decide_True by apply list_elem_of_here.
    + destruct (decide (k ∈ l.*1)) as [Hin|Hin].
      * by rewrite decide_True by (by apply list_elem_of_further).
      * rewrite decide_False; [done|].
        intros [?|?]%elem_of_cons; [congruence|done].
Qed.

Lemma deleteAll_all t : deleteAll (map_to_list t) t = ∅.
Proof.
  apply map_eq. intros k. rewrite deleteAll_lookup, lookup_empty.
  case_decide as Hin; [done|].
  destruct (t !! k) as [r|] eqn:Hk; [|done].
  exfalso. apply Hin. apply list_elem_of_fmap. exists (k, r).
  split; [done|]. by apply elem_of_map_to_list.
Qed.

Lemma closeFrames_foldr c0 (l : list (string * nat)) :
  foldr (uncurry (λ id ref acc,
           setFrameSubscribers (delete id (frameSubscribers acc))
             (onChan chanClose ref acc))) c0 l
  = setFrameSubscribers (deleteAll l (frameSubscribers c0))
      (applyAll chanClose (l.*2) c0).
Proof.
  induction l as [|[id r] l IH]; simpl.
  - by destruct c0.
  - rewrite IH. simpl. by rewrite onChan_setFrameSubscribers.
Qed.

Lemma closeAudio_foldr c0 (l : list (string * nat)) :
  foldr (uncurry (λ id ref acc,
           setAudioSubscribers (delete id (audioSubscribers acc))
             (onChan chanClose ref acc))) c0 l
  = setAudioSubscribers (deleteAll l (audioSubscribers c0))
      (applyAll chanClose (l.*2) c0).
Proof.
  induction l as [|[id r] l IH]; simpl.
  - by destruct c0.
  - rewrite IH. simpl. by rewrite onChan_setAudioSubscribers.
Qed.

(** The closing loops close the channels of the table and empty it. *)
Lemma closeFrameSubscribers_eq c :
  closeFrameSubscribers c
  = setFrameSubscribers ∅
      (applyAll chanClose (tableRefs (frameSubscribers c)) c).
Proof.
  unfold closeFrameSubscribers. rewrite map_fold_foldr.
  by rewrite closeFrames_foldr, deleteAll_all.
Qed.

Lemma closeAudioSubscribers_eq c :
  closeAudioSubscribers c
  = setAudioSubscribers ∅
      (applyAll chanClose (tableRefs (audioSubscribers c)) c).
Proof.
  unfold closeAudioSubscribers. rewrite map_fold_foldr.
  by rewrite closeAudio_foldr, deleteAll_all.
Qed.

End Tables.

(** ** The invariant of a capturer *)

Section Invariant.
Import Capture.

Lemma isClosed_open ch : closes ch = 0%nat → isClosed ch = false.
Proof.
  intros H. unfold isClosed. apply bool_decide_eq_false.
  rewrite H. intros Hne. by apply Hne.
Qed.

Lemma trySend_closes v ch ch' : trySend v ch = Sent ch' → closes ch' = closes ch.
Proof.
  unfold trySend. destruct (isClosed ch); [done|].
  case_bool_decide; [|done]. by intros [= <-].
Qed.

Lemma trySend_open v ch : closes ch = 0%nat → trySend v ch ≠ SendPanics.
Proof.
  intros H. unfold trySend. rewrite isClosed_open by done.
  by case_bool_decide.
Qed.

Lemma tryRecv_closes v ch ch' : tryRecv ch = Received v ch' → closes ch' = closes ch.
Proof.
  unfold tryRecv. destruct (buf ch); [by destruct (isClosed ch)|].
  by intros [= _ <-].
Qed.

Lemma sendDropOldest_closes v ch : closes (sendDropOldest v ch).1 = closes ch.
Proof.
  unfold sendDropOldest.
  destruct (trySend v ch) as [ch1| |] eqn:H1; simpl;
    [by apply trySend_closes in H1|..|done].
  destruct (tryRecv ch) as [w ch2| |] eqn:H2.
  - apply tryRecv_closes in H2.
    destruct (trySend v ch2) as [ch3| |] eqn:H3; simpl; [|done..].
    apply trySend_closes in H3. congruence.
  - destruct (trySend v ch) as [ch3| |] eqn:H3; simpl; [|done..].
    by apply trySend_closes in H3.
  - destruct (trySend v ch) as [ch3| |] eqn:H3; simpl; [|done..].
    by apply trySend_closes in H3.
Qed.

Lemma sendDropOldest_ok v ch :
  closes ch = 0%nat → (sendDropOldest v ch).2 = false.
Proof.
  intros Hopen. unfold sendDropOldest.
  destruct (trySend v ch) as [ch1| |] eqn:H1; simpl; [done| |].
  - destruct (tryRecv ch) as [w ch2| |] eqn:H2.
    + apply tryRecv_closes in H2.
      destruct (trySend v ch2) as [ch3| |] eqn:H3; simpl; [done..|].
      by apply trySend_open in H3; [|congruence].
    + by rewrite H1.
    + by rewrite H1.
  - by apply trySend_open in H1.
Qed.

Lemma sendOrDrop_closes v ch : closes (sendOrDrop v ch).1 = closes ch.
Proof.
  unfold sendOrDrop. destruct (trySend v ch) as [ch1| |] eqn:H1; simpl;
    [by apply trySend_closes in H1|done..].
Qed.

Lemma sendOrDrop_ok v ch : closes ch = 0%nat → (sendOrDrop v ch).2 = false.
Proof.
  intros Hopen. unfold sendOrDrop.
  destruct (trySend v ch) as [ch1| |] eqn:H1; simpl; [done..|].
  by apply trySend_open in H1.
Qed.

Lemma receive_closes ch : closes (receive ch).1 = closes ch.
Proof.
  unfold receive. destruct (tryRecv ch) as [w ch2| |] eqn:H2; simpl;
    [by apply tryRecv_closes in H2|done..].
Qed.

Lemma receive_ok ch : (receive ch).2 = false.
Proof. unfold receive. by destruct (tryRecv ch). Qed.

Lemma wf_new cfg : wf (NewAVCapturer cfg).
Proof.
  split; simpl; done.
Qed.

(** The invariant survives a step that adds no table entry and that
    leaves every channel as closed as it was, or closes an open channel
    that no table refers to any more. *)
Lemma wf_shrink c c' :
  wf c →
  (∀ id ref, frameSubscribers c' !! id = Some ref →
             frameSubscribers c !! id = Some ref) →
  (∀ id ref, audioSubscribers c' !! id = Some ref →
             audioSubscribers c !! id = Some ref) →
  (∀ r ch, chans c !! r = Some ch →
     ∃ ch', chans c' !! r = Some ch'
       ∧ (closes ch' = closes ch
          ∨ (closes ch = 0%nat ∧ closes ch' = 1%nat
             ∧ (∀ id, frameSubscribers c' !! id ≠ Some r)
             ∧ (∀ id, audioSubscribers c' !! id ≠ Some r)))) →
  length (chans c') = length (chans c) →
  panicked c' = false →
  wf c'.
Proof.
  intros [Hfi Hai Hdj Hfo Hao Hcl Hp] Hf Ha Hch Hlen Hp'.
  split; [| | | | | |done].
  - intros id1 id2 ref H1 H2. eauto.
  - intros id1 id2 ref H1 H2. eauto.
  - intros id1 id2 ref H1 H2. eapply Hdj; eauto.
  - intros id ref Hid. destruct (Hfo _ _ (Hf _ _ Hid)) as (ch & Hr & Hopen).
    destruct (Hch _ _ Hr) as (ch' & Hr' & [Hsame|(_ & _ & Hno & _)]).
    + exists ch'. split; [done|congruence].
    + by destruct (Hno id).
  - intros id ref Hid. destruct (Hao _ _ (Ha _ _ Hid)) as (ch & Hr & Hopen).
    destruct (Hch _ _ Hr) as (ch' & Hr' & [Hsame|(_ & _ & _ & Hno)]).
    + exists ch'. split; [done|congruence].
    + by destruct (Hno id).
  - intros ref ch' Hr'.
    assert (is_Some (chans c !! ref)) as [ch Hr].
    { apply lookup_lt_is_Some. rewrite <- Hlen. by eapply lookup_lt_Some. }
    destruct (Hch _ _ Hr) as (ch2 & Hr2 & Hcase).
    assert (ch2 = ch') as -> by congruence.
    destruct Hcase as [Hsame|(_ & Hone & _)]; [|lia].
    rewrite Hsame. eauto.
Qed.

Lemma wf_applyAll_benign op refs c :
  wf c → NoDup refs →
  (∀ r ch, r ∈ refs → chans c !! r = Some ch → benign op ch) →
  wf (applyAll op refs c).
Proof.
  intros Hwf Hnd Hben.
  destruct (applyAll_sameRest op refs c) as (_&_&_&_&_&_&Hf&Ha&Hlen).
  apply (wf_shrink c); [done|by rewrite Hf|by rewrite Ha| |done|].
  - intros r ch Hr. rewrite applyAll_chans by done.
    case_decide as Hin.
    + rewrite Hr. simpl. eexists. split; [done|].
      left. by apply (Hben r ch).
    + exists ch. split; [done|by left].
  - destruct (panicked (applyAll op refs c)) eqn:Hp; [|done].
    apply (applyAll_panicked op refs c Hnd) in Hp
      as [Hp|(r & ch & Hin & Hr & Hop)].
    + by rewrite (wf_panicked _ Hwf) in Hp.
    + destruct (Hben r ch Hin Hr) as [_ Hok]. congruence.
Qed.

Lemma wf_emitFrame c frame : wf c → wf (emitFrame c frame).
Proof.
  intros Hwf. unfold emitFrame. rewrite broadcastFrame_applyAll.
  assert (wf (setLastFrame (Some frame) c)) as Hwf'.
  { by apply (wf_shrink c); [done|..]; simpl; eauto using wf_panicked. }
  apply wf_applyAll_benign; [done|..].
  - apply NoDup_tableRefs, Hwf'.
  - intros r ch [id Hid]%elem_of_tableRefs Hr.
    destruct (wf_frame_open _ Hwf' _ _ Hid) as (ch' & Hr' & Hopen).
    assert (ch' = ch) as -> by congruence.
    split; [apply sendDropOldest_closes|by apply sendDropOldest_ok].
Qed.

Lemma wf_broadcastAudio c audio : wf c → wf (broadcastAudio audio c).
Proof.
  intros Hwf. rewrite broadcastAudio_applyAll.
  apply wf_applyAll_benign; [done|..].
  - apply NoDup_tableRefs, Hwf.
  - intros r ch [id Hid]%elem_of_tableRefs Hr.
    destruct (wf_audio_open _ Hwf _ _ Hid) as (ch' & Hr' & Hopen).
    assert (ch' = ch) as -> by congruence.
    split; [apply sendOrDrop_closes|by apply sendOrDrop_ok].
Qed.

Lemma wf_receive c ref : wf c → wf (onChan receive ref c).
Proof.
  intros Hwf. apply (wf_applyAll_benign receive [ref] c Hwf).
  - apply NoDup_singleton.
  - intros r ch _ _. split; [apply receive_closes|apply receive_ok].
Qed.

(** Closing open channels that no table refers to afterwards. *)
Lemma wf_close refs c tf ta :
  wf c → NoDup refs →
  (∀ r, r ∈ refs → ∃ ch, chans c !! r = Some ch ∧ closes ch = 0%nat) →
  (∀ id ref, tf !! id = Some ref →
             frameSubscribers c !! id = Some ref ∧ ref ∉ refs) →
  (∀ id ref, ta !! id = Some ref →
             audioSubscribers c !! id = Some ref ∧ ref ∉ refs) →
  wf (setFrameSubscribers tf
        (setAudioSubscribers ta (applyAll chanClose refs c))).
Proof.
  intros Hwf Hnd Hopen Hf Ha.
  destruct (applyAll_sameRest chanClose refs c) as (_&_&_&_&_&_&_&_&Hlen).
  apply (wf_shrink c); simpl;
    [done|intros id ref Hid; by apply Hf|intros id ref Hid; by apply Ha|
     |done|].
  - intros r ch Hr. rewrite applyAll_chans by done.
    case_decide as Hin.
    + rewrite Hr. simpl. eexists. split; [done|]. right.
      destruct (Hopen r Hin) as (ch' & Hr' & Hch').
      assert (ch' = ch) as -> by congruence.
      split; [done|]. split; [by rewrite Hch'|].
      split; intros id Hid; [by apply Hf in Hid as [_ ?]|
                             by apply Ha in Hid as [_ ?]].
    + exists ch. split; [done|by left].
  - destruct (panicked (applyAll chanClose refs c)) eqn:Hp; [|done].
    apply (applyAll_panicked chanClose refs c Hnd) in Hp
      as [Hp|(r & ch & Hin & Hr & Hop)].
    + by rewrite (wf_panicked _ Hwf) in Hp.
    + destruct (Hopen r Hin) as (ch' & Hr' & Hch').
      assert (ch' = ch) as -> by congruence.
      simpl in Hop. by rewrite isClosed_open in Hop.
Qed.

Lemma applyAll_frameSubscribers op refs c :
  frameSubscribers (applyAll op refs c) = frameSubscribers c.
Proof. by destruct (applyAll_sameRest op refs c) as (_&_&_&_&_&_&?&_). Qed.

Lemma applyAll_audioSubscribers op refs c :
  audioSubscribers (applyAll op refs c) = audioSubscribers c.
Proof. by destruct (applyAll_sameRest op refs c) as (_&_&_&_&_&_&_&?&_). Qed.

Lemma UnsubscribeFrames_eq id ref c :
  frameSubscribers c !! id = Some ref →
  UnsubscribeFrames id c
  = setFrameSubscribers (delete id (frameSubscribers c))
      (setAudioSubscribers (audioSubscribers c)
         (applyAll chanClose [ref] c)).
Proof.
  intros Hid. unfold UnsubscribeFrames. rewrite Hid.
  cbn [applyAll foldr].
  pose proof (onChan_sameRest chanClose ref c) as (_&_&_&_&_&_&_&Ha&_).
  rewrite <- Ha. by destruct (onChan chanClose ref c).
Qed.

Lemma UnsubscribeAudio_eq id ref c :
  audioSubscribers c !! id = Some ref →
  UnsubscribeAudio id c
  = setFrameSubscribers (frameSubscribers c)
      (setAudioSubscribers (delete id (audioSubscribers c))
         (applyAll chanClose [ref] c)).
Proof.
  intros Hid. unfold UnsubscribeAudio. rewrite Hid.
  cbn [applyAll foldr].
  pose proof (onChan_sameRest chanClose ref c) as (_&_&_&_&_&_&Hf&_).
  rewrite <- Hf. by destruct (onChan chanClose ref c).
Qed.

Lemma wf_UnsubscribeFrames id c : wf c → wf (UnsubscribeFrames id c).
Proof.
  intros Hwf.
  destruct (frameSubscribers c !! id) as [ref|] eqn:Hid;
    [|by unfold UnsubscribeFrames; rewrite Hid].
  rewrite (UnsubscribeFrames_eq id ref) by done.
  apply wf_close; [done|apply NoDup_singleton|..].
  - intros r ->%list_elem_of_singleton. eapply wf_frame_open; eauto.
  - intros id' r [Hne Hid']%lookup_delete_Some. split; [done|].
    intros ->%list_elem_of_singleton.
    by rewrite (wf_frame_inj _ Hwf _ _ _ Hid Hid') in Hne.
  - intros id' r Hid'. split; [done|].
    intros ->%list_elem_of_singleton.
    by apply (wf_disjoint _ Hwf _ _ _ Hid) in Hid'.
Qed.

Lemma wf_UnsubscribeAudio id c : wf c → wf (UnsubscribeAudio id c).
Proof.
  intros Hwf.
  destruct (audioSubscribers c !! id) as [ref|] eqn:Hid;
    [|by unfold UnsubscribeAudio; rewrite Hid].
  rewrite (UnsubscribeAudio_eq id ref) by done.
  apply wf_close; [done|apply NoDup_singleton|..].
  - intros r ->%list_elem_of_singleton. eapply wf_audio_open; eauto.
  - intros id' r Hid'. split; [done|].
    intros ->%list_elem_of_singleton.
    by apply (wf_disjoint _ Hwf _ _ _ Hid') in Hid.
  - intros id' r [Hne Hid']%lookup_delete_Some. split; [done|].
    intros ->%list_elem_of_singleton.
    by rewrite (wf_audio_inj _ Hwf _ _ _ Hid Hid') in Hne.
Qed.

Lemma closeFrameSubscribers_eq' c :
  closeFrameSubscribers c
  = setFrameSubscribers ∅
      (setAudioSubscribers (audioSubscribers c)
         (applyAll chanClose (tableRefs (frameSubscribers c)) c)).
Proof.
  rewrite closeFrameSubscribers_eq.
  rewrite <- (applyAll_audioSubscribers chanClose
                (tableRefs (frameSubscribers c)) c).
  by destruct (applyAll chanClose (tableRefs (frameSubscribers c)) c).
Qed.

Lemma closeAudioSubscribers_eq' c :
  closeAudioSubscribers c
  = setFrameSubscribers (frameSubscribers c)
      (setAudioSubscribers ∅
         (applyAll chanClose (tableRefs (audioSubscribers c)) c)).
Proof.
  rewrite closeAudioSubscribers_eq.
  rewrite <- (applyAll_frameSubscribers chanClose
                (tableRefs (audioSubscribers c)) c).
  by destruct (applyAll chanClose (tableRefs (audioSubscribers c)) c).
Qed.

Lemma wf_closeFrameSubscribers c : wf c → wf (closeFrameSubscribers c).
Proof.
  intros Hwf. rewrite closeFrameSubscribers_eq'.
  apply wf_close; [done|apply NoDup_tableRefs, Hwf|..].
  - intros r [id Hid]%elem_of_tableRefs. eapply wf_frame_open; eauto.
  - intros id r Hid. by rewrite lookup_empty in Hid.
  - intros id r Hid. split; [done|].
    intros [id' Hid']%elem_of_tableRefs.
    by apply (wf_disjoint _ Hwf _ _ _ Hid') in Hid.
Qed.

Lemma wf_closeAudioSubscribers c : wf c → wf (closeAudioSubscribers c).
Proof.
  intros Hwf. rewrite closeAudioSubscribers_eq'.
  apply wf_close; [done|apply NoDup_tableRefs, Hwf|..].
  - intros r [id Hid]%elem_of_tableRefs. eapply wf_audio_open; eauto.
  - intros id r Hid. split; [done|].
    intros [id' Hid']%elem_of_tableRefs.
    by apply (wf_disjoint _ Hwf _ _ _ Hid) in Hid'.
  - intros id r Hid. by rewrite lookup_empty in Hid.
Qed.

(** A step that touches neither the tables nor the channels. *)
Lemma wf_same c c' :
  wf c →
  frameSubscribers c' = frameSubscribers c →
  audioSubscribers c' = audioSubscribers c →
  chans c' = chans c →
  panicked c' = panicked c →
  wf c'.
Proof.
  intros Hwf Hf Ha Hc Hp.
  apply (wf_shrink c); [done|by rewrite Hf|by rewrite Ha| | |].
  - intros r ch Hr. exists ch. rewrite Hc. split; [done|by left].
  - by rewrite Hc.
  - rewrite Hp. apply Hwf.
Qed.

Lemma wf_stopCapture c : wf c → wf (stopCapture c).
Proof.
  intros Hwf. unfold stopCapture. destruct (cmd c && cmdProcess c); [|done].
  by apply (wf_same c).
Qed.

Lemma wf_Start env c : wf c → wf (Start env c).2.
Proof.
  intros Hwf. unfold Start. destruct (running c); [done|].
  destruct env; simpl; try done; by apply (wf_same c).
Qed.

Lemma wf_Stop c : wf c → wf (Stop c).2.
Proof.
  intros Hwf. unfold Stop. destruct (running c); simpl; [|done].
  apply (wf_same (closeAudioSubscribers
                    (closeFrameSubscribers (stopCapture c)))); [|done..].
  by apply wf_closeAudioSubscribers, wf_closeFrameSubscribers,
    wf_stopCapture.
Qed.

(** A table entry refers to a channel that exists. *)
Lemma wf_frame_bound c id ref :
  wf c → frameSubscribers c !! id = Some ref → (ref < length (chans c))%nat.
Proof.
  intros Hwf Hid. destruct (wf_frame_open _ Hwf _ _ Hid) as (ch & Hr & _).
  by apply lookup_lt_Some in Hr.
Qed.

Lemma wf_audio_bound c id ref :
  wf c → audioSubscribers c !! id = Some ref → (ref < length (chans c))%nat.
Proof.
  intros Hwf Hid. destruct (wf_audio_open _ Hwf _ _ Hid) as (ch & Hr & _).
  by apply lookup_lt_Some in Hr.
Qed.

Lemma lookup_snoc_Some {A} (l : list A) (x y : A) (i : nat) :
  (l ++ [x]) !! i = Some y →
  l !! i = Some y ∨ (i = length l ∧ y = x).
Proof.
  intros H. destruct (decide (i < length l)%nat) as [Hlt|Hge].
  - left. by rewrite lookup_app_l in H.
  - right. rewrite lookup_app_r in H by lia.
    destruct (i - length l)%nat as [|k] eqn:Hk; simpl in H; [|done].
    split; [lia|congruence].
Qed.

Lemma wf_SubscribeFrames id c : wf c → wf (SubscribeFrames id c).2.
Proof.
  intros Hwf. pose proof (wf_frame_bound c) as Hfb.
  pose proof (wf_audio_bound c) as Hab.
  destruct Hwf as [Hfi Hai Hdj Hfo Hao Hcl Hp].
  assert (Hwf : wf c) by (by split).
  split; simpl.
  - intros id1 id2 ref [[-> <-]|[? H1]]%lookup_insert_Some
      [[-> ?]|[? H2]]%lookup_insert_Some; try done.
    + specialize (Hfb _ _ Hwf H2). lia.
    + specialize (Hfb _ _ Hwf H1). lia.
    + eauto.
  - done.
  - intros id1 id2 ref [[-> <-]|[? H1]]%lookup_insert_Some H2.
    + specialize (Hab _ _ Hwf H2). lia.
    + by eapply Hdj.
  - intros id' ref [[-> <-]|[? H1]]%lookup_insert_Some.
    + exists (makeChan frameQueueSize). split; [|done].
      by rewrite lookup_app_r, Nat.sub_diag.
    + destruct (Hfo _ _ H1) as (ch & Hr & Hopen). exists ch.
      split; [|done]. by apply lookup_app_l_Some.
  - intros id' ref H1.
    destruct (Hao _ _ H1) as (ch & Hr & Hopen). exists ch.
    split; [|done]. by apply lookup_app_l_Some.
  - intros ref ch [Hr|[_ ->]]%lookup_snoc_Some; [eauto|simpl; lia].
  - by rewrite Hp.
Qed.

Lemma wf_SubscribeAudio id c : wf c → wf (SubscribeAudio id c).2.
Proof.
  intros Hwf. pose proof (wf_frame_bound c) as Hfb.
  pose proof (wf_audio_bound c) as Hab.
  destruct Hwf as [Hfi Hai Hdj Hfo Hao Hcl Hp].
  assert (Hwf : wf c) by (by split).
  split; simpl.
  - done.
  - intros id1 id2 ref [[-> <-]|[? H1]]%lookup_insert_Some
      [[-> ?]|[? H2]]%lookup_insert_Some; try done.
    + specialize (Hab _ _ Hwf H2). lia.
    + specialize (Hab _ _ Hwf H1). lia.
    + eauto.
  - intros id1 id2 ref H1 [[-> <-]|[? H2]]%lookup_insert_Some.
    + specialize (Hfb _ _ Hwf H1). lia.
    + by eapply Hdj.
  - intros id' ref H1.
    destruct (Hfo _ _ H1) as (ch & Hr & Hopen). exists ch.
    split; [|done]. by apply lookup_app_l_Some.
  - intros id' ref [[-> <-]|[? H1]]%lookup_insert_Some.
    + exists (makeChan audioQueueSize). split; [|done].
      by rewrite lookup_app_r, Nat.sub_diag.
    + destruct (Hao _ _ H1) as (ch & Hr & Hopen). exists ch.
      split; [|done]. by apply lookup_app_l_Some.
  - intros ref ch [Hr|[_ ->]]%lookup_snoc_Some; [eauto|simpl; lia].
  - by rewrite Hp.
Qed.

Lemma wf_step c a : wf c → wf (step c a).
Proof.
  intros Hwf. destruct a; simpl.
  - by apply wf_Start.
  - by apply wf_Stop.
  - by apply wf_stopCapture.
  - by apply wf_closeFrameSubscribers.
  - by apply wf_closeAudioSubscribers.
  - by apply (wf_same c).
  - by apply wf_SubscribeFrames.
  - by apply wf_UnsubscribeFrames.
  - by apply wf_SubscribeAudio.
  - by apply wf_UnsubscribeAudio.
  - by apply wf_emitFrame.
  - by apply wf_broadcastAudio.
  - by apply wf_receive.
Qed.

Lemma wf_run acts : ∀ c, wf c → wf (run c acts).
Proof.
  induction acts as [|a acts IH]; intros c Hwf; [done|].
  apply IH. by apply wf_step.
Qed.

End Invariant.

(** ** Broadcast on a full queue *)

Section Broadcast.
Import Capture.

Lemma trySend_sized v ch ch' : sized ch → trySend v ch = Sent ch' → sized ch'.
Proof.
  unfold trySend, sized. intros [Hlen Hcap].
  destruct (isClosed ch); [done|]. case_bool_decide; [|done].
  intros [= <-]. simpl. rewrite length_app. simpl. lia.
Qed.

Lemma tryRecv_sized v ch ch' : sized ch → tryRecv ch = Received v ch' → sized ch'.
Proof.
  unfold tryRecv, sized. intros [Hlen Hcap].
  destruct (buf ch) eqn:Hb; [by destruct (isClosed ch)|].
  intros [= _ <-]. simpl in *. lia.
Qed.

Lemma sendDropOldest_sized v ch : sized ch → sized (sendDropOldest v ch).1.
Proof.
  intros Hs. unfold sendDropOldest.
  destruct (trySend v ch) as [ch1| |] eqn:H1; simpl;
    [by eapply trySend_sized|..|done].
  set (ch1 := match tryRecv ch with
              | Received _ ch' => ch'
              | _ => ch
              end).
  assert (sized ch1) as Hs2.
  { subst ch1. destruct (tryRecv ch) as [w ch2| |] eqn:H2; [|done..].
    by eapply tryRecv_sized. }
  destruct (trySend v ch1) as [ch3| |] eqn:H3; simpl; [|done..].
  by eapply trySend_sized.
Qed.

Lemma sendOrDrop_sized v ch : sized ch → sized (sendOrDrop v ch).1.
Proof.
  intros Hs. unfold sendOrDrop.
  destruct (trySend v ch) as [ch1| |] eqn:H1; simpl; [|done..].
  by eapply trySend_sized.
Qed.

Lemma receive_sized ch : sized ch → sized (receive ch).1.
Proof.
  intros Hs. unfold receive.
  destruct (tryRecv ch) as [w ch2| |] eqn:H2; simpl; [|done..].
  by eapply tryRecv_sized.
Qed.

Lemma chanClose_sized ch : sized ch → sized (chanClose ch).1.
Proof. done. Qed.

Lemma allSized_onChan op ref c :
  (∀ ch, sized ch → sized (op ch).1) →
  allSized c → allSized (onChan op ref c).
Proof.
  intros Hop Hc r ch. rewrite onChan_chans.
  case_decide; [|by apply Hc].
  destruct (chans c !! r) as [ch0|] eqn:Hr; [|done].
  intros [= <-]. apply Hop. by eapply Hc.
Qed.

Lemma allSized_applyAll op refs c :
  (∀ ch, sized ch → sized (op ch).1) →
  allSized c → allSized (applyAll op refs c).
Proof.
  intros Hop Hc. induction refs as [|r refs IH]; [done|].
  by apply allSized_onChan.
Qed.

Lemma allSized_snoc c c' n :
  n ≠ 0%nat → chans c' = chans c ++ [makeChan n] →
  allSized c → allSized c'.
Proof.
  intros Hn Heq Hc r ch. rewrite Heq.
  intros [Hr|[_ ->]]%lookup_snoc_Some; [by eapply Hc|].
  split; simpl; [lia|done].
Qed.

Lemma allSized_same c c' : chans c' = chans c → allSized c → allSized c'.
Proof. intros Heq Hc r ch. rewrite Heq. apply Hc. Qed.

Lemma allSized_step c a : allSized c → allSized (step c a).
Proof.
  intros Hc. destruct a; simpl.
  - unfold Start. destruct (running c); [done|]. by destruct env.
  - unfold Stop. destruct (running c); [|done]. simpl.
    rewrite closeAudioSubscribers_eq, closeFrameSubscribers_eq.
    apply (allSized_same (applyAll chanClose
      (tableRefs (audioSubscribers (setFrameSubscribers ∅
         (applyAll chanClose (tableRefs (frameSubscribers (stopCapture c)))
            (stopCapture c)))))
      (setFrameSubscribers ∅
         (applyAll chanClose (tableRefs (frameSubscribers (stopCapture c)))
            (stopCapture c))))); [done|].
    apply allSized_applyAll; [apply chanClose_sized|].
    apply (allSized_same (applyAll chanClose
      (tableRefs (frameSubscribers (stopCapture c))) (stopCapture c)));
      [done|].
    apply allSized_applyAll; [apply chanClose_sized|].
    apply (allSized_same c); [|done].
    unfold stopCapture. by destruct (cmd c && cmdProcess c).
  - apply (allSized_same c); [|done].
    unfold stopCapture. by destruct (cmd c && cmdProcess c).
  - rewrite closeFrameSubscribers_eq.
    apply (allSized_same (applyAll chanClose
      (tableRefs (frameSubscribers c)) c)); [done|].
    by apply allSized_applyAll; [apply chanClose_sized|].
  - rewrite closeAudioSubscribers_eq.
    apply (allSized_same (applyAll chanClose
      (tableRefs (audioSubscribers c)) c)); [done|].
    by apply allSized_applyAll; [apply chanClose_sized|].
  - done.
  - by apply (allSized_snoc c _ frameQueueSize).
  - unfold UnsubscribeFrames.
    destruct (frameSubscribers c !! id) as [ref|]; [|done].
    apply (allSized_same (onChan chanClose ref c)); [done|].
    by apply allSized_onChan; [apply chanClose_sized|].
  - by apply (allSized_snoc c _ audioQueueSize).
  - unfold UnsubscribeAudio.
    destruct (audioSubscribers c !! id) as [ref|]; [|done].
    apply (allSized_same (onChan chanClose ref c)); [done|].
    by apply allSized_onChan; [apply chanClose_sized|].
  - unfold emitFrame. rewrite broadcastFrame_applyAll.
    apply allSized_applyAll; [apply sendDropOldest_sized|].
    by apply (allSized_same c).
  - rewrite broadcastAudio_applyAll.
    by apply allSized_applyAll; [apply sendOrDrop_sized|].
  - by apply allSized_onChan; [apply receive_sized|].
Qed.

Lemma allSized_run acts : ∀ c, allSized c → allSized (run c acts).
Proof.
  induction acts as [|a acts IH]; intros c Hc; [done|].
  apply IH. by apply allSized_step.
Qed.

Lemma allSized_new cfg : allSized (NewAVCapturer cfg).
Proof. intros r ch H. simpl in H. by rewrite lookup_nil in H. Qed.

(** The queue after [sendDropOldest], [sendOrDrop] on an open channel. *)
Lemma sendDropOldest_open_sized v ch :
  closes ch = 0%nat → sized ch →
  sendDropOldest v ch
  = (mkChan (if decide (length (buf ch) < cap ch)%nat
             then buf ch ++ [v] else tail (buf ch) ++ [v])
       (cap ch) (closes ch), false).
Proof.
  intros Hopen [Hlen Hcap]. unfold sendDropOldest, trySend at 1.
  rewrite isClosed_open by done.
  case_decide as Hroom.
  { by rewrite bool_decide_eq_true_2. }
  rewrite bool_decide_eq_false_2 by done.
  destruct ch as [[|x b] n k]; simpl in *; [lia|].
  unfold tryRecv, trySend, isClosed. simpl. subst k.
  rewrite (bool_decide_eq_false_2 (0%nat ≠ 0%nat)) by (by intros []).
  by rewrite bool_decide_eq_true_2 by lia.
Qed.

Lemma sendOrDrop_open v ch :
  closes ch = 0%nat →
  sendOrDrop v ch
  = (if decide (length (buf ch) < cap ch)%nat
     then mkChan (buf ch ++ [v]) (cap ch) (closes ch) else ch, false).
Proof.
  intros Hopen. unfold sendOrDrop, trySend.
  rewrite isClosed_open by done.
  case_decide as Hroom.
  - by rewrite bool_decide_eq_true_2.
  - by rewrite bool_decide_eq_false_2.
Qed.

Lemma broadcastFrame_chans v c r :
  wf c →
  chans (broadcastFrame v c) !! r
  = if decide (r ∈ tableRefs (frameSubscribers c))
    then (λ ch, (sendDropOldest v ch).1) <$> chans c !! r
    else chans c !! r.
Proof.
  intros Hwf. rewrite broadcastFrame_applyAll.
  by rewrite applyAll_chans by apply NoDup_tableRefs, Hwf.
Qed.

Lemma broadcastAudio_chans v c r :
  wf c →
  chans (broadcastAudio v c) !! r
  = if decide (r ∈ tableRefs (audioSubscribers c))
    then (λ ch, (sendOrDrop v ch).1) <$> chans c !! r
    else chans c !! r.
Proof.
  intros Hwf. rewrite broadcastAudio_applyAll.
  by rewrite applyAll_chans by apply NoDup_tableRefs, Hwf.
Qed.

End Broadcast.

(** C1, as the code has it. In every state a capturer can reach, a
    broadcast hands the buffer to each subscriber's queue on its own and
    leaves alone the channels that are not in the table. For a frame, a
    queue with room takes it at the tail, and a full queue loses its oldest
    frame and takes the new one at the tail; the subscriber then observes
    what is left of the older frames first and the new frame last. The
    retry that follows the drop is the non-blocking send again: where it
    cannot admit the frame, the frame is dropped for that subscriber. For an
    audio block, a queue with room takes it at the tail, and a full queue
    is left as it is: the new block is dropped, the oldest one stays. *)
Theorem broadcast_on_full_queue (cfg : Config.CameraConfig)
    (acts : list Capture.Action) (v : list byte) :
  let c := Capture.run (Capture.NewAVCapturer cfg) acts in
  (∀ sid ref, Capture.frameSubscribers c !! sid = Some ref →
     ∃ ch, Capture.chans c !! ref = Some ch
       ∧ Capture.chans (Capture.broadcastFrame v c) !! ref
         = Some (Capture.mkChan
                   (if decide (length (Capture.buf ch) < Capture.cap ch)%nat
                    then Capture.buf ch ++ [v]
                    else tail (Capture.buf ch) ++ [v])
                   (Capture.cap ch) (Capture.closes ch)))
  ∧ (∀ sid ref, Capture.audioSubscribers c !! sid = Some ref →
     ∃ ch, Capture.chans c !! ref = Some ch
       ∧ Capture.chans (Capture.broadcastAudio v c) !! ref
         = Some (if decide (length (Capture.buf ch) < Capture.cap ch)%nat
                 then Capture.mkChan (Capture.buf ch ++ [v])
                        (Capture.cap ch) (Capture.closes ch)
                 else ch))
  ∧ (∀ r, (∀ sid, Capture.frameSubscribers c !! sid ≠ Some r) →
       Capture.chans (Capture.broadcastFrame v c) !! r = Capture.chans c !! r)
  ∧ (∀ r, (∀ sid, Capture.audioSubscribers c !! sid ≠ Some r) →
       Capture.chans (Capture.broadcastAudio v c) !! r = Capture.chans c !! r)
  ∧ (∀ ch1 ch2,
       Capture.sendDropOldest v ch1 = (ch2, false) →
       Capture.buf ch2 = Capture.buf ch1 ++ [v]
       ∨ Capture.buf ch2 = tail (Capture.buf ch1) ++ [v]
       ∨ Capture.buf ch2 = tail (Capture.buf ch1)).
Proof.
  intros c.
  assert (Hwf : wf c) by apply wf_run, wf_new.
  assert (Hsz : allSized c) by apply allSized_run, allSized_new.
  split; [|split; [|split; [|split]]].
  - intros sid ref Hsid.
    destruct (wf_frame_open _ Hwf _ _ Hsid) as (ch & Hr & Hopen).
    exists ch. split; [done|].
    rewrite broadcastFrame_chans by done.
    rewrite decide_True by (apply elem_of_tableRefs; eauto).
    rewrite Hr. simpl. f_equal.
    by rewrite sendDropOldest_open_sized by eauto.
  - intros sid ref Hsid.
    destruct (wf_audio_open _ Hwf _ _ Hsid) as (ch & Hr & Hopen).
    exists ch. split; [done|].
    rewrite broadcastAudio_chans by done.
    rewrite decide_True by (apply elem_of_tableRefs; eauto).
    rewrite Hr. simpl. f_equal.
    by rewrite sendOrDrop_open by done.
  - intros r Hr. rewrite broadcastFrame_chans by done.
    rewrite decide_False; [done|].
    intros [sid Hsid]%elem_of_tableRefs. by apply (Hr sid).
  - intros r Hr. rewrite broadcastAudio_chans by done.
    rewrite decide_False; [done|].
    intros [sid Hsid]%elem_of_tableRefs. by apply (Hr sid).
  - intros ch1 ch2. unfold Capture.sendDropOldest, Capture.trySend at 1.
    destruct (Capture.isClosed ch1) eqn:Hc1; [done|].
    case_bool_decide; [intros [= <-]; by left|].
    unfold Capture.tryRecv.
    destruct (Capture.buf ch1) as [|x b] eqn:Hb; rewrite ?Hc1.
    + unfold Capture.trySend. rewrite Hc1.
      case_bool_decide; intros [= <-]; simpl; rewrite Hb; auto.
    + unfold Capture.trySend, Capture.isClosed in *. simpl.
      case_bool_decide; [done|].
      case_bool_decide; intros [= <-]; simpl; auto.
Qed.

Lemma broadcast_on_full_queue_witness :
  Capture.frameSubscribers fullFrameQueue !! "viewer" = Some 0%nat
  ∧ ∃ ch, Capture.chans fullFrameQueue !! 0%nat = Some ch
      ∧ Capture.chans
          (Capture.broadcastFrame [xff; xd8; xff; xd9] fullFrameQueue) !! 0%nat
        = Some (Capture.mkChan
                  (if decide (length (Capture.buf ch) < Capture.cap ch)%nat
                   then Capture.buf ch ++ [[xff; xd8; xff; xd9]]
                   else tail (Capture.buf ch) ++ [[xff; xd8; xff; xd9]])
                  (Capture.cap ch) (Capture.closes ch)).
Proof.
  assert (H : Capture.frameSubscribers fullFrameQueue !! "viewer" = Some 0%nat)
    by (vm_compute; reflexivity).
  split; [exact H|].
  exact (proj1 (broadcast_on_full_queue cam1
                  (Capture.AStart Capture.SpawnOk
                   :: Capture.ASubscribeFrames "viewer"
                   :: (Capture.AEmitFrame <$> take 30 sampleFrames))
                  [xff; xd8; xff; xd9]) "viewer" 0%nat H).
Defined.

(** C1 as stated fails on both counts. A full audio queue keeps its oldest
    block and does not take the new one; and after an overflow of a full
    frame queue the subscriber does not observe the newest frame next, but
    the second oldest of the frames that were queued. *)
Lemma broadcast_overflow_not_newest_next :
  let block := sampleBlocks !!! 100%nat in
  let frame := sampleFrames !!! 30%nat in
  (Capture.audioSubscribers fullAudioQueue !! "listener" = Some 0%nat
   ∧ (length ∘ Capture.buf) <$> Capture.chans fullAudioQueue !! 0%nat
     = Some Capture.audioQueueSize
   ∧ Capture.chans (Capture.broadcastAudio block fullAudioQueue) !! 0%nat
     = Capture.chans fullAudioQueue !! 0%nat
   ∧ Capture.tryRecv
       <$> Capture.chans (Capture.broadcastAudio block fullAudioQueue) !! 0%nat
     ≠ (λ ch, Capture.Received block
                (Capture.mkChan (tail (Capture.buf ch)) (Capture.cap ch)
                   (Capture.closes ch)))
       <$> Capture.chans (Capture.broadcastAudio block fullAudioQueue) !! 0%nat)
  ∧ (Capture.frameSubscribers fullFrameQueue !! "viewer" = Some 0%nat
     ∧ (length ∘ Capture.buf) <$> Capture.chans fullFrameQueue !! 0%nat
       = Some Capture.frameQueueSize
     ∧ (λ ch, head (Capture.buf ch))
         <$> Capture.chans (Capture.broadcastFrame frame fullFrameQueue) !! 0%nat
       = Some (sampleFrames !! 1%nat)
     ∧ sampleFrames !! 1%nat ≠ Some frame).
Proof.
  vm_compute. repeat split; try reflexivity; discriminate.
Qed.

(** ** Stop and unsubscribe *)

Section StopProps.
Import Capture.

Lemma applyAll_setFrameSubscribers op refs t c :
  applyAll op refs (setFrameSubscribers t c)
  = setFrameSubscribers t (applyAll op refs c).
Proof.
  induction refs as [|r refs IH]; [done|].
  cbn [applyAll foldr]. fold (applyAll op refs (setFrameSubscribers t c)).
  fold (applyAll op refs c).
  by rewrite IH, onChan_setFrameSubscribers.
Qed.

Lemma stopCapture_chans c : chans (stopCapture c) = chans c.
Proof. unfold stopCapture. by destruct (cmd c && cmdProcess c). Qed.

Lemma stopCapture_tables c :
  frameSubscribers (stopCapture c) = frameSubscribers c
  ∧ audioSubscribers (stopCapture c) = audioSubscribers c.
Proof. unfold stopCapture. by destruct (cmd c && cmdProcess c). Qed.

(** What [Stop] does to the tables and to each channel of a running
    capturer. *)
Lemma Stop_running c :
  wf c → running c = true →
  frameSubscribers (Stop c).2 = ∅
  ∧ audioSubscribers (Stop c).2 = ∅
  ∧ running (Stop c).2 = false
  ∧ ∀ r, chans (Stop c).2 !! r
         = if decide (r ∈ tableRefs (frameSubscribers c)
                      ∨ r ∈ tableRefs (audioSubscribers c))
           then (λ ch, (chanClose ch).1) <$> chans c !! r
           else chans c !! r.
Proof.
  intros Hwf Hrun. unfold Stop. rewrite Hrun. cbn [negb snd].
  destruct (stopCapture_tables c) as [Hf Ha].
  pose proof (stopCapture_chans c) as Hc.
  set (c1 := stopCapture c) in *.
  rewrite closeAudioSubscribers_eq, closeFrameSubscribers_eq.
  split; [simpl; by rewrite applyAll_frameSubscribers|].
  split; [done|]. split; [done|].
  intros r. cbn [chans setRunning setAudioSubscribers audioSubscribers
                 setFrameSubscribers].
  rewrite applyAll_audioSubscribers, applyAll_setFrameSubscribers.
  cbn [chans setFrameSubscribers].
  rewrite Ha, Hf.
  rewrite !applyAll_chans by (apply NoDup_tableRefs, Hwf).
  rewrite Hc.
  destruct (decide (r ∈ tableRefs (audioSubscribers c))) as [Hra|Hra];
    destruct (decide (r ∈ tableRefs (frameSubscribers c))) as [Hrf|Hrf].
  - exfalso. apply elem_of_tableRefs in Hra as [ida Hida].
    apply elem_of_tableRefs in Hrf as [idf Hidf].
    by apply (wf_disjoint _ Hwf _ _ _ Hidf) in Hida.
  - by rewrite decide_True by auto.
  - by rewrite decide_True by auto.
  - by rewrite decide_False by (by intros [|]).
Qed.

Lemma UnsubscribeFrames_lookup sid c :
  frameSubscribers (UnsubscribeFrames sid c) !! sid = None.
Proof.
  unfold UnsubscribeFrames.
  destruct (frameSubscribers c !! sid) as [ref|] eqn:Hsid; [|done].
  simpl. apply lookup_delete_eq.
Qed.

Lemma UnsubscribeAudio_lookup sid c :
  audioSubscribers (UnsubscribeAudio sid c) !! sid = None.
Proof.
  unfold UnsubscribeAudio.
  destruct (audioSubscribers c !! sid) as [ref|] eqn:Hsid; [|done].
  simpl. apply lookup_delete_eq.
Qed.

End StopProps.

(** C9. Let a capturer be in a state it can reach by any interleaving of
    the steps of start, stop, subscribe, unsubscribe, broadcast and receive
    calls. No channel has been closed twice and nothing has panicked. If
    the capturer is running, [Stop] leaves both subscriber tables empty,
    has closed once every channel that was in a table, open until then, and
    has left the other channels as they were; a second [Stop] changes
    nothing, as does any [Stop] on a capturer that is not running. An
    unsubscribe of an id that is not in the table changes nothing, so a
    second unsubscribe of an id is a no-op. *)
Theorem stop_closes_each_queue_once (cfg : Config.CameraConfig)
    (acts : list Capture.Action) :
  let c := Capture.run (Capture.NewAVCapturer cfg) acts in
  (Capture.running c = true →
     let c' := (Capture.Stop c).2 in
     Capture.frameSubscribers c' = ∅
     ∧ Capture.audioSubscribers c' = ∅
     ∧ (∀ sid ref,
          Capture.frameSubscribers c !! sid = Some ref
          ∨ Capture.audioSubscribers c !! sid = Some ref →
          Capture.closes <$> Capture.chans c !! ref = Some 0%nat
          ∧ Capture.closes <$> Capture.chans c' !! ref = Some 1%nat)
     ∧ (∀ r, (∀ sid, Capture.frameSubscribers c !! sid ≠ Some r) →
             (∀ sid, Capture.audioSubscribers c !! sid ≠ Some r) →
             Capture.chans c' !! r = Capture.chans c !! r)
     ∧ Capture.Stop c' = (None, c'))
  ∧ (Capture.running c = false → Capture.Stop c = (None, c))
  ∧ (∀ sid, Capture.frameSubscribers c !! sid = None →
            Capture.UnsubscribeFrames sid c = c)
  ∧ (∀ sid, Capture.audioSubscribers c !! sid = None →
            Capture.UnsubscribeAudio sid c = c)
  ∧ (∀ sid, Capture.UnsubscribeFrames sid (Capture.UnsubscribeFrames sid c)
            = Capture.UnsubscribeFrames sid c)
  ∧ (∀ sid, Capture.UnsubscribeAudio sid (Capture.UnsubscribeAudio sid c)
            = Capture.UnsubscribeAudio sid c)
  ∧ Capture.panicked c = false
  ∧ (∀ r ch, Capture.chans c !! r = Some ch → (Capture.closes ch ≤ 1)%nat).
Proof.
  intros c.
  assert (Hwf : wf c) by apply wf_run, wf_new.
  split; [|split; [|split; [|split; [|split; [|split; [|split]]]]]].
  - intros Hrun c'.
    destruct (Stop_running c Hwf Hrun) as (Hf & Ha & Hr & Hch).
    fold c' in Hf, Ha, Hr, Hch.
    split; [done|]. split; [done|]. split; [|split].
    + intros sid ref Hsid. rewrite Hch.
      assert (∃ ch, Capture.chans c !! ref = Some ch
                    ∧ Capture.closes ch = 0%nat) as (ch & Href & Hopen).
      { destruct Hsid as [Hsid|Hsid];
          [eapply wf_frame_open|eapply wf_audio_open]; eauto. }
      rewrite decide_True.
      * rewrite Href. simpl. by rewrite Hopen.
      * rewrite !elem_of_tableRefs. destruct Hsid; eauto.
    + intros r Hnf Hna. rewrite Hch. rewrite decide_False; [done|].
      rewrite !elem_of_tableRefs. intros [[sid Hsid]|[sid Hsid]].
      * by apply (Hnf sid).
      * by apply (Hna sid).
    + unfold Capture.Stop at 1. by rewrite Hr.
  - intros Hrun. unfold Capture.Stop. by rewrite Hrun.
  - intros sid Hsid. unfold Capture.UnsubscribeFrames. by rewrite Hsid.
  - intros sid Hsid. unfold Capture.UnsubscribeAudio. by rewrite Hsid.
  - intros sid. unfold Capture.UnsubscribeFrames at 1.
    by rewrite UnsubscribeFrames_lookup.
  - intros sid. unfold Capture.UnsubscribeAudio at 1.
    by rewrite UnsubscribeAudio_lookup.
  - apply Hwf.
  - apply Hwf.
Qed.

Lemma stop_closes_each_queue_once_witness :
  Capture.running
    (Capture.run (Capture.NewAVCapturer cam1) subscribedActions) = true
  ∧ Capture.frameSubscribers
      (Capture.run (Capture.NewAVCapturer cam1) subscribedActions)
      !! "viewer" = Some 0%nat
  ∧ Capture.closes
      <$> Capture.chans
            (Capture.Stop
               (Capture.run (Capture.NewAVCapturer cam1)
                  subscribedActions)).2 !! 0%nat
    = Some 1%nat.
Proof.
  assert (H : Capture.running
                (Capture.run (Capture.NewAVCapturer cam1)
                   subscribedActions) = true)
    by (vm_compute; reflexivity).
  assert (Hv : Capture.frameSubscribers
                 (Capture.run (Capture.NewAVCapturer cam1) subscribedActions)
                 !! "viewer" = Some 0%nat)
    by (vm_compute; reflexivity).
  split; [exact H|]. split; [exact Hv|].
  exact (proj2 (proj1 (proj2 (proj2
           (proj1 (stop_closes_each_queue_once cam1 subscribedActions) H)))
           "viewer" 0%nat (or_introl Hv))).
Defined.

(** ** GetFrame *)

Section GetFrameProps.
Import Capture.

Lemma waiting_not_audio ref c :
  waiting ref c → ref ∉ tableRefs (audioSubscribers c).
Proof.
  intros [_ Hna] [sid Hsid]%elem_of_tableRefs. by apply (Hna sid).
Qed.

Lemma waiting_step ref c a :
  wf c → waiting ref c → quietAction a = true → waiting ref (step c a).
Proof.
  intros Hwf Hw Hq. pose proof (waiting_not_audio _ _ Hw) as Hnot.
  destruct Hw as [Hch Hna].
  destruct a; try discriminate Hq; simpl.
  - unfold Start. destruct (running c); [done|]. by destruct env.
  - split; [by rewrite stopCapture_chans|].
    by rewrite (proj2 (stopCapture_tables c)).
  - rewrite closeAudioSubscribers_eq. split; simpl.
    + rewrite applyAll_chans by apply NoDup_tableRefs, Hwf.
      by rewrite decide_False.
    + intros sid. by rewrite lookup_empty.
  - done.
  - split; simpl; [by apply lookup_app_l_Some|done].
  - split; simpl; [by apply lookup_app_l_Some|].
    intros sid [[_ Heq]|[_ Hsid]]%lookup_insert_Some.
    + apply lookup_lt_Some in Hch. lia.
    + by apply (Hna sid).
  - unfold UnsubscribeAudio.
    destruct (audioSubscribers c !! id) as [r|] eqn:Hid; [|done].
    split; simpl.
    + rewrite onChan_chans. rewrite decide_False; [done|].
      intros ->. by apply (Hna id).
    + intros sid [_ Hsid]%lookup_delete_Some. by apply (Hna sid).
  - split.
    + rewrite broadcastAudio_chans by done. by rewrite decide_False.
    + rewrite broadcastAudio_applyAll, applyAll_audioSubscribers. done.
  - split.
    + rewrite onChan_chans. case_decide as Hr; [|done].
      subst ref0. by rewrite Hch.
    + pose proof (onChan_sameRest receive ref0 c) as (_&_&_&_&_&_&_&Ha&_).
      by rewrite Ha.
Qed.






Lemma waiting_subscribed sid c :
  wf c → waiting (length (chans c)) (SubscribeFrames sid c).2.
Proof.
  intros Hwf. split; simpl.
  - by rewrite lookup_app_r, Nat.sub_diag.
  - intros sid' Hsid. apply (wf_audio_bound _ _ _ Hwf) in Hsid. lia.
Qed.
















Lemma keepsWaiting_cases sid a :
  keepsWaiting sid a = true →
  quietAction a = true ∨ ∃ id, a = AUnsubscribeFrames id ∧ id ≠ sid.
Proof.
  destruct a; try discriminate; try (by left).
  intros Hk%negb_true_iff%bool_decide_eq_false. right. by exists id.
Qed.

Lemma keepsWaiting_waiting sid ref c a :
  wf c → waiting ref c → frameSubscribers c !! sid = Some ref →
  keepsWaiting sid a = true → waiting ref (step c a).
Proof.
  intros Hwf Hw Hsid [Hq|(id & -> & Hne)]%keepsWaiting_cases;
    [by apply waiting_step|].
  cbn [step]. destruct (frameSubscribers c !! id) as [r|] eqn:Hid.
  - assert (r ≠ ref) as Hr.
    { intros ->. by apply Hne, (wf_frame_inj _ Hwf id sid ref). }
    rewrite (UnsubscribeFrames_eq id r c Hid). destruct Hw as [Hch Hna].
    split; [|done]. cbn [chans setFrameSubscribers setAudioSubscribers].
    cbn [applyAll foldr]. rewrite onChan_chans.
    by rewrite decide_False by done.
  - unfold UnsubscribeFrames. by rewrite Hid.
Qed.

Lemma keepsWaiting_subscription sid ref c a :
  keepsWaiting sid a = true →
  frameSubscribers c !! sid = Some ref →
  frameSubscribers (step c a) !! sid = Some ref.
Proof.
  intros Hk Hsid.
  destruct a; try discriminate Hk; simpl.
  - unfold Start. destruct (running c); [done|]. by destruct env.
  - by rewrite (proj1 (stopCapture_tables c)).
  - rewrite closeAudioSubscribers_eq. simpl.
    by rewrite applyAll_frameSubscribers.
  - done.
  - apply negb_true_iff, bool_decide_eq_false in Hk.
    by rewrite lookup_insert_ne.
  - apply negb_true_iff, bool_decide_eq_false in Hk.
    unfold UnsubscribeFrames.
    destruct (frameSubscribers c !! id) as [r|]; [|done]. simpl.
    by rewrite lookup_delete_ne.
  - done.
  - unfold UnsubscribeAudio.
    destruct (audioSubscribers c !! id) as [r|]; [|done]. simpl.
    pose proof (onChan_sameRest chanClose r c) as (_&_&_&_&_&_&Hf&_).
    by rewrite Hf.
  - rewrite broadcastAudio_applyAll. by rewrite applyAll_frameSubscribers.
  - pose proof (onChan_sameRest receive ref0 c) as (_&_&_&_&_&_&Hf&_).
    by rewrite Hf.
Qed.

(** A running capturer stays running over a step that keeps the wait
    going, unless the step is the last section of a [Stop]. *)
Lemma keepsWaiting_running sid c a :
  keepsWaiting sid a = true → a ≠ AStopped →
  running c = true → running (step c a) = true.
Proof.
  intros Hk Hne Hrun.
  destruct a; try discriminate Hk; try done; cbn [step].
  - unfold Start. by rewrite Hrun.
  - unfold stopCapture. by destruct (cmd c && cmdProcess c).
  - rewrite closeAudioSubscribers_eq. cbn [running setAudioSubscribers].
    by destruct (applyAll_sameRest chanClose
                   (tableRefs (audioSubscribers c)) c) as (_&_&->&_).
  - unfold UnsubscribeFrames.
    destruct (frameSubscribers c !! id) as [r|]; [|done]. simpl.
    by destruct (onChan_sameRest chanClose r c) as (_&_&->&_).
  - unfold UnsubscribeAudio.
    destruct (audioSubscribers c !! id) as [r|]; [|done]. simpl.
    by destruct (onChan_sameRest chanClose r c) as (_&_&->&_).
  - rewrite broadcastAudio_applyAll.
    by destruct (applyAll_sameRest (sendOrDrop audio)
                   (tableRefs (audioSubscribers c)) c) as (_&_&->&_).
  - by destruct (onChan_sameRest receive ref c) as (_&_&->&_).
Qed.

(** A step that closes the queue of the subscription leaves it closed and
    empty. *)
Lemma closesQueue_step sid ref c a :
  wf c → waiting ref c → frameSubscribers c !! sid = Some ref →
  closesQueue sid a = true → (a = AStop → running c = true) →
  chans (step c a) !! ref = Some (mkChan [] frameQueueSize 1).
Proof.
  intros Hwf Hw Hsid Hcl Hstop.
  assert (ref ∈ tableRefs (frameSubscribers c)) as Hin
    by (apply elem_of_tableRefs; eauto).
  destruct a; try discriminate Hcl; cbn [step].
  - destruct (Stop_running c Hwf (Hstop eq_refl)) as (_ & _ & _ & Hch).
    rewrite Hch, decide_True by (by left). by rewrite (proj1 Hw).
  - rewrite closeFrameSubscribers_eq. cbn [chans setFrameSubscribers].
    rewrite applyAll_chans by apply NoDup_tableRefs, Hwf.
    rewrite decide_True by done. by rewrite (proj1 Hw).
  - apply bool_decide_eq_true in Hcl as ->.
    unfold UnsubscribeFrames. rewrite Hsid.
    cbn [chans setFrameSubscribers].
    rewrite onChan_chans, decide_True by done. by rewrite (proj1 Hw).
Qed.

(** The queue is closed during the wait: the [select] takes the zero value
    it hands out, before the timer fires. *)
Lemma awaitFrame_closing sid ref t a rest pre : ∀ elapsed c,
  wf c → waiting ref c → frameSubscribers c !! sid = Some ref →
  Forall (λ ta, ta.1 < getFrameTimeout ∧ keepsWaiting sid ta.2 = true) pre →
  t < getFrameTimeout → 0 ≤ elapsed < getFrameTimeout →
  closesQueue sid a = true →
  (a = AStop → running c = true ∧ Forall (λ ta, ta.2 ≠ AStopped) pre) →
  let r := awaitFrame ref elapsed (pre ++ (t, a) :: rest) c in
  r.1.1 = GotFrame None ∧ 0 ≤ r.1.2 < getFrameTimeout.
Proof.
  induction pre as [|[t' a'] pre IH];
    intros elapsed c Hwf Hw Hsid Hpre Ht He Hcl Hstop;
    cbn [app awaitFrame]; rewrite (proj1 Hw);
    cbn [fmap option_fmap option_map tryRecv makeChan buf isClosed closes
         bool_decide decide_rel].
  - destruct (getFrameTimeout <=? t) eqn:Hle; [apply Z.leb_le in Hle; lia|].
    assert (chans (step c a) !! ref = Some (mkChan [] frameQueueSize 1)) as Hr.
    { apply (closesQueue_step sid); [done..|]. intros Ha. by apply Hstop. }
    destruct rest as [|[t2 a2] rest]; cbn [awaitFrame]; rewrite Hr; simpl;
      (split; [done|lia]).
  - apply Forall_cons in Hpre as [[Ht' Hk] Hpre]. cbn [fst snd] in Ht', Hk.
    destruct (getFrameTimeout <=? t') eqn:Hle; [apply Z.leb_le in Hle; lia|].
    apply IH; [by apply wf_step| | |done|done|lia|done|].
    + by apply (keepsWaiting_waiting sid).
    + by apply keepsWaiting_subscription.
    + intros Ha. destruct (Hstop Ha) as [Hrun Hall].
      apply Forall_cons in Hall as [Hne Hall]. cbn [snd] in Hne.
      split; [|done]. by apply (keepsWaiting_running sid).
Qed.

Lemma emitFrame_chans c frame r :
  wf c →
  chans (emitFrame c frame) !! r
  = if decide (r ∈ tableRefs (frameSubscribers c))
    then (λ ch, (sendDropOldest frame ch).1) <$> chans c !! r
    else chans c !! r.
Proof.
  intros Hwf. unfold emitFrame. rewrite broadcastFrame_applyAll.
  cbn [frameSubscribers setLastFrame].
  by rewrite applyAll_chans by apply NoDup_tableRefs, Hwf.
Qed.

Lemma sendDropOldest_fresh frame :
  sendDropOldest frame (makeChan frameQueueSize)
  = (mkChan [frame] frameQueueSize 0, false).
Proof. by vm_compute. Qed.

Lemma awaitFrame_arrival sid ref frame t rest pre : ∀ elapsed c,
  wf c → waiting ref c → frameSubscribers c !! sid = Some ref →
  Forall (λ ta, ta.1 < getFrameTimeout ∧ keepsWaiting sid ta.2 = true) pre →
  t < getFrameTimeout → 0 ≤ elapsed < getFrameTimeout →
  let r := awaitFrame ref elapsed (pre ++ (t, AEmitFrame frame) :: rest) c in
  r.1.1 = GotFrame (Some frame) ∧ 0 ≤ r.1.2 < getFrameTimeout.
Proof.
  induction pre as [|[t' a] pre IH]; intros elapsed c Hwf Hw Hsid Hpre Ht He;
    cbn [app awaitFrame]; rewrite (proj1 Hw);
    cbn [fmap option_fmap option_map tryRecv makeChan buf isClosed closes
         bool_decide decide_rel].
  - destruct (getFrameTimeout <=? t) eqn:Hle; [apply Z.leb_le in Hle; lia|].
    assert (chans (step c (AEmitFrame frame)) !! ref
            = Some (mkChan [frame] frameQueueSize 0)) as Hr.
    { cbn [step]. rewrite emitFrame_chans by done.
      rewrite decide_True by (apply elem_of_tableRefs; eauto).
      rewrite (proj1 Hw). cbn [fmap option_fmap option_map].
      by rewrite sendDropOldest_fresh. }
    destruct rest as [|[t2 a2] rest]; cbn [awaitFrame]; rewrite Hr; simpl;
      (split; [done|lia]).
  - apply Forall_cons in Hpre as [[Ht' Hk] Hpre]. cbn [fst snd] in Ht', Hk.
    destruct (getFrameTimeout <=? t') eqn:Hle; [apply Z.leb_le in Hle; lia|].
    apply IH; [by apply wf_step| | |done|done|lia].
    + by apply (keepsWaiting_waiting sid).
    + by apply keepsWaiting_subscription.
Qed.


End GetFrameProps.




(** C10. [GetFrame] on a capturer that is not running returns the error at
    once: no time passes, the capturer is unchanged, so no subscription is
    made, and no frame is returned, cached or not. *)
Theorem getFrame_not_running (now : Z) (sched : list (Z * Capture.Action))
    (c : Capture.Capturer) :
  Capture.running c = false →
  Capture.GetFrame now sched c = ((None, Some Capture.ErrNotRunning), 0, c).
Proof.
  intros Hrun. unfold Capture.GetFrame. by rewrite Hrun.
Qed.

Lemma getFrame_not_running_witness :
  Capture.running stoppedWithFrame = false
  ∧ Capture.lastFrame stoppedWithFrame = Some [xff; xd8; x41; xff; xd9]
  ∧ Capture.GetFrame 1700000000
      [(1000, Capture.AEmitFrame [xff; xd8; x42; xff; xd9])] stoppedWithFrame
    = ((None, Some Capture.ErrNotRunning), 0, stoppedWithFrame).
Proof.
  assert (H : Capture.running stoppedWithFrame = false)
    by (vm_compute; reflexivity).
  split; [exact H|]. split; [vm_compute; reflexivity|].
  exact (getFrame_not_running 1700000000
           [(1000, Capture.AEmitFrame [xff; xd8; x42; xff; xd9])]
           stoppedWithFrame H).
Defined.

(** ** The pipeline managers *)

Section Managers.

Lemma StartStream_cameras env id url m :
  Rtmp.cameras (Rtmp.StartStream env id url m).2 = Rtmp.cameras m.
Proof.
  unfold Rtmp.StartStream. case_bool_decide; [done|].
  destruct (Rtmp.cameras m !! id) as [cam|]; [|done].
  destruct (Capture.GetCapturer id (Rtmp.captureManager m)) as [[c|] e]; [|done].
  destruct (negb (Capture.IsRunning c)); [done|].
  by destruct (Rtmp.StreamerStart env (Rtmp.NewStreamer id url))
    as [[[err|] s] n].
Qed.

Lemma call_cameras m k : Rtmp.cameras (Rtmp.call m k) = Rtmp.cameras m.
Proof.
  destruct k; simpl.
  - apply StartStream_cameras.
  - unfold Rtmp.StopStream. by destruct (Rtmp.streamers m !! cameraID).
  - unfold Rtmp.processExited.
    destruct (Rtmp.streamers m !! cameraID) as [s|]; [|done].
    by destruct (Rtmp.running s).
  - done.
Qed.

Lemma streamersRegistered_call m k :
  streamersRegistered m → streamersRegistered (Rtmp.call m k).
Proof.
  intros Hm id s. rewrite call_cameras. destruct k; simpl.
  - unfold Rtmp.StartStream. case_bool_decide; [apply Hm|].
    destruct (Rtmp.cameras m !! cameraID) as [cam|] eqn:Hcam; [|apply Hm].
    destruct (Capture.GetCapturer cameraID (Rtmp.captureManager m))
      as [[c|] e]; [|apply Hm].
    destruct (negb (Capture.IsRunning c)); [apply Hm|].
    destruct (Rtmp.StreamerStart env (Rtmp.NewStreamer cameraID rtmpURL))
      as [[[err|] s'] n]; [apply Hm|].
    simpl. intros [[<- _]|[_ Hs]]%lookup_insert_Some; [by rewrite Hcam|].
    by eapply Hm.
  - unfold Rtmp.StopStream.
    destruct (Rtmp.streamers m !! cameraID); simpl; [|apply Hm].
    intros [_ Hs]%lookup_delete_Some. by eapply Hm.
  - unfold Rtmp.processExited.
    destruct (Rtmp.streamers m !! cameraID) as [s'|] eqn:Hs'; [|apply Hm].
    destruct (Rtmp.running s'); [|apply Hm]. simpl.
    intros [[<- _]|[_ Hs]]%lookup_insert_Some; by eapply Hm.
  - apply Hm.
Qed.

Lemma streamersRegistered_calls ks : ∀ m,
  streamersRegistered m → streamersRegistered (Rtmp.calls m ks).
Proof.
  induction ks as [|k ks IH]; intros m Hm; [done|].
  apply IH. by apply streamersRegistered_call.
Qed.

Lemma streamersRegistered_new caps cams :
  streamersRegistered (Rtmp.NewManager caps cams).
Proof. intros id s H. simpl in H. by rewrite lookup_empty in H. Qed.

(** The check that comes first in [StartStream] and [StartOutput]. *)
Lemma StartStream_active env id url m s :
  Rtmp.streamers m !! id = Some s → Rtmp.running s = true →
  Rtmp.StartStream env id url m = (Some Rtmp.ErrAlreadyStreaming, m).
Proof.
  intros Hs Hrun. unfold Rtmp.StartStream.
  rewrite bool_decide_eq_true_2; [done|]. by rewrite Hs; simpl; rewrite Hrun.
Qed.

Lemma StartOutput_active env id m h :
  Stream.outputs m !! id = Some h → Stream.running h = true →
  Stream.StartOutput env id m = (Some Stream.ErrAlreadyRunning, m).
Proof.
  intros Hs Hrun. unfold Stream.StartOutput.
  rewrite bool_decide_eq_true_2; [done|]. by rewrite Hs; simpl; rewrite Hrun.
Qed.

(** A start that succeeds spawns one process and registers a running
    pipeline. *)
Lemma StartStream_ok env id url m :
  (Rtmp.StartStream env id url m).1 = None →
  Rtmp.procs (Rtmp.StartStream env id url m).2 = S (Rtmp.procs m)
  ∧ Rtmp.running <$> Rtmp.streamers (Rtmp.StartStream env id url m).2 !! id
    = Some true.
Proof.
  unfold Rtmp.StartStream. case_bool_decide; [done|].
  destruct (Rtmp.cameras m !! id) as [cam|]; [|done].
  destruct (Capture.GetCapturer id (Rtmp.captureManager m)) as [[c|] e]; [|done].
  destruct (negb (Capture.IsRunning c)); [done|].
  destruct env; simpl; try done. intros _.
  split; [lia|]. by rewrite lookup_insert_eq.
Qed.

Lemma StartOutput_ok env id m :
  (Stream.StartOutput env id m).1 = None →
  Stream.procs (Stream.StartOutput env id m).2 = S (Stream.procs m)
  ∧ Stream.running <$> Stream.outputs (Stream.StartOutput env id m).2 !! id
    = Some true.
Proof.
  unfold Stream.StartOutput. case_bool_decide; [done|].
  destruct (Stream.cameras m !! id) as [cam|]; [|done].
  destruct (Capture.GetCapturer id (Stream.captureManager m)) as [[c|] e]; [|done].
  destruct env; simpl; try done. intros _.
  split; [lia|]. by rewrite lookup_insert_eq.
Qed.

(** The push-stream manager refuses a capturer that is not running. *)
Lemma StartStream_capturer_stopped env id url m cam c :
  Rtmp.running <$> Rtmp.streamers m !! id ≠ Some true →
  Rtmp.cameras m !! id = Some cam →
  Rtmp.captureManager m !! id = Some c →
  Capture.running c = false →
  Rtmp.StartStream env id url m = (Some Rtmp.ErrCapturerNotRunning, m).
Proof.
  intros Hs Hcam Hc Hrun. unfold Rtmp.StartStream, Capture.GetCapturer.
  rewrite bool_decide_eq_false_2 by done.
  rewrite Hcam, Hc. unfold Capture.IsRunning. by rewrite Hrun.
Qed.

(** The segmented-file manager does not look at the capturer's state. *)
Lemma StartOutput_capturer_ignored id m cam c :
  Stream.running <$> Stream.outputs m !! id ≠ Some true →
  Stream.cameras m !! id = Some cam →
  Stream.captureManager m !! id = Some c →
  (Stream.StartOutput Stream.SpawnOk id m).1 = None
  ∧ Stream.procs (Stream.StartOutput Stream.SpawnOk id m).2 = S (Stream.procs m)
  ∧ Stream.running <$> Stream.outputs (Stream.StartOutput Stream.SpawnOk id m).2 !! id
    = Some true.
Proof.
  intros Hout Hcam Hc. unfold Stream.StartOutput, Capture.GetCapturer.
  rewrite bool_decide_eq_false_2 by done.
  rewrite Hcam, Hc. simpl. split; [done|]. split; [lia|].
  by rewrite lookup_insert_eq.
Qed.

End Managers.

(** C7. [Start] on a running capturer returns no error and changes
    nothing, whatever the operating system would answer to a spawn.
    [StartStream] for a camera whose streamer is running, and [StartOutput]
    for a camera whose output is running, return the already-active error
    and change nothing, so any number of repeated calls give the same. After
    a start that succeeded, one more process is alive than before, and a
    second start for the same camera returns the already-active error and
    leaves that count. *)
Theorem start_twice_is_refused :
  (∀ env c, Capture.running c = true →
     Capture.Start env c = (None, c)
     ∧ ∀ n, Nat.iter n (λ c, (Capture.Start env c).2) c = c)
  ∧ (∀ env id url m s,
       Rtmp.streamers m !! id = Some s → Rtmp.running s = true →
       Rtmp.StartStream env id url m = (Some Rtmp.ErrAlreadyStreaming, m)
       ∧ ∀ n, Nat.iter n (λ m, (Rtmp.StartStream env id url m).2) m = m)
  ∧ (∀ env1 env2 id url1 url2 m,
       (Rtmp.StartStream env1 id url1 m).1 = None →
       let m1 := (Rtmp.StartStream env1 id url1 m).2 in
       Rtmp.procs m1 = S (Rtmp.procs m)
       ∧ Rtmp.StartStream env2 id url2 m1 = (Some Rtmp.ErrAlreadyStreaming, m1))
  ∧ (∀ env id m h,
       Stream.outputs m !! id = Some h → Stream.running h = true →
       Stream.StartOutput env id m = (Some Stream.ErrAlreadyRunning, m)
       ∧ ∀ n, Nat.iter n (λ m, (Stream.StartOutput env id m).2) m = m)
  ∧ (∀ env1 env2 id m,
       (Stream.StartOutput env1 id m).1 = None →
       let m1 := (Stream.StartOutput env1 id m).2 in
       Stream.procs m1 = S (Stream.procs m)
       ∧ Stream.StartOutput env2 id m1 = (Some Stream.ErrAlreadyRunning, m1)).
Proof.
  split; [|split; [|split; [|split]]].
  - intros env c Hrun.
    assert (Capture.Start env c = (None, c)) as Hstart
      by (unfold Capture.Start; by rewrite Hrun).
    split; [done|]. induction n as [|n IH]; [done|].
    simpl. by rewrite IH, Hstart.
  - intros env id url m s Hs Hrun.
    pose proof (StartStream_active env id url m s Hs Hrun) as Hstart.
    split; [done|]. induction n as [|n IH]; [done|].
    simpl. by rewrite IH, Hstart.
  - intros env1 env2 id url1 url2 m Hok m1.
    destruct (StartStream_ok env1 id url1 m Hok) as [Hprocs Hrun].
    fold m1 in Hprocs, Hrun. split; [done|].
    destruct (Rtmp.streamers m1 !! id) as [s|] eqn:Hs; [|done].
    apply (StartStream_active env2 id url2 m1 s Hs). by injection Hrun.
  - intros env id m h Hh Hrun.
    pose proof (StartOutput_active env id m h Hh Hrun) as Hstart.
    split; [done|]. induction n as [|n IH]; [done|].
    simpl. by rewrite IH, Hstart.
  - intros env1 env2 id m Hok m1.
    destruct (StartOutput_ok env1 id m Hok) as [Hprocs Hrun].
    fold m1 in Hprocs, Hrun. split; [done|].
    destruct (Stream.outputs m1 !! id) as [h|] eqn:Hh; [|done].
    apply (StartOutput_active env2 id m1 h Hh). by injection Hrun.
Qed.

Lemma start_twice_is_refused_witness :
  let m1 := (Rtmp.StartStream Capture.SpawnOk "cam1" "rtmp://a/live"
               sampleRtmp).2 in
  (Rtmp.StartStream Capture.SpawnOk "cam1" "rtmp://a/live" sampleRtmp).1 = None
  ∧ Rtmp.procs m1 = 1%nat
  ∧ Rtmp.StartStream Capture.SpawnOk "cam1" "rtmp://b/live" m1
    = (Some Rtmp.ErrAlreadyStreaming, m1).
Proof.
  intros m1.
  assert (H : (Rtmp.StartStream Capture.SpawnOk "cam1" "rtmp://a/live"
                 sampleRtmp).1 = None) by (vm_compute; reflexivity).
  split; [exact H|].
  exact (proj1 (proj2 (proj2 start_twice_is_refused))
           Capture.SpawnOk Capture.SpawnOk "cam1" "rtmp://a/live"
           "rtmp://b/live" sampleRtmp H).
Defined.

(** C8. In every state the push-stream manager can reach, [StartStream]
    for a camera id that is not registered returns the camera-not-found
    error and leaves the manager as it was: the same processes, the same
    streamers and feeds, and the same capturers with the same
    subscriptions. *)
Theorem start_unregistered_camera (capturers : gmap string Capture.Capturer)
    (cams : list Config.CameraConfig) (ks : list Rtmp.Call)
    (env : Capture.SpawnEnv) (id url : string) :
  let m := Rtmp.calls (Rtmp.NewManager capturers cams) ks in
  Rtmp.cameras m !! id = None →
  Rtmp.StartStream env id url m = (Some Rtmp.ErrCameraNotFound, m).
Proof.
  intros m Hcam.
  assert (Hreg : streamersRegistered m)
    by apply streamersRegistered_calls, streamersRegistered_new.
  unfold Rtmp.StartStream. rewrite Hcam.
  rewrite bool_decide_eq_false_2; [done|].
  destruct (Rtmp.streamers m !! id) as [s|] eqn:Hs; [|done].
  apply Hreg in Hs as [cam Hs]. congruence.
Qed.

Lemma start_unregistered_camera_witness :
  let ks := [Rtmp.CStartStream Capture.SpawnOk "cam1" "rtmp://a/live";
             Rtmp.CCapturer "cam1" (Capture.AEmitFrame [xff; xd8; xff; xd9])] in
  let m := Rtmp.calls (Rtmp.NewManager sampleCapturers sampleCameras) ks in
  Rtmp.cameras m !! "cam3" = None
  ∧ Rtmp.StartStream Capture.SpawnOk "cam3" "rtmp://a/live" m
    = (Some Rtmp.ErrCameraNotFound, m).
Proof.
  intros ks m.
  assert (H : Rtmp.cameras m !! "cam3" = None) by (vm_compute; reflexivity).
  split; [exact H|].
  exact (start_unregistered_camera sampleCapturers sampleCameras ks
           Capture.SpawnOk "cam3" "rtmp://a/live" H).
Defined.

(** C2 fails for the segmented-file manager. On the registry above,
    camera cam2 is registered and has a capturer that was never started.
    [StartStream] returns the capturer-not-running error for it and leaves
    the manager as it was. [StartOutput], which never looks at whether the
    capturer runs, returns no error, registers a running output and leaves
    one process alive where there was none. *)
Theorem start_output_ignores_stopped_capturer :
  Capture.IsRunning <$> sampleCapturers !! "cam2" = Some false
  ∧ Rtmp.StartStream Capture.SpawnOk "cam2" "rtmp://a/live" sampleRtmp
    = (Some Rtmp.ErrCapturerNotRunning, sampleRtmp)
  ∧ (Stream.StartOutput Stream.SpawnOk "cam2" sampleHls).1 = None
  ∧ Stream.procs sampleHls = 0%nat
  ∧ Stream.procs (Stream.StartOutput Stream.SpawnOk "cam2" sampleHls).2 = 1%nat
  ∧ Stream.running
      <$> Stream.outputs (Stream.StartOutput Stream.SpawnOk "cam2" sampleHls).2 !! "cam2"
    = Some true.
Proof.
  assert (Hc : sampleCapturers !! "cam2" = Some (Capture.NewAVCapturer cam2))
    by (vm_compute; reflexivity).
  assert (Hcam : Rtmp.cameras sampleRtmp !! "cam2" = Some cam2)
    by (vm_compute; reflexivity).
  split; [by rewrite Hc|]. split.
  { by apply (StartStream_capturer_stopped _ _ _ _ cam2
                (Capture.NewAVCapturer cam2)). }
  destruct (StartOutput_capturer_ignored "cam2" sampleHls cam2
              (Capture.NewAVCapturer cam2)) as (Herr & Hprocs & Hrun);
    [done..|].
  rewrite Hprocs. done.
Qed.

(** * Further properties

    The rest of the capture package, the calls of the managers that were
    left out above, the input paths of the push streamer and of the RTP
    bridge, the snapshot endpoint, the performance monitor and the
    defaults of the configuration. *)

(** ** findBytes *)

Section FindBytes.
Import Capture.

Lemma matchAt_nil data : matchAt data [] = true.
Proof. by destruct data. Qed.

Lemma matchAt_complete pattern : ∀ post,
  matchAt (pattern ++ post) pattern = true.
Proof.
  induction pattern as [|p ps IH]; intros post; [apply matchAt_nil|].
  simpl. rewrite IH, andb_true_r. by apply byte_dec_lb.
Qed.

(** The comparison looks at the first [len pattern] bytes only. *)
Lemma matchAt_app pattern : ∀ data more,
  (length pattern ≤ length data)%nat →
  matchAt (data ++ more) pattern = matchAt data pattern.
Proof.
  induction pattern as [|p ps IH]; intros data more Hlen;
    [by rewrite !matchAt_nil|].
  destruct data as [|d ds]; simpl in Hlen; [lia|].
  simpl. rewrite IH by lia. done.
Qed.

Lemma findFrom_eq i data pattern :
  findFrom i data pattern
  = if len data <? len pattern then -1
    else if matchAt data pattern then i
    else match data with
         | [] => -1
         | _ :: ds => findFrom (i + 1) ds pattern
         end.
Proof. by destruct data. Qed.

Lemma findFrom_complete pattern post : ∀ pre i,
  i ≤ findFrom i (pre ++ pattern ++ post) pattern ≤ i + len pre.
Proof.
  induction pre as [|d pre IH]; intros i; rewrite findFrom_eq; cbn [app].
  - destruct (len (pattern ++ post) <? len pattern) eqn:Hlt.
    { apply Z.ltb_lt in Hlt. rewrite len_app in Hlt. unfold len in *. lia. }
    rewrite matchAt_complete.
    destruct (pattern ++ post); unfold len; simpl; lia.
  - destruct (len (d :: pre ++ pattern ++ post) <? len pattern) eqn:Hlt.
    { apply Z.ltb_lt in Hlt. unfold len in Hlt.
      simpl in Hlt. rewrite !length_app in Hlt. lia. }
    destruct (matchAt (d :: pre ++ pattern ++ post) pattern).
    + unfold len. simpl. lia.
    + specialize (IH (i + 1)). unfold len in *. simpl length. lia.
Qed.

Lemma findBytes_complete pattern pre post :
  pattern ≠ [] →
  0 ≤ findBytes (pre ++ pattern ++ post) pattern ≤ len pre.
Proof.
  intros Hne. unfold findBytes.
  assert ((len pattern =? 0) = false) as ->.
  { apply Z.eqb_neq. destruct pattern; [done|]. unfold len. simpl. lia. }
  assert ((len (pre ++ pattern ++ post) <? len pattern) = false) as ->.
  { apply Z.ltb_ge. rewrite !len_app. unfold len. lia. }
  simpl. pose proof (findFrom_complete pattern post pre 0). lia.
Qed.

Lemma findFrom_app pattern more data : ∀ i k,
  findFrom i data pattern = k → k ≠ -1 →
  findFrom i (data ++ more) pattern = k.
Proof.
  induction data as [|d ds IH]; intros i k Hk Hne; cbn [findFrom] in Hk.
  - destruct (len [] <? len pattern) eqn:Hlt; [lia|].
    apply Z.ltb_ge in Hlt. destruct pattern; [|unfold len in Hlt; simpl in Hlt; lia].
    simpl in Hk. subst k. destruct more; reflexivity.
  - destruct (len (d :: ds) <? len pattern) eqn:Hlt; [lia|].
    apply Z.ltb_ge in Hlt.
    assert (length pattern ≤ length (d :: ds))%nat as Hle
      by (unfold len in Hlt; lia).
    cbn [app findFrom].
    assert ((len (d :: ds ++ more) <? len pattern) = false) as ->.
    { apply Z.ltb_ge. unfold len in *. simpl length in *.
      rewrite length_app. lia. }
    change (d :: ds ++ more) with ((d :: ds) ++ more).
    rewrite matchAt_app by done.
    destruct (matchAt (d :: ds) pattern); [done|].
    by apply IH.
Qed.

(** A hit is not moved by bytes that arrive later. *)
Lemma findBytes_app data pattern more k :
  findBytes data pattern = k → k ≠ -1 →
  findBytes (data ++ more) pattern = k.
Proof.
  unfold findBytes. intros Hk Hne.
  destruct (len pattern =? 0) eqn:Hp; [simpl in Hk; lia|].
  destruct (len data <? len pattern) eqn:Hlt; [simpl in Hk; lia|].
  simpl in *. apply Z.ltb_ge in Hlt.
  assert ((len (data ++ more) <? len pattern) = false) as ->.
  { apply Z.ltb_ge. rewrite len_app. unfold len in *. lia. }
  by apply findFrom_app.
Qed.

End FindBytes.

(** X1. [findBytes] returns the index of the first place where the pattern
    lies in the data: the pattern lies at the index returned, which is
    between 0 and [len data - len pattern], and at no smaller index. It
    returns -1 exactly when the pattern is empty or lies nowhere in the
    data. *)
Theorem findBytes_first_occurrence (data pattern : list byte) :
  let k := Capture.findBytes data pattern in
  (k ≠ -1 →
     occursAt data pattern k
     ∧ 0 ≤ k ≤ len data - len pattern
     ∧ ∀ j, occursAt data pattern j → k ≤ j)
  ∧ (k = -1 ↔ pattern = [] ∨ ∀ j, ¬ occursAt data pattern j).
Proof.
  intros k. subst k. split.
  - intros Hne.
    destruct (findBytes_found _ _ _ eq_refl Hne) as (pre & post & Hd & Hk).
    assert (pattern ≠ []) as Hp.
    { intros ->. by unfold Capture.findBytes in Hne. }
    split; [by exists pre, post|]. split.
    + rewrite Hk, Hd, !len_app. unfold len. lia.
    + intros j (pre' & post' & Hd' & <-). rewrite Hd' at 1.
      by apply findBytes_complete.
  - split.
    + intros Hk. destruct pattern as [|p ps]; [by left|]. right.
      intros j (pre & post & Hd & _). rewrite Hd in Hk.
      pose proof (findBytes_complete (p :: ps) pre post ltac:(done)). lia.
    + intros [->|Hno]; [done|].
      destruct (decide (Capture.findBytes data pattern = -1)) as [|Hne];
        [done|].
      destruct (findBytes_found _ _ _ eq_refl Hne) as (pre & post & Hd & Hk).
      exfalso. apply (Hno (len pre)). by exists pre, post.
Qed.

(** ** The video demux and the reads of the stream *)

Section DemuxReads.
Import Capture.

Lemma findBytes_bounds data pattern k :
  findBytes data pattern = k → k ≠ -1 → 0 ≤ k ∧ k + len pattern ≤ len data.
Proof.
  intros Hk Hne.
  destruct (findBytes_found _ _ _ Hk Hne) as (pre & post & -> & ->).
  rewrite !len_app. unfold len. lia.
Qed.

Lemma sliceFrom_app_le {A} lo (s t : list A) :
  0 ≤ lo ≤ len s → sliceFrom lo (s ++ t) = sliceFrom lo s ++ t.
Proof.
  intros Hlo. unfold sliceFrom. apply drop_app_le. unfold len in Hlo. lia.
Qed.

Lemma slice_app_le {A} lo hi (s t : list A) :
  0 ≤ lo ≤ hi → hi ≤ len s → slice lo hi (s ++ t) = slice lo hi s.
Proof.
  intros Hlo Hhi. unfold slice, len in *.
  rewrite drop_app_le by lia. apply take_app_le.
  rewrite length_drop. lia.
Qed.

Lemma len_sliceFrom {A} lo (s : list A) :
  0 ≤ lo ≤ len s → len (sliceFrom lo s) = len s - lo.
Proof.
  intros Hlo. unfold sliceFrom, len in *. rewrite length_drop. lia.
Qed.

(** A frame that is complete in the buffer is cut out the same way once
    more bytes have arrived. *)
Lemma nextFrame_app frameBuffer more frame rest :
  nextFrame frameBuffer = Some (frame, rest) →
  nextFrame (frameBuffer ++ more) = Some (frame, rest ++ more).
Proof.
  unfold nextFrame. intros H.
  destruct (findBytes frameBuffer jpegStart =? -1) eqn:Hs; [done|].
  apply Z.eqb_neq in Hs.
  destruct (findBytes_bounds _ _ _ eq_refl Hs) as [Hs0 Hs1].
  rewrite (findBytes_app _ _ more _ eq_refl Hs).
  apply Z.eqb_neq in Hs. rewrite Hs. apply Z.eqb_neq in Hs.
  set (s := findBytes frameBuffer jpegStart) in *.
  assert (len jpegStart = 2) as Hj by reflexivity. rewrite Hj in Hs1.
  rewrite sliceFrom_app_le by lia.
  destruct (findBytes (sliceFrom s frameBuffer) jpegEnd =? -1) eqn:He;
    [done|].
  apply Z.eqb_neq in He.
  destruct (findBytes_bounds _ _ _ eq_refl He) as [He0 He1].
  rewrite (findBytes_app _ _ more _ eq_refl He).
  apply Z.eqb_neq in He. rewrite He.
  set (e := findBytes (sliceFrom s frameBuffer) jpegEnd) in *.
  assert (len jpegEnd = 2) as Hj' by reflexivity. rewrite Hj' in He1.
  rewrite len_sliceFrom in He1 by lia.
  injection H as <- <-.
  rewrite slice_app_le by lia. by rewrite sliceFrom_app_le by lia.
Qed.

(** The scan of a buffer that has grown is the scan of what it held,
    followed by the scan of what that left together with the new bytes. *)
Lemma parseFrames_app more : ∀ frameBuffer,
  parseFrames (frameBuffer ++ more)
  = ((parseFrames frameBuffer).1
       ++ (parseFrames ((parseFrames frameBuffer).2 ++ more)).1,
     (parseFrames ((parseFrames frameBuffer).2 ++ more)).2).
Proof.
  intros fb. remember (length fb) as n eqn:Hn. revert fb Hn.
  induction n as [n IH] using lt_wf_ind. intros fb ->.
  rewrite (parseFrames_unfold fb).
  destruct (nextFrame fb) as [[frame rest]|] eqn:Hnext.
  - rewrite (parseFrames_unfold (fb ++ more)).
    rewrite (nextFrame_app _ more _ _ Hnext).
    apply nextFrame_shrinks in Hnext.
    rewrite (IH (length rest) Hnext rest eq_refl). done.
  - simpl. by destruct (parseFrames (fb ++ more)).
Qed.

Lemma parseFrames_suffix : ∀ frameBuffer,
  (parseFrames frameBuffer).2 `suffix_of` frameBuffer.
Proof.
  intros fb. remember (length fb) as n eqn:Hn. revert fb Hn.
  induction n as [n IH] using lt_wf_ind. intros fb ->.
  rewrite (parseFrames_unfold fb).
  destruct (nextFrame fb) as [[frame rest]|] eqn:Hnext; [|done].
  pose proof (nextFrame_shrinks _ _ _ Hnext) as Hlt.
  apply nextFrame_cuts in Hnext as (pre & body & -> & _ & _).
  simpl. rewrite app_assoc. apply suffix_app_r. by eapply IH.
Qed.

Lemma parseFrames_len frameBuffer :
  len (parseFrames frameBuffer).2 ≤ len frameBuffer.
Proof.
  pose proof (suffix_length _ _ (parseFrames_suffix frameBuffer)).
  unfold len. lia.
Qed.

Lemma truncateBuffer_small b : len b ≤ maxFrameBuffer → truncateBuffer b = b.
Proof.
  intros Hb. unfold truncateBuffer.
  by destruct (maxFrameBuffer <? len b) eqn:Hlt; [apply Z.ltb_lt in Hlt; lia|].
Qed.

Lemma demuxChunk_within frameBuffer chunk :
  len (parseFrames (frameBuffer ++ chunk)).2 ≤ maxFrameBuffer →
  demuxChunk frameBuffer chunk = parseFrames (frameBuffer ++ chunk).
Proof.
  intros Hb. unfold demuxChunk.
  destruct (parseFrames (frameBuffer ++ chunk)) as [frames remaining].
  simpl in Hb. by rewrite truncateBuffer_small.
Qed.

(** As long as the reader does not cut the buffer, the reads of a stream
    give what one scan of the stream gives. *)
Lemma demuxStream_within chunks : ∀ frameBuffer,
  nextFrame frameBuffer = None →
  withinCeiling frameBuffer chunks →
  demuxStream frameBuffer chunks = parseFrames (frameBuffer ++ concat chunks).
Proof.
  induction chunks as [|chunk chunks IH]; intros fb Hnone Hin.
  - simpl. rewrite app_nil_r, parseFrames_unfold. by rewrite Hnone.
  - cbn [demuxStream concat]. cbn [withinCeiling] in Hin.
    destruct Hin as [Hlen Hin].
    rewrite demuxChunk_within by done.
    rewrite app_assoc, (parseFrames_app (concat chunks) (fb ++ chunk)).
    pose proof (parseFrames_done (fb ++ chunk)) as Hd.
    destruct (parseFrames (fb ++ chunk)) as [frames fb1]. simpl in *.
    rewrite (IH fb1 Hd Hin).
    by destruct (parseFrames (fb1 ++ concat chunks)).
Qed.

Lemma withinCeiling_short chunks : ∀ frameBuffer,
  len frameBuffer + len (concat chunks) ≤ maxFrameBuffer →
  withinCeiling frameBuffer chunks.
Proof.
  induction chunks as [|chunk chunks IH]; intros fb Hlen; [done|].
  cbn [withinCeiling concat] in *. rewrite len_app in Hlen.
  pose proof (parseFrames_len (fb ++ chunk)) as Hl. rewrite len_app in Hl.
  assert (0 ≤ len (concat chunks)) by (unfold len; lia).
  split; [lia|]. apply IH. lia.
Qed.

Lemma withinCeiling_whole chunks :
  Forall (λ chunk, (parseFrames chunk).2 = []) chunks →
  withinCeiling [] chunks.
Proof.
  induction 1 as [|chunk chunks Hc _ IH]; [done|].
  cbn [withinCeiling]. rewrite app_nil_l, Hc. by split.
Qed.

(** What a frame cut out by one pass looks like. *)
Lemma nextFrame_shape frameBuffer frame rest :
  nextFrame frameBuffer = Some (frame, rest) →
  findBytes frame jpegStart = 0
  ∧ findBytes frame jpegEnd = len frame - 2
  ∧ 4 ≤ len frame.
Proof.
  intros H. pose proof (nextFrame_cuts _ _ _ H) as (pre & body & _ & Hf & _).
  split; [|split].
  - rewrite Hf.
    pose proof (findBytes_complete jpegStart [] (body ++ jpegEnd)
                  ltac:(done)) as Hc.
    rewrite app_nil_l in Hc. change (len (@nil byte)) with 0 in Hc. lia.
  - revert H. unfold nextFrame.
    destruct (findBytes frameBuffer jpegStart =? -1) eqn:Hs; [done|].
    set (s := findBytes frameBuffer jpegStart) in *.
    destruct (findBytes (sliceFrom s frameBuffer) jpegEnd =? -1) eqn:He;
      [done|].
    apply Z.eqb_neq in He.
    destruct (findBytes_found _ _ _ eq_refl He) as (pre2 & post2 & Hd & Hk).
    intros [= Hframe _].
    assert (frame = pre2 ++ jpegEnd) as ->.
    { rewrite <- Hframe. unfold slice. fold (sliceFrom s frameBuffer).
      rewrite Hk, Hd.
      replace (Z.to_nat (len pre2 + (s + 2) - s))
        with (length (pre2 ++ jpegEnd))
        by (rewrite length_app; unfold len; simpl; lia).
      by rewrite app_assoc, take_app_length. }
    pose proof (findBytes_complete jpegEnd pre2 [] ltac:(done)) as Hc.
    rewrite app_nil_r in Hc.
    assert (findBytes (pre2 ++ jpegEnd) jpegEnd ≠ -1) as Hne by lia.
    pose proof (findBytes_app _ _ post2 _ eq_refl Hne) as Happ.
    rewrite <- app_assoc, <- Hd, Hk in Happ.
    rewrite <- Happ, len_app. unfold len. simpl. lia.
  - rewrite Hf, !len_app. unfold len. simpl. lia.
Qed.

Lemma parseFrames_Forall (P : bytes → Prop) :
  (∀ fb frame rest, nextFrame fb = Some (frame, rest) → P frame) →
  ∀ frameBuffer, Forall P (parseFrames frameBuffer).1.
Proof.
  intros HP fb. remember (length fb) as n eqn:Hn. revert fb Hn.
  induction n as [n IH] using lt_wf_ind. intros fb ->.
  rewrite (parseFrames_unfold fb).
  destruct (nextFrame fb) as [[frame rest]|] eqn:Hnext; [|constructor].
  simpl. constructor; [by eapply HP|].
  eapply IH; [|done]. by apply nextFrame_shrinks in Hnext.
Qed.

Lemma demuxStream_Forall (P : bytes → Prop) :
  (∀ fb frame rest, nextFrame fb = Some (frame, rest) → P frame) →
  ∀ chunks frameBuffer, Forall P (demuxStream frameBuffer chunks).1.
Proof.
  intros HP. induction chunks as [|chunk chunks IH]; intros fb; [constructor|].
  cbn [demuxStream]. unfold demuxChunk.
  pose proof (parseFrames_Forall P HP (fb ++ chunk)) as Hf.
  destruct (parseFrames (fb ++ chunk)) as [frames remaining].
  specialize (IH (truncateBuffer remaining)).
  destruct (demuxStream (truncateBuffer remaining) chunks) as [more fb'].
  simpl in *. by apply Forall_app.
Qed.

End DemuxReads.

Lemma findBytes_first_occurrence_witness :
  Capture.findBytes [x00; xff; xd8; xff; xd8] Capture.jpegStart ≠ -1
  ∧ occursAt [x00; xff; xd8; xff; xd8] Capture.jpegStart
      (Capture.findBytes [x00; xff; xd8; xff; xd8] Capture.jpegStart).
Proof.
  assert (H : Capture.findBytes [x00; xff; xd8; xff; xd8] Capture.jpegStart
              ≠ -1) by (vm_compute; discriminate).
  split; [exact H|].
  exact (proj1 (proj1 (findBytes_first_occurrence
                         [x00; xff; xd8; xff; xd8] Capture.jpegStart) H)).
Defined.

(** X2. Every frame the demux emits, over any reads and from any working
    buffer, is at least four bytes long, begins with the start marker and
    holds the end marker at its very end and nowhere before: the scan stops
    a frame at the first end marker that follows the start marker. *)
Theorem demux_frames_end_at_first_marker (frameBuffer : list byte)
    (chunks : list (list byte)) :
  Forall (λ frame,
            Capture.findBytes frame Capture.jpegStart = 0
            ∧ Capture.findBytes frame Capture.jpegEnd = len frame - 2
            ∧ 4 ≤ len frame)
    (Capture.demuxStream frameBuffer chunks).1.
Proof.
  apply demuxStream_Forall. intros fb frame rest. apply nextFrame_shape.
Qed.

(** X3. As long as the buffer that each read leaves behind is within the
    2MB at which the reader cuts it, the frames the demux emits and the
    buffer it is left with do not depend on how the reads split the
    stream: they are those of one scan of the whole stream, so two ways of
    reading the same stream give the same frames. The buffer stays within
    the 2MB for every stream of at most 2MB in all, and, whatever the
    length of the stream, when every read ends where a frame ends. *)
Theorem demux_independent_of_reads (chunks chunks' : list (list byte)) :
  withinCeiling [] chunks →
  Capture.demuxStream [] chunks = Capture.parseFrames (concat chunks)
  ∧ (withinCeiling [] chunks' → concat chunks' = concat chunks →
     Capture.demuxStream [] chunks' = Capture.demuxStream [] chunks)
  ∧ (len (concat chunks') ≤ Capture.maxFrameBuffer →
     withinCeiling [] chunks')
  ∧ (Forall (λ chunk, (Capture.parseFrames chunk).2 = []) chunks' →
     withinCeiling [] chunks').
Proof.
  intros Hin.
  assert (∀ l, withinCeiling [] l →
               Capture.demuxStream [] l = Capture.parseFrames (concat l))
    as Hscan by (intros l; by apply (demuxStream_within l [])).
  split; [by apply Hscan|]. split; [|split].
  - intros Hin' Heq. by rewrite !Hscan, Heq.
  - intros Hlen. by apply withinCeiling_short.
  - apply withinCeiling_whole.
Qed.

Lemma demux_independent_of_reads_witness :
  let chunks := [[xff]; [xd8; x41; xff]; []; [xd9; x00; xff; xd8]] in
  let chunks' := [[xff; xd8; x41; xff; xd9]; [x00; xff]; [xd8]] in
  withinCeiling [] chunks
  ∧ Capture.demuxStream [] chunks = Capture.parseFrames (concat chunks)
  ∧ Capture.demuxStream [] chunks' = Capture.demuxStream [] chunks.
Proof.
  intros chunks chunks'.
  assert (H : withinCeiling [] chunks)
    by (vm_compute; repeat split; discriminate).
  assert (H' : withinCeiling [] chunks')
    by (vm_compute; repeat split; discriminate).
  split; [exact H|]. split.
  - exact (proj1 (demux_independent_of_reads chunks chunks' H)).
  - exact (proj1 (proj2 (demux_independent_of_reads chunks chunks' H))
             H' eq_refl).
Defined.

(** ** The audio reader *)

Section AudioReader.
Import Capture.

Lemma audioLoop_step fuel pipe :
  audioLoop (S fuel) pipe
  = if audioFrameSize <=? len pipe
    then slice 0 audioFrameSize pipe
           :: audioLoop fuel (sliceFrom audioFrameSize pipe)
    else [].
Proof.
  cbn [audioLoop]. unfold ReadFull.
  destruct (audioFrameSize <=? len pipe) eqn:Hle; [|done].
  rewrite Z.eqb_refl. f_equal.
  apply Z.leb_le in Hle. unfold slice, len in *.
  rewrite !drop_0, Z.sub_0_r. rewrite take_take. by rewrite Nat.min_id.
Qed.

Lemma audioLoop_enough n : ∀ m pipe,
  (length pipe ≤ n)%nat → (length pipe ≤ m)%nat →
  audioLoop n pipe = audioLoop m pipe.
Proof.
  assert (Hshort : ∀ k pipe, len pipe < audioFrameSize → audioLoop k pipe = []).
  { intros [|k] pipe Hlt; [done|]. rewrite audioLoop_step.
    by destruct (audioFrameSize <=? len pipe) eqn:Hle;
      [apply Z.leb_le in Hle; lia|]. }
  induction n as [|n IH]; intros m pipe Hn Hm.
  - rewrite !Hshort; [done|..];
      unfold len, audioFrameSize; lia.
  - destruct m as [|m].
    + rewrite !Hshort; [done|..]; unfold len, audioFrameSize; lia.
    + rewrite !audioLoop_step.
      destruct (audioFrameSize <=? len pipe) eqn:Hle; [|done].
      apply Z.leb_le in Hle. f_equal. unfold len, audioFrameSize in Hle.
      apply IH; unfold sliceFrom, audioFrameSize; rewrite length_drop; lia.
Qed.

Lemma audioBlocks_unfold pipe :
  audioBlocks pipe
  = if audioFrameSize <=? len pipe
    then slice 0 audioFrameSize pipe
           :: audioBlocks (sliceFrom audioFrameSize pipe)
    else [].
Proof.
  unfold audioBlocks. destruct pipe as [|b pipe]; [done|].
  cbn [length]. rewrite audioLoop_step.
  destruct (audioFrameSize <=? len (b :: pipe)) eqn:Hle; [|done].
  apply Z.leb_le in Hle. f_equal. unfold len, audioFrameSize in Hle.
  apply audioLoop_enough; unfold sliceFrom, audioFrameSize;
    rewrite length_drop; simpl length in *; lia.
Qed.

End AudioReader.

(** X4. The audio reader hands [broadcastAudio] blocks of exactly 1920
    bytes, as many as fit in the pipe, and their concatenation is the pipe
    up to a remainder shorter than one block, which is discarded. *)
Theorem audio_blocks_are_whole (pipe : list byte) :
  let blocks := Capture.audioBlocks pipe in
  Forall (λ block, len block = 1920) blocks
  ∧ len blocks = len pipe / 1920
  ∧ ∃ remainder,
      pipe = concat blocks ++ remainder
      ∧ len remainder = len pipe mod 1920.
Proof.
  simpl. remember (length pipe) as n eqn:Hn. revert pipe Hn.
  induction n as [n IH] using lt_wf_ind. intros pipe ->.
  rewrite audioBlocks_unfold. change Capture.audioFrameSize with 1920.
  destruct (1920 <=? len pipe) eqn:Hle.
  - apply Z.leb_le in Hle.
    assert (length (sliceFrom 1920 pipe) < length pipe)%nat as Hlt.
    { unfold sliceFrom, len in *. rewrite length_drop. lia. }
    destruct (IH _ Hlt (sliceFrom 1920 pipe) eq_refl)
      as (Hall & Hcount & remainder & Hcat & Hrem).
    assert (len (slice 0 1920 pipe) = 1920) as Hblock.
    { unfold slice, len in *. rewrite drop_0, length_take. lia. }
    assert (len (sliceFrom 1920 pipe) = len pipe - 1920) as Hrest.
    { unfold sliceFrom, len in *. rewrite length_drop. lia. }
    split; [by constructor|]. split.
    + unfold len in *. simpl length. rewrite Nat2Z.inj_succ, Hcount, Hrest.
      replace (Z.of_nat (length pipe)) with
        (1 * 1920 + (Z.of_nat (length pipe) - 1920)) at 2 by lia.
      rewrite Z_div_plus_full_l by lia. lia.
    + exists remainder. split.
      * simpl. rewrite <- app_assoc, <- Hcat. unfold slice, sliceFrom.
        rewrite drop_0. by rewrite take_drop.
      * rewrite Hrem, Hrest.
        replace (len pipe) with (len pipe - 1920 + 1 * 1920) at 2 by lia.
        by rewrite Z_mod_plus_full.
  - apply Z.leb_gt in Hle. split; [constructor|]. split.
    + pose proof (Z.div_small (len pipe) 1920). unfold len in *. simpl. lia.
    + exists pipe. split; [done|].
      rewrite Z.mod_small; [done|]. unfold len in *. lia.
Qed.

(** ** Queues over a run of broadcasts *)

Section Queues.
Import Capture.

Lemma drop_last_app {A} n (l k : list A) :
  drop (length (drop (length l - n) l ++ k) - n) (drop (length l - n) l ++ k)
  = drop (length (l ++ k) - n) (l ++ k).
Proof.
  rewrite <- (drop_app_le l k) by lia.
  rewrite drop_drop. f_equal.
  rewrite length_drop, !length_app. lia.
Qed.

Lemma take_first_app {A} n (l k : list A) :
  take n (take n l ++ k) = take n (l ++ k).
Proof.
  destruct (decide (length l ≤ n)%nat) as [Hle|Hgt].
  - by rewrite (take_ge l) by done.
  - rewrite (take_app_le l k) by lia.
    rewrite take_app_le by (rewrite length_take; lia).
    rewrite take_take. f_equal. lia.
Qed.

Lemma drop_oldest_step {A} n (l : list A) v :
  (length l ≤ n)%nat → n ≠ 0%nat →
  (if decide (length l < n)%nat then l ++ [v] else tail l ++ [v])
  = drop (length (l ++ [v]) - n) (l ++ [v]).
Proof.
  intros Hle Hn. rewrite length_app. simpl length. case_decide as Hlt.
  - by replace (length l + 1 - n)%nat with 0%nat by lia.
  - replace (length l + 1 - n)%nat with 1%nat by lia.
    destruct l as [|x l]; [simpl in *; lia|done].
Qed.

Lemma drop_newest_step {A} n (l : list A) v :
  (length l ≤ n)%nat →
  (if decide (length l < n)%nat then l ++ [v] else l) = take n (l ++ [v]).
Proof.
  intros Hle. case_decide as Hlt.
  - rewrite take_ge; [done|]. rewrite length_app. simpl. lia.
  - rewrite take_app_le by lia. by rewrite take_ge by lia.
Qed.

Lemma emitFrame_frameSubscribers c frame :
  frameSubscribers (emitFrame c frame) = frameSubscribers c.
Proof.
  unfold emitFrame. rewrite broadcastFrame_applyAll.
  by rewrite applyAll_frameSubscribers.
Qed.

Lemma broadcastAudio_audioSubscribers c audio :
  audioSubscribers (broadcastAudio audio c) = audioSubscribers c.
Proof.
  rewrite broadcastAudio_applyAll. by rewrite applyAll_audioSubscribers.
Qed.

(** A frame subscriber's queue after a run of frames: the last frames that
    fit. *)
Lemma emitFrames_queue frames : ∀ c sid ref ch,
  wf c → allSized c →
  frameSubscribers c !! sid = Some ref → chans c !! ref = Some ch →
  chans (foldl emitFrame c frames) !! ref
  = Some (mkChan (drop (length (buf ch ++ frames) - cap ch) (buf ch ++ frames))
            (cap ch) (closes ch)).
Proof.
  induction frames as [|f frames IH]; intros c sid ref ch Hwf Hsz Hsid Hr.
  - simpl. rewrite app_nil_r. destruct (Hsz _ _ Hr) as [Hlen _].
    replace (length (buf ch) - cap ch)%nat with 0%nat by lia.
    rewrite Hr. by destruct ch.
  - cbn [foldl].
    destruct (wf_frame_open _ Hwf _ _ Hsid) as (ch' & Hr' & Hopen).
    assert (ch' = ch) as -> by congruence.
    destruct (Hsz _ _ Hr) as [Hlen Hcap].
    assert (chans (emitFrame c f) !! ref
            = Some (mkChan (drop (length (buf ch ++ [f]) - cap ch)
                              (buf ch ++ [f])) (cap ch) (closes ch))) as Hr1.
    { rewrite emitFrame_chans by done.
      rewrite decide_True by (apply elem_of_tableRefs; eauto).
      rewrite Hr. simpl.
      rewrite sendDropOldest_open_sized by done. simpl.
      by rewrite drop_oldest_step. }
    rewrite (IH (emitFrame c f) sid ref _ (wf_emitFrame _ _ Hwf)
               (allSized_step c (AEmitFrame f) Hsz)
               ltac:(by rewrite emitFrame_frameSubscribers) Hr1).
    cbn [buf cap closes].
    rewrite drop_last_app. by rewrite <- app_assoc.
Qed.

(** An audio subscriber's queue after a run of blocks: the first blocks
    that fit. *)
Lemma broadcastAudios_queue blocks : ∀ c sid ref ch,
  wf c → allSized c →
  audioSubscribers c !! sid = Some ref → chans c !! ref = Some ch →
  chans (foldl (λ c block, broadcastAudio block c) c blocks) !! ref
  = Some (mkChan (take (cap ch) (buf ch ++ blocks)) (cap ch) (closes ch)).
Proof.
  induction blocks as [|b blocks IH]; intros c sid ref ch Hwf Hsz Hsid Hr.
  - simpl. rewrite app_nil_r. destruct (Hsz _ _ Hr) as [Hlen _].
    rewrite take_ge by done. rewrite Hr. by destruct ch.
  - cbn [foldl].
    destruct (wf_audio_open _ Hwf _ _ Hsid) as (ch' & Hr' & Hopen).
    assert (ch' = ch) as -> by congruence.
    destruct (Hsz _ _ Hr) as [Hlen Hcap].
    assert (chans (broadcastAudio b c) !! ref
            = Some (mkChan (take (cap ch) (buf ch ++ [b]))
                      (cap ch) (closes ch))) as Hr1.
    { rewrite broadcastAudio_chans by done.
      rewrite decide_True by (apply elem_of_tableRefs; eauto).
      rewrite Hr. simpl. rewrite sendOrDrop_open by done. simpl.
      rewrite <- drop_newest_step by done.
      case_decide; [done|by destruct ch]. }
    rewrite (IH (broadcastAudio b c) sid ref _ (wf_broadcastAudio _ _ Hwf)
               (allSized_step c (ABroadcastAudio b) Hsz)
               ltac:(by rewrite broadcastAudio_audioSubscribers) Hr1).
    cbn [buf cap closes].
    rewrite take_first_app. by rewrite <- app_assoc.
Qed.

End Queues.

(** X5. Let a capturer be in a state it can reach. After one read of the
    video stream has cut its frames, the queue of each frame subscriber
    holds the last frames that fit of what it held followed by the frames
    of the read, oldest first; after the audio reader has consumed a pipe,
    the queue of each audio subscriber holds the first blocks that fit of
    what it held followed by the blocks of the pipe. So with no receiver a
    frame queue ends with the newest frames and an audio queue keeps the
    oldest blocks. *)
Theorem queues_after_reads (cfg : Config.CameraConfig)
    (acts : list Capture.Action) :
  let c := Capture.run (Capture.NewAVCapturer cfg) acts in
  (∀ sid ref frameBuffer chunk,
     Capture.frameSubscribers c !! sid = Some ref →
     ∃ ch, Capture.chans c !! ref = Some ch
       ∧ let queued := Capture.buf ch
                       ++ (Capture.demuxChunk frameBuffer chunk).1 in
         Capture.chans (Capture.readChunk frameBuffer chunk c).2 !! ref
         = Some (Capture.mkChan
                   (drop (length queued - Capture.cap ch) queued)
                   (Capture.cap ch) (Capture.closes ch)))
  ∧ (∀ sid ref pipe,
       Capture.audioSubscribers c !! sid = Some ref →
       ∃ ch, Capture.chans c !! ref = Some ch
         ∧ Capture.chans (Capture.readAudioStream (Some pipe) c) !! ref
           = Some (Capture.mkChan
                     (take (Capture.cap ch)
                        (Capture.buf ch ++ Capture.audioBlocks pipe))
                     (Capture.cap ch) (Capture.closes ch))).
Proof.
  intros c.
  assert (Hwf : wf c) by apply wf_run, wf_new.
  assert (Hsz : allSized c) by apply allSized_run, allSized_new.
  split.
  - intros sid ref frameBuffer chunk Hsid.
    destruct (wf_frame_open _ Hwf _ _ Hsid) as (ch & Hr & _).
    exists ch. split; [done|]. intros queued. unfold Capture.readChunk.
    subst queued.
    destruct (Capture.demuxChunk frameBuffer chunk) as [frames fb].
    cbn [fst snd]. by eapply emitFrames_queue.
  - intros sid ref pipe Hsid.
    destruct (wf_audio_open _ Hwf _ _ Hsid) as (ch & Hr & _).
    exists ch. split; [done|]. cbn [Capture.readAudioStream].
    by eapply broadcastAudios_queue.
Qed.

Lemma queues_after_reads_witness :
  let chunk := [xff; xd8; x41; xff; xd9; xff; xd8; x42; xff; xd9] in
  Capture.frameSubscribers fullFrameQueue !! "viewer" = Some 0%nat
  ∧ ∃ ch, Capture.chans fullFrameQueue !! 0%nat = Some ch
      ∧ let queued := Capture.buf ch ++ (Capture.demuxChunk [] chunk).1 in
        Capture.chans (Capture.readChunk [] chunk fullFrameQueue).2 !! 0%nat
        = Some (Capture.mkChan
                  (drop (length queued - Capture.cap ch) queued)
                  (Capture.cap ch) (Capture.closes ch)).
Proof.
  intros chunk.
  assert (H : Capture.frameSubscribers fullFrameQueue !! "viewer" = Some 0%nat)
    by (vm_compute; reflexivity).
  split; [exact H|].
  exact (proj1 (queues_after_reads cam1
                  (Capture.AStart Capture.SpawnOk
                   :: Capture.ASubscribeFrames "viewer"
                   :: (Capture.AEmitFrame <$> take 30 sampleFrames)))
           "viewer" 0%nat [] chunk H).
Defined.

(** ** The cached frame *)

Section LastFrame.
Import Capture.

Lemma lastFrame_applyAll op refs c :
  lastFrame (applyAll op refs c) = lastFrame c.
Proof. by destruct (applyAll_sameRest op refs c) as (_&_&_&_&_&H&_). Qed.

Lemma lastFrame_onChan op ref c : lastFrame (onChan op ref c) = lastFrame c.
Proof. by destruct (onChan_sameRest op ref c) as (_&_&_&_&_&H&_). Qed.

Lemma lastFrame_stopCapture c : lastFrame (stopCapture c) = lastFrame c.
Proof. unfold stopCapture. by destruct (cmd c && cmdProcess c). Qed.

Lemma step_lastFrame c a :
  lastFrame (step c a)
  = match a with AEmitFrame frame => Some frame | _ => lastFrame c end.
Proof.
  destruct a; simpl.
  - unfold Start. destruct (running c); [done|]. by destruct env.
  - unfold Stop. destruct (running c); simpl; [|done].
    rewrite closeAudioSubscribers_eq. cbn [lastFrame setAudioSubscribers].
    rewrite lastFrame_applyAll, closeFrameSubscribers_eq.
    cbn [lastFrame setFrameSubscribers].
    by rewrite lastFrame_applyAll, lastFrame_stopCapture.
  - apply lastFrame_stopCapture.
  - rewrite closeFrameSubscribers_eq. cbn [lastFrame setFrameSubscribers].
    apply lastFrame_applyAll.
  - rewrite closeAudioSubscribers_eq. cbn [lastFrame setAudioSubscribers].
    apply lastFrame_applyAll.
  - done.
  - done.
  - unfold UnsubscribeFrames.
    destruct (frameSubscribers c !! id); [|done]. apply lastFrame_onChan.
  - done.
  - unfold UnsubscribeAudio.
    destruct (audioSubscribers c !! id); [|done]. apply lastFrame_onChan.
  - unfold emitFrame. rewrite broadcastFrame_applyAll.
    by rewrite lastFrame_applyAll.
  - rewrite broadcastAudio_applyAll. apply lastFrame_applyAll.
  - apply lastFrame_onChan.
Qed.

Lemma lastFrame_run acts : ∀ c,
  lastFrame (run c acts)
  = match last (emitted acts) with
    | Some frame => Some frame
    | None => lastFrame c
    end.
Proof.
  induction acts as [|a acts IH]; intros c; [done|].
  change (run c (a :: acts)) with (run (step c a) acts).
  rewrite IH, step_lastFrame.
  destruct a; cbn [emitted]; try done.
  rewrite last_cons. by destruct (last (emitted acts)).
Qed.

End LastFrame.

(** X6. The cached frame of a capturer is the last frame its reader has
    cut out, whatever steps came since: neither [Stop] nor a later [Start]
    clears it. So [GetFrame] on a running capturer that has ever emitted a
    frame returns the last one at once and without a change of state; after
    a restart that is the frame from before the stop. *)
Theorem cached_frame_survives_restart (cfg : Config.CameraConfig)
    (acts : list Capture.Action) (now : Z)
    (sched : list (Z * Capture.Action)) (frame : list byte) :
  let c := Capture.run (Capture.NewAVCapturer cfg) acts in
  Capture.lastFrame c = last (emitted acts)
  ∧ (Capture.running c = true →
     last (emitted acts) = Some frame →
     Capture.GetFrame now sched c = ((Some frame, None), 0, c)).
Proof.
  intros c.
  assert (Capture.lastFrame c = last (emitted acts)) as Hlast.
  { subst c. rewrite lastFrame_run. by destruct (last (emitted acts)). }
  split; [done|]. intros Hrun Hf. unfold Capture.GetFrame.
  by rewrite Hrun, Hlast, Hf.
Qed.

Lemma cached_frame_survives_restart_witness :
  let c := Capture.run (Capture.NewAVCapturer cam2) restartedActions in
  Capture.running c = true
  ∧ last (emitted restartedActions) = Some [xff; xd8; x41; xff; xd9]
  ∧ Capture.GetFrame 1700000000 [] c
    = ((Some [xff; xd8; x41; xff; xd9], None), 0, c).
Proof.
  intros c.
  assert (Hrun : Capture.running c = true) by (vm_compute; reflexivity).
  assert (Hf : last (emitted restartedActions) = Some [xff; xd8; x41; xff; xd9])
    by (vm_compute; reflexivity).
  split; [exact Hrun|]. split; [exact Hf|].
  exact (proj2 (cached_frame_survives_restart cam2 restartedActions
                  1700000000 [] [xff; xd8; x41; xff; xd9]) Hrun Hf).
Defined.

(** ** A frame that arrives while [GetFrame] waits *)

(** X7. A running capturer in a state it can reach has no cached frame,
    and [GetFrame] waits. If the steps other goroutines take before the
    timer fires leave the snapshot subscription in place, and the reader
    then emits a frame before the timer fires,
    [GetFrame] returns that frame and no error, in less than the 3
    seconds, and its snapshot id is no longer in the subscriber table. *)
Theorem getFrame_returns_arriving_frame (cfg : Config.CameraConfig)
    (acts : list Capture.Action) (now t : Z)
    (pre rest : list (Z * Capture.Action)) (frame : list byte) :
  let c := Capture.run (Capture.NewAVCapturer cfg) acts in
  Capture.running c = true →
  Capture.lastFrame c = None →
  Forall (λ ta, ta.1 < Capture.getFrameTimeout
                ∧ keepsWaiting (Capture.snapshotID now) ta.2 = true) pre →
  t < Capture.getFrameTimeout →
  let r := Capture.GetFrame now (pre ++ (t, Capture.AEmitFrame frame) :: rest) c
  in r.1.1 = (Some frame, None)
     ∧ 0 ≤ r.1.2 < Capture.getFrameTimeout
     ∧ Capture.frameSubscribers r.2 !! Capture.snapshotID now = None.
Proof.
  intros c Hrun Hlast Hpre Ht r. subst r.
  assert (Hwf : wf c) by apply wf_run, wf_new.
  unfold Capture.GetFrame. rewrite Hrun, Hlast. cbn [negb].
  set (subID := Capture.snapshotID now) in *.
  pose proof (waiting_subscribed subID c Hwf) as Hw.
  pose proof (wf_SubscribeFrames subID c Hwf) as Hwf1.
  assert (Capture.frameSubscribers (Capture.SubscribeFrames subID c).2
            !! subID = Some (length (Capture.chans c))) as Hsid
    by (simpl; apply lookup_insert_eq).
  destruct (Capture.SubscribeFrames subID c) as [ref c1] eqn:Hsub.
  assert (ref = length (Capture.chans c)) as Href
    by (by injection Hsub as <- _).
  cbn [snd] in Hw, Hwf1, Hsid. rewrite <- Href in Hw, Hsid.
  assert (0 ≤ 0 < Capture.getFrameTimeout) as H0
    by (unfold Capture.getFrameTimeout; lia).
  pose proof (awaitFrame_arrival subID ref frame t rest pre 0 c1
                Hwf1 Hw Hsid Hpre Ht H0) as [Hgot He].
  destruct (Capture.awaitFrame ref 0
              (pre ++ (t, Capture.AEmitFrame frame) :: rest) c1)
    as [[w e] c2].
  cbn [fst snd] in Hgot, He. subst w. cbn [fst snd].
  split; [done|]. split; [done|]. apply UnsubscribeFrames_lookup.
Qed.

Lemma getFrame_returns_arriving_frame_witness :
  let c := Capture.run (Capture.NewAVCapturer cam2)
             [Capture.AStart Capture.SpawnOk] in
  let pre := [(1000000000, Capture.ASubscribeFrames "viewer")] in
  let frame := [xff; xd8; x41; xff; xd9] in
  Capture.running c = true
  ∧ Capture.lastFrame c = None
  ∧ (Capture.GetFrame 1700000000
       (pre ++ [(2000000000, Capture.AEmitFrame frame)]) c).1.1
    = (Some frame, None).
Proof.
  intros c pre frame.
  assert (Hrun : Capture.running c = true) by (vm_compute; reflexivity).
  assert (Hlast : Capture.lastFrame c = None) by (vm_compute; reflexivity).
  assert (Hpre : Forall (λ ta, ta.1 < Capture.getFrameTimeout
                   ∧ keepsWaiting (Capture.snapshotID 1700000000) ta.2 = true)
                   pre).
  { repeat constructor. }
  assert (Ht : 2000000000 < Capture.getFrameTimeout)
    by (vm_compute; reflexivity).
  split; [exact Hrun|]. split; [exact Hlast|].
  exact (proj1 (getFrame_returns_arriving_frame cam2
                  [Capture.AStart Capture.SpawnOk] 1700000000 2000000000
                  pre [] frame Hrun Hlast Hpre Ht)).
Defined.

(** ** A subscription under an id in use *)

Section Resubscribe.
Import Capture.

Lemma untabled_refs ref c :
  untabled ref c →
  (ref ∉ tableRefs (frameSubscribers c))
  ∧ (ref ∉ tableRefs (audioSubscribers c)).
Proof.
  intros [Hf Ha]. split; intros [sid Hsid]%elem_of_tableRefs.
  - by apply (Hf sid).
  - by apply (Ha sid).
Qed.

(** No step puts a channel that exists back into a table. *)
Lemma untabled_step ref c a :
  (ref < length (chans c))%nat → untabled ref c → untabled ref (step c a).
Proof.
  intros Hlt [Hf Ha]. destruct a; simpl.
  - unfold Start. destruct (running c); [done|]. by destruct env.
  - unfold Stop. destruct (running c); simpl; [|done].
    rewrite closeAudioSubscribers_eq. split; intros sid; simpl.
    + rewrite applyAll_frameSubscribers, closeFrameSubscribers_eq. simpl.
      by rewrite lookup_empty.
    + by rewrite lookup_empty.
  - unfold untabled. by destruct (stopCapture_tables c) as [-> ->].
  - rewrite closeFrameSubscribers_eq. split; intros sid; simpl.
    + by rewrite lookup_empty.
    + by rewrite applyAll_audioSubscribers.
  - rewrite closeAudioSubscribers_eq. split; intros sid; simpl.
    + by rewrite applyAll_frameSubscribers.
    + by rewrite lookup_empty.
  - done.
  - split; [|done]. simpl.
    intros sid [[_ Heq]|[_ Hsid]]%lookup_insert_Some; [lia|].
    by apply (Hf sid).
  - unfold UnsubscribeFrames.
    destruct (frameSubscribers c !! id) as [r|]; [|done].
    pose proof (onChan_sameRest chanClose r c) as (_&_&_&_&_&_&_&Hae&_).
    split; simpl.
    + intros sid [_ Hsid]%lookup_delete_Some. by apply (Hf sid).
    + intros sid. rewrite Hae. apply Ha.
  - split; [done|]. simpl.
    intros sid [[_ Heq]|[_ Hsid]]%lookup_insert_Some; [lia|].
    by apply (Ha sid).
  - unfold UnsubscribeAudio.
    destruct (audioSubscribers c !! id) as [r|]; [|done].
    pose proof (onChan_sameRest chanClose r c) as (_&_&_&_&_&_&Hfe&_).
    split; simpl.
    + intros sid. rewrite Hfe. apply Hf.
    + intros sid [_ Hsid]%lookup_delete_Some. by apply (Ha sid).
  - unfold emitFrame. rewrite broadcastFrame_applyAll.
    split; intros sid.
    + rewrite applyAll_frameSubscribers. apply Hf.
    + rewrite applyAll_audioSubscribers. apply Ha.
  - rewrite broadcastAudio_applyAll. split; intros sid.
    + rewrite applyAll_frameSubscribers. apply Hf.
    + rewrite applyAll_audioSubscribers. apply Ha.
  - pose proof (onChan_sameRest receive ref0 c) as (_&_&_&_&_&_&Hfe&Hae&_).
    split; intros sid; [rewrite Hfe; apply Hf|rewrite Hae; apply Ha].
Qed.

Lemma receive_suffix ch : buf (receive ch).1 `suffix_of` buf ch.
Proof.
  unfold receive, tryRecv. destruct (buf ch) as [|v rest] eqn:Hb.
  - destruct (isClosed ch); simpl; by rewrite Hb.
  - simpl. by apply suffix_cons_r.
Qed.

(** A channel in no table is left alone by every step but a receive. *)
Lemma untabled_chan ref c a ch :
  wf c → untabled ref c → chans c !! ref = Some ch →
  ∃ ch', chans (step c a) !! ref = Some ch'
         ∧ closes ch' = closes ch ∧ buf ch' `suffix_of` buf ch.
Proof.
  intros Hwf Hun Hr. destruct (untabled_refs _ _ Hun) as [Hnf Hna].
  assert (∀ c', chans c' !! ref = chans c !! ref →
            ∃ ch', chans c' !! ref = Some ch'
                   ∧ closes ch' = closes ch ∧ buf ch' `suffix_of` buf ch)
    as Hsame.
  { intros c' Heq. exists ch. by rewrite Heq. }
  destruct a; cbn [step].
  - apply Hsame. unfold Start. destruct (running c); [done|]. by destruct env.
  - apply Hsame. destruct (running c) eqn:Hrun.
    + destruct (Stop_running c Hwf Hrun) as (_ & _ & _ & Hch).
      rewrite Hch. rewrite decide_False; [done|]. by intros [|].
    + unfold Stop. by rewrite Hrun.
  - apply Hsame. by rewrite stopCapture_chans.
  - apply Hsame. rewrite closeFrameSubscribers_eq. simpl.
    rewrite applyAll_chans by apply NoDup_tableRefs, Hwf.
    by rewrite decide_False.
  - apply Hsame. rewrite closeAudioSubscribers_eq. simpl.
    rewrite applyAll_chans by apply NoDup_tableRefs, Hwf.
    by rewrite decide_False.
  - by apply Hsame.
  - apply Hsame. simpl. rewrite Hr. by apply lookup_app_l_Some.
  - apply Hsame. unfold UnsubscribeFrames.
    destruct (frameSubscribers c !! id) as [r|] eqn:Hid; [|done]. simpl.
    rewrite onChan_chans. rewrite decide_False; [done|].
    intros ->. by apply (proj1 Hun id).
  - apply Hsame. simpl. rewrite Hr. by apply lookup_app_l_Some.
  - apply Hsame. unfold UnsubscribeAudio.
    destruct (audioSubscribers c !! id) as [r|] eqn:Hid; [|done]. simpl.
    rewrite onChan_chans. rewrite decide_False; [done|].
    intros ->. by apply (proj2 Hun id).
  - apply Hsame. rewrite emitFrame_chans by done. by rewrite decide_False.
  - apply Hsame. rewrite broadcastAudio_chans by done. by rewrite decide_False.
  - rewrite onChan_chans. case_decide as Heq; [|by apply Hsame].
    rewrite Hr. simpl. eexists. split; [done|].
    split; [apply receive_closes|apply receive_suffix].
Qed.

Lemma untabled_run ref acts : ∀ c ch,
  wf c → untabled ref c → chans c !! ref = Some ch →
  untabled ref (run c acts)
  ∧ ∃ ch', chans (run c acts) !! ref = Some ch'
           ∧ closes ch' = closes ch ∧ buf ch' `suffix_of` buf ch.
Proof.
  induction acts as [|a acts IH]; intros c ch Hwf Hun Hr.
  - split; [done|]. by exists ch.
  - change (run c (a :: acts)) with (run (step c a) acts).
    destruct (untabled_chan ref c a ch Hwf Hun Hr) as (ch1 & Hr1 & Hc1 & Hb1).
    destruct (IH (step c a) ch1) as (Hun2 & ch2 & Hr2 & Hc2 & Hb2);
      [by apply wf_step| |done|].
    { apply untabled_step; [|done]. by apply lookup_lt_Some in Hr. }
    split; [done|]. exists ch2. split; [done|].
    split; [congruence|]. by etrans.
Qed.

End Resubscribe.

(** X8. Let a capturer be in a state it can reach, with a frame
    subscription under some id. A second [SubscribeFrames] under the same
    id makes a new queue and points the table entry at it; the earlier
    queue is not closed. Whatever steps follow, the earlier queue is in no
    table, is never closed and never takes another frame: its content can
    only shrink from the front as its reader takes frames. *)
Theorem resubscribe_orphans_queue (cfg : Config.CameraConfig)
    (acts more : list Capture.Action) (sid : string) (ref : nat) :
  let c := Capture.run (Capture.NewAVCapturer cfg) acts in
  Capture.frameSubscribers c !! sid = Some ref →
  let c1 := (Capture.SubscribeFrames sid c).2 in
  let c2 := Capture.run c1 more in
  Capture.frameSubscribers c1 !! sid = Some (length (Capture.chans c))
  ∧ ref ≠ length (Capture.chans c)
  ∧ untabled ref c2
  ∧ ∃ ch ch2,
      Capture.chans c !! ref = Some ch
      ∧ Capture.chans c2 !! ref = Some ch2
      ∧ Capture.closes ch2 = 0%nat
      ∧ Capture.buf ch2 `suffix_of` Capture.buf ch.
Proof.
  intros c Hsid c1 c2.
  assert (Hwf : wf c) by apply wf_run, wf_new.
  destruct (wf_frame_open _ Hwf _ _ Hsid) as (ch & Hr & Hopen).
  pose proof (lookup_lt_Some _ _ _ Hr) as Hlt.
  assert (untabled ref c1) as Hun.
  { split; intros id; simpl.
    - intros [[_ Heq]|[Hne Hid]]%lookup_insert_Some; [lia|].
      apply Hne. symmetry. by apply (wf_frame_inj _ Hwf id sid ref).
    - by apply (wf_disjoint _ Hwf sid id ref). }
  assert (Capture.chans c1 !! ref = Some ch) as Hr1
    by (simpl; by apply lookup_app_l_Some).
  destruct (untabled_run ref more c1 ch) as (Hun2 & ch2 & Hr2 & Hc2 & Hb2);
    [by apply wf_SubscribeFrames|done..|].
  split; [simpl; apply lookup_insert_eq|]. split; [lia|].
  split; [done|]. exists ch, ch2.
  split; [done|]. split; [done|]. split; [congruence|done].
Qed.

Lemma resubscribe_orphans_queue_witness :
  let acts := [Capture.AStart Capture.SpawnOk;
               Capture.ASubscribeFrames "viewer";
               Capture.AEmitFrame [xff; xd8; x41; xff; xd9]] in
  let more := [Capture.AEmitFrame [xff; xd8; x42; xff; xd9];
               Capture.AStop] in
  let c := Capture.run (Capture.NewAVCapturer cam1) acts in
  Capture.frameSubscribers c !! "viewer" = Some 0%nat
  ∧ untabled 0%nat
      (Capture.run (Capture.SubscribeFrames "viewer" c).2 more).
Proof.
  intros acts more c.
  assert (H : Capture.frameSubscribers c !! "viewer" = Some 0%nat)
    by (vm_compute; reflexivity).
  split; [exact H|].
  exact (proj1 (proj2 (proj2
           (resubscribe_orphans_queue cam1 acts more "viewer" 0%nat H)))).
Defined.

(** ** The capture registry *)

Section Registry.
Import Capture.

Lemma enabledAs_true id cam :
  Config.Enabled cam = true → Config.ID cam = id → enabledAs id cam = true.
Proof.
  intros Hen Hid. unfold enabledAs. rewrite Hen.
  by apply bool_decide_eq_true_2.
Qed.

Lemma enabledAs_other id cam : Config.ID cam ≠ id → enabledAs id cam = false.
Proof.
  intros Hid. unfold enabledAs. rewrite bool_decide_eq_false_2 by done.
  apply andb_false_r.
Qed.

Lemma enabledAs_disabled id cam :
  Config.Enabled cam = false → enabledAs id cam = false.
Proof. intros Hen. unfold enabledAs. by rewrite Hen. Qed.

Lemma lookup_addCapturers cams : ∀ capturers id,
  addCapturers cams capturers !! id
  = match capturers !! id with
    | Some c => Some c
    | None => NewAVCapturer <$> head (filter (λ cam, enabledAs id cam = true) cams)
    end.
Proof.
  induction cams as [|cam cams IH]; intros capturers id;
    cbn [addCapturers foldl].
  - by destruct (capturers !! id).
  - match goal with |- foldl ?f ?acc cams !! _ = _ =>
      change (foldl f acc cams) with (addCapturers cams acc) end.
    rewrite IH, filter_cons. unfold AddCapturer.
    destruct (Config.Enabled cam) eqn:Hen.
    + destruct (decide (Config.ID cam = id)) as [Heq|Hne].
      * rewrite decide_True by (by apply enabledAs_true).
        subst id.
        destruct (capturers !! Config.ID cam) as [c|] eqn:Hc; cbn [snd].
        -- by rewrite Hc.
        -- by rewrite lookup_insert_eq.
      * rewrite decide_False by (by rewrite enabledAs_other).
        destruct (capturers !! Config.ID cam) as [c|] eqn:Hc; cbn [snd];
          [done|]. by rewrite lookup_insert_ne.
    + by rewrite decide_False by (by rewrite enabledAs_disabled).
Qed.

Lemma lookup_cameras_fold (cams : list Config.CameraConfig) :
  ∀ (acc : gmap string Config.CameraConfig) id,
  foldl (λ m cam, if Config.Enabled cam then <[Config.ID cam := cam]> m else m)
    acc cams !! id
  = match last (filter (λ cam, enabledAs id cam = true) cams) with
    | Some cam => Some cam
    | None => acc !! id
    end.
Proof.
  induction cams as [|cam cams IH]; intros acc id; cbn [foldl]; [done|].
  rewrite IH, filter_cons.
  destruct (Config.Enabled cam) eqn:Hen.
  - destruct (decide (Config.ID cam = id)) as [Heq|Hne].
    + rewrite decide_True by (by apply enabledAs_true).
      rewrite last_cons. subst id.
      destruct (last (filter _ cams)); [done|]. by rewrite lookup_insert_eq.
    + rewrite decide_False by (by rewrite enabledAs_other).
      destruct (last (filter _ cams)); [done|]. by rewrite lookup_insert_ne.
  - by rewrite decide_False by (by rewrite enabledAs_disabled).
Qed.

End Registry.

(** X9. The registry that [main] fills from the configured cameras holds,
    under each id, a new stopped capturer made from the first enabled
    camera with that id: a later camera with the same id is refused and
    does not replace it; an id that no enabled camera has is not
    registered. The camera tables of the push-stream manager and of the
    segmented-output manager hold the last enabled camera with that id. *)
Theorem registry_keeps_first_camera (cams : list Config.CameraConfig)
    (id : string) :
  let registry := Capture.addCapturers cams ∅ in
  let configured := filter (λ cam, enabledAs id cam = true) cams in
  Capture.GetCapturer id registry
  = match head configured with
    | Some cam => (Some (Capture.NewAVCapturer cam), None)
    | None => (None, Some Capture.ErrCapturerMissing)
    end
  ∧ Rtmp.cameras (Rtmp.NewManager registry cams) !! id = last configured
  ∧ Stream.cameras (Stream.NewHLSOutputManager registry cams) !! id
    = last configured.
Proof.
  intros registry configured. split; [|split].
  - unfold Capture.GetCapturer. subst registry.
    rewrite lookup_addCapturers, lookup_empty. fold configured.
    by destruct (head configured).
  - cbn [Rtmp.NewManager Rtmp.cameras]. rewrite lookup_cameras_fold.
    fold configured. by destruct (last configured).
  - cbn [Stream.NewHLSOutputManager Stream.cameras].
    rewrite lookup_cameras_fold.
    fold configured. by destruct (last configured).
Qed.

Section StartAllProps.
Import Capture.

Lemma Start_ok env c c' :
  Start env c = (None, c') →
  running c' = true ∧ Start env c' = (None, c').
Proof.
  unfold Start. destruct (running c) eqn:Hrun.
  - intros [= <-]. by rewrite Hrun.
  - destruct env; intros [= <-]. done.
Qed.

Lemma Start_err env c err c' :
  Start env c = (Some err, c') →
  err = ErrStartCapture ∧ running c = false ∧ env ≠ SpawnOk
  ∧ running c' = false ∧ procs c' = procs c
  ∧ (env = PipeFails → c' = c)
  ∧ (env = SpawnFails → c' = setCmd true false (procs c) c).
Proof.
  unfold Start. destruct (running c) eqn:Hrun; [done|].
  destruct env; cbn [startCapture]; intros [= <- <-]; by repeat split.
Qed.

(** The capturers [StartAll] has called [Start] on are those of a prefix
    of the order; when it fails, the last of them is the one that failed. *)
Lemma StartAll_prefix env order : ∀ capturers,
  ∃ tried,
    (∀ i, (StartAll env order capturers).2 !! i
          = (λ ci, if decide (i ∈ tried) then (Start (env i) ci).2 else ci)
              <$> capturers !! i)
    ∧ match (StartAll env order capturers).1 with
      | None =>
          tried = order
          ∧ ∀ i ci, i ∈ tried → capturers !! i = Some ci →
                    (Start (env i) ci).1 = None
      | Some err =>
          ∃ started id rest c,
            tried = started ++ [id]
            ∧ order = started ++ id :: rest
            ∧ capturers !! id = Some c
            ∧ (Start (env id) c).1 = Some err
            ∧ ∀ i ci, i ∈ started → capturers !! i = Some ci →
                      (Start (env i) ci).1 = None
      end.
Proof.
  induction order as [|id order IH]; intros capturers; cbn [StartAll].
  - exists []. split; [|split; [done|]].
    + intros i. cbn [snd]. destruct (capturers !! i); [|done].
      cbn [fmap option_fmap option_map].
      by rewrite decide_False by apply not_elem_of_nil.
    + intros i ci Hin. by apply elem_of_nil in Hin.
  - destruct (capturers !! id) as [c|] eqn:Hid.
    + destruct (Start (env id) c) as [[err|] c'] eqn:Hstart.
      * exists [id]. split.
        -- intros i. cbn [snd]. destruct (decide (i = id)) as [->|Hne].
           ++ rewrite lookup_insert_eq, Hid. cbn [fmap option_fmap option_map].
              rewrite decide_True by apply list_elem_of_here.
              by rewrite Hstart.
           ++ rewrite lookup_insert_ne by done.
              destruct (capturers !! i); [|done].
              cbn [fmap option_fmap option_map].
              rewrite decide_False; [done|].
              by intros ?%list_elem_of_singleton.
        -- cbn [fst]. exists [], id, order, c.
           split; [done|]. split; [done|]. split; [done|].
           split; [by rewrite Hstart|].
           intros i ci Hin. by apply elem_of_nil in Hin.
      * destruct (Start_ok _ _ _ Hstart) as [Hrun Hagain].
        destruct (IH (<[id := c']> capturers)) as (tried & Hall & Hres).
        exists (id :: tried). split.
        -- intros i. rewrite Hall. destruct (decide (i = id)) as [->|Hne].
           ++ rewrite lookup_insert_eq, Hid. cbn [fmap option_fmap option_map].
              rewrite (decide_True (P := id ∈ id :: tried))
                by apply list_elem_of_here.
              rewrite Hstart, Hagain. cbn [snd]. by case_decide.
           ++ rewrite lookup_insert_ne by done.
              destruct (capturers !! i) as [ci|]; [|done].
              cbn [fmap option_fmap option_map]. f_equal.
              destruct (decide (i ∈ tried)) as [Hin|Hin].
              ** by rewrite decide_True by (by apply list_elem_of_further).
              ** rewrite decide_False; [done|].
                 by intros [?|?]%elem_of_cons.
        -- assert (∀ (l : list string) i ci,
                     (∀ i ci, i ∈ l → <[id := c']> capturers !! i = Some ci →
                              (Start (env i) ci).1 = None) →
                     i ∈ id :: l → capturers !! i = Some ci →
                     (Start (env i) ci).1 = None) as Hcons.
           { intros l i ci Hl Hin Hi. destruct (decide (i = id)) as [->|Hne].
             - assert (ci = c) as -> by congruence. by rewrite Hstart.
             - apply elem_of_cons in Hin as [?|Hin]; [done|].
               apply (Hl i ci Hin). by rewrite lookup_insert_ne. }
           destruct (StartAll env order (<[id:=c']> capturers)).1 as [err|].
           ++ destruct Hres as (started & id0 & rest & c0 & -> & -> & Hid0
                                & Hfail & Hok).
              assert (id0 ≠ id) as Hne.
              { intros ->. rewrite lookup_insert_eq in Hid0.
                injection Hid0 as <-. rewrite Hagain in Hfail. discriminate. }
              rewrite lookup_insert_ne in Hid0 by done.
              exists (id :: started), id0, rest, c0.
              split; [done|]. split; [done|]. split; [done|].
              split; [done|]. intros i ci. by apply Hcons.
           ++ destruct Hres as [-> Hok]. split; [done|].
              intros i ci. by apply Hcons.
    + destruct (IH capturers) as (tried & Hall & Hres).
      exists (id :: tried). split.
      * intros i. rewrite Hall.
        destruct (capturers !! i) as [ci|] eqn:Hi; [|done].
        cbn [fmap option_fmap option_map]. f_equal.
        assert (i ≠ id) as Hne by congruence.
        destruct (decide (i ∈ tried)) as [Hin|Hin].
        -- by rewrite decide_True by (by apply list_elem_of_further).
        -- rewrite decide_False; [done|]. by intros [?|?]%elem_of_cons.
      * destruct (StartAll env order capturers).1 as [err|].
        -- destruct Hres as (started & id0 & rest & c0 & -> & -> & Hid0
                             & Hfail & Hok).
           exists (id :: started), id0, rest, c0.
           split; [done|]. split; [done|]. split; [done|]. split; [done|].
           intros i ci Hin Hi. apply elem_of_cons in Hin as [->|Hin];
             [congruence|by apply (Hok i ci)].
        -- destruct Hres as [-> Hok]. split; [done|].
           intros i ci Hin Hi. apply elem_of_cons in Hin as [->|Hin];
             [congruence|by apply (Hok i ci)].
Qed.

End StartAllProps.

(** X10. [StartAll] starts the capturers one after another in the order
    the registry hands them out and returns at the first failure. When it
    returns no error, every capturer of the registry is running. When it
    returns an error, the capturer that failed is still stopped and no
    process was added for it: it is as it was when a pipe could not be
    made, and when ffmpeg could not be started it is as it was except that
    [cmd] now holds the command that failed, which has no process. The
    capturers before it in the order have been started and stay running,
    as nothing is rolled back; the capturers after it have not been
    touched. No capturer is added to or removed from the registry. *)
Theorem startAll_stops_at_first_failure (env : string → Capture.SpawnEnv)
    (order : list string) (capturers : gmap string Capture.Capturer) :
  order ≡ₚ elements (dom capturers) →
  let r := Capture.StartAll env order capturers in
  dom r.2 = dom capturers
  ∧ match r.1 with
    | None => ∀ id c', r.2 !! id = Some c' → Capture.running c' = true
    | Some err =>
        err = Capture.ErrStartCapture
        ∧ ∃ started id rest c c',
            order = started ++ id :: rest
            ∧ capturers !! id = Some c
            ∧ Capture.running c = false
            ∧ env id ≠ Capture.SpawnOk
            ∧ r.2 !! id = Some c'
            ∧ Capture.running c' = false
            ∧ Capture.procs c' = Capture.procs c
            ∧ (env id = Capture.PipeFails → c' = c)
            ∧ (env id = Capture.SpawnFails →
               c' = Capture.setCmd true false (Capture.procs c) c)
            ∧ (∀ i ci, i ∈ started → r.2 !! i = Some ci →
                       Capture.running ci = true)
            ∧ (∀ i, i ∈ rest → r.2 !! i = capturers !! i)
    end.
Proof.
  intros Hperm r. subst r.
  assert (NoDup order) as Hnd by (rewrite Hperm; apply NoDup_elements).
  assert (∀ i, i ∈ order ↔ is_Some (capturers !! i)) as Hin.
  { intros i. by rewrite Hperm, elem_of_elements, elem_of_dom. }
  destruct (StartAll_prefix env order capturers) as (tried & Hall & Hres).
  assert (∀ (started : list string) i ci,
            (∀ i ci, i ∈ started → capturers !! i = Some ci →
                     (Capture.Start (env i) ci).1 = None) →
            i ∈ started → i ∈ tried →
            (Capture.StartAll env order capturers).2 !! i = Some ci →
            Capture.running ci = true) as Hstarted.
  { intros started i c' Hok Hi Hi'. rewrite Hall.
    destruct (capturers !! i) as [ci|] eqn:Hci; [|done].
    cbn [fmap option_fmap option_map]. rewrite decide_True by done.
    intros [= <-]. pose proof (Hok i ci Hi Hci) as Hnone.
    destruct (Capture.Start (env i) ci) as [e c2] eqn:Hs.
    cbn [fst snd] in *. subst e. by apply Start_ok in Hs as [? _]. }
  split.
  - apply set_eq. intros i. rewrite !elem_of_dom, Hall.
    by rewrite fmap_is_Some.
  - destruct (Capture.StartAll env order capturers).1 as [err|].
    + destruct Hres as (started & id & rest & c & -> & Horder & Hid & Hfail
                        & Hok).
      destruct (Capture.Start (env id) c) as [e c'] eqn:Hs.
      cbn [fst] in Hfail. subst e.
      apply Start_err in Hs as Herr.
      destruct Herr as (-> & Hrun & Henv & Hrun' & Hprocs & Hpipe & Hspawn).
      split; [done|]. exists started, id, rest, c, c'.
      rewrite Horder in Hnd. apply NoDup_app in Hnd as (_ & Hdisj & Hnd2).
      apply NoDup_cons in Hnd2 as [Hnotin _].
      split; [done|]. split; [done|]. split; [done|]. split; [done|].
      split; [|split; [done|]; split; [done|]; split; [done|];
               split; [done|]; split].
      * rewrite Hall, Hid. cbn [fmap option_fmap option_map].
        rewrite decide_True by (apply elem_of_app; right; apply list_elem_of_here).
        by rewrite Hs.
      * intros i ci Hi. apply (Hstarted started); [done..|].
        apply elem_of_app. by left.
      * intros i Hi. rewrite Hall.
        destruct (capturers !! i) as [ci|]; [|done].
        cbn [fmap option_fmap option_map].
        rewrite decide_False; [done|].
        intros [Hi'|Hi']%elem_of_app.
        -- by apply (Hdisj _ Hi'), list_elem_of_further.
        -- apply list_elem_of_singleton in Hi' as ->. done.
    + destruct Hres as [-> Hok]. intros id c' Hid.
      apply (Hstarted order id c'); [done| | |done];
        (apply Hin; rewrite Hall in Hid;
         destruct (capturers !! id); [done|discriminate]).
Qed.

Lemma startAll_stops_at_first_failure_witness :
  let env := λ id, if String.eqb id "cam2" then Capture.SpawnFails
                   else Capture.SpawnOk in
  ["cam1"; "cam2"] ≡ₚ elements (dom sampleCapturers)
  ∧ dom (Capture.StartAll env ["cam1"; "cam2"] sampleCapturers).2
    = dom sampleCapturers.
Proof.
  intros env.
  assert (H : ["cam1"; "cam2"] ≡ₚ elements (dom sampleCapturers))
    by (vm_compute; reflexivity).
  split; [exact H|].
  exact (proj1 (startAll_stops_at_first_failure env ["cam1"; "cam2"]
                  sampleCapturers H)).
Defined.

(** ** The capture process *)

Section CaptureProcess.
Import Capture.

Lemma lifecycle_applyAll op refs c :
  running (applyAll op refs c) = running c
  ∧ cmd (applyAll op refs c) = cmd c
  ∧ procs (applyAll op refs c) = procs c.
Proof. by destruct (applyAll_sameRest op refs c) as (_&_&?&?&?&_). Qed.

Lemma lifecycle_onChan op ref c :
  running (onChan op ref c) = running c
  ∧ cmd (onChan op ref c) = cmd c
  ∧ procs (onChan op ref c) = procs c.
Proof. by destruct (onChan_sameRest op ref c) as (_&_&?&?&?&_). Qed.

Lemma lifecycle_closeFrames c :
  running (closeFrameSubscribers c) = running c
  ∧ cmd (closeFrameSubscribers c) = cmd c
  ∧ procs (closeFrameSubscribers c) = procs c.
Proof. rewrite closeFrameSubscribers_eq. apply lifecycle_applyAll. Qed.

Lemma lifecycle_closeAudio c :
  running (closeAudioSubscribers c) = running c
  ∧ cmd (closeAudioSubscribers c) = cmd c
  ∧ procs (closeAudioSubscribers c) = procs c.
Proof. rewrite closeAudioSubscribers_eq. apply lifecycle_applyAll. Qed.

Lemma cmdProcess_onChan op ref c : cmdProcess (onChan op ref c) = cmdProcess c.
Proof.
  unfold onChan. destruct (chans c !! ref) as [ch|]; [|done].
  by destruct (op ch).
Qed.

Lemma cmdProcess_applyAll op refs c :
  cmdProcess (applyAll op refs c) = cmdProcess c.
Proof.
  induction refs as [|r refs IH]; [done|]. cbn [applyAll foldr].
  by rewrite cmdProcess_onChan.
Qed.

Lemma cmdProcess_closeFrames c :
  cmdProcess (closeFrameSubscribers c) = cmdProcess c.
Proof. rewrite closeFrameSubscribers_eq. apply cmdProcess_applyAll. Qed.

Lemma cmdProcess_closeAudio c :
  cmdProcess (closeAudioSubscribers c) = cmdProcess c.
Proof. rewrite closeAudioSubscribers_eq. apply cmdProcess_applyAll. Qed.

Lemma hasProcess_closed c :
  hasProcess (closeAudioSubscribers (closeFrameSubscribers c)) = hasProcess c
  ∧ procs (closeAudioSubscribers (closeFrameSubscribers c)) = procs c
  ∧ cmd (closeAudioSubscribers (closeFrameSubscribers c)) = cmd c.
Proof.
  destruct (lifecycle_closeFrames c) as (_ & Hc1 & Hn1).
  destruct (lifecycle_closeAudio (closeFrameSubscribers c)) as (_ & Hc2 & Hn2).
  unfold hasProcess.
  rewrite cmdProcess_closeAudio, cmdProcess_closeFrames, Hc2, Hc1, Hn2, Hn1.
  done.
Qed.

Lemma processTracked_stopCapture c :
  processTracked c →
  hasProcess (stopCapture c) = false ∧ procs (stopCapture c) = 0%nat
  ∧ running (stopCapture c) = running c.
Proof.
  intros [Hp _]. unfold stopCapture, hasProcess in *.
  destruct (cmd c && cmdProcess c) eqn:Hcmd; simpl.
  - by rewrite Hp.
  - by rewrite Hcmd.
Qed.

Lemma processTracked_step c a :
  wholeCall a = true → processTracked c → processTracked (step c a).
Proof.
  intros Hw Hk. pose proof Hk as [Hp Hr].
  assert (∀ c', running c' = running c → cmd c' = cmd c →
                cmdProcess c' = cmdProcess c →
                procs c' = procs c → processTracked c') as Hsame.
  { intros c' H1 H2 H3 H4. unfold processTracked, hasProcess in *.
    by rewrite H1, H2, H3, H4. }
  destruct a; try discriminate Hw; cbn [step].
  - unfold Start. destruct (running c) eqn:Hrun; [done|].
    specialize (Hr eq_refl). rewrite Hr in Hp.
    destruct env; cbn [startCapture snd]; [done| |].
    + split; [by simpl|done].
    + split; simpl; [by rewrite Hp|done].
  - unfold Stop. destruct (running c) eqn:Hrun; cbn [negb snd]; [|done].
    destruct (processTracked_stopCapture c Hk) as (Hc & Hn & _).
    destruct (hasProcess_closed (stopCapture c)) as (Hh & Hn' & _).
    split.
    + change (procs (setRunning false ?x)) with (procs x).
      change (hasProcess (setRunning false ?x)) with (hasProcess x).
      by rewrite Hn', Hh, Hn, Hc.
    + intros _. change (hasProcess (setRunning false ?x)) with (hasProcess x).
      by rewrite Hh.
  - destruct (processTracked_stopCapture c Hk) as (Hc & Hn & Hrun).
    split; [by rewrite Hn, Hc|done].
  - by apply Hsame.
  - unfold UnsubscribeFrames.
    destruct (frameSubscribers c !! id) as [r|]; [|done].
    destruct (lifecycle_onChan chanClose r c) as (?&?&?).
    apply Hsame; [done..|apply cmdProcess_onChan|done].
  - by apply Hsame.
  - unfold UnsubscribeAudio.
    destruct (audioSubscribers c !! id) as [r|]; [|done].
    destruct (lifecycle_onChan chanClose r c) as (?&?&?).
    apply Hsame; [done..|apply cmdProcess_onChan|done].
  - unfold emitFrame. rewrite broadcastFrame_applyAll.
    destruct (lifecycle_applyAll (sendDropOldest frame)
                (tableRefs (frameSubscribers (setLastFrame (Some frame) c)))
                (setLastFrame (Some frame) c)) as (?&?&?).
    apply Hsame; [done..|by rewrite cmdProcess_applyAll|done].
  - rewrite broadcastAudio_applyAll.
    destruct (lifecycle_applyAll (sendOrDrop audio)
                (tableRefs (audioSubscribers c)) c) as (?&?&?).
    apply Hsame; [done..|apply cmdProcess_applyAll|done].
  - destruct (lifecycle_onChan receive ref c) as (?&?&?).
    apply Hsame; [done..|apply cmdProcess_onChan|done].
Qed.

Lemma processTracked_run acts : ∀ c,
  Forall (λ a, wholeCall a = true) acts → processTracked c →
  processTracked (run c acts).
Proof.
  induction acts as [|a acts IH]; intros c Hall Hk; [done|].
  apply Forall_cons in Hall as [Ha Hall].
  apply IH; [done|]. by apply processTracked_step.
Qed.

Lemma processKept_tracked c : processKept c → processTracked c.
Proof.
  intros (Hp & Hr & Hs). unfold processTracked, hasProcess.
  destruct (cmd c) eqn:Hcmd.
  - rewrite (Hs eq_refl). split; [done|]. intros Hrun.
    by specialize (Hr Hrun).
  - done.
Qed.

(** What [Stop] leaves of the process. *)
Lemma Stop_process c :
  processTracked c →
  procs (Stop c).2 = 0%nat ∧ hasProcess (Stop c).2 = false
  ∧ (running c = true → cmd c = true → cmdProcess c = true →
     cmd (Stop c).2 = false).
Proof.
  intros Hk.
  pose proof (processTracked_step c AStop eq_refl Hk) as [Hp Hr].
  cbn [step] in Hp, Hr.
  assert (running (Stop c).2 = false) as Hstopped.
  { unfold Stop. destruct (running c) eqn:Hrun; [done|]. simpl. by rewrite Hrun. }
  specialize (Hr Hstopped). split; [by rewrite Hp, Hr|]. split; [done|].
  intros Hrun Hcmd Hproc. unfold Stop. rewrite Hrun. cbn [negb snd].
  change (cmd (setRunning false ?x)) with (cmd x).
  destruct (hasProcess_closed (stopCapture c)) as (_ & _ & ->).
  unfold stopCapture. by rewrite Hcmd, Hproc.
Qed.

End CaptureProcess.

(** X11. Let the calls on a capturer come one after another, each as a
    whole. Then the capturer has one capture process when [cmd] holds a
    command that was started and none otherwise, so never more than one,
    and a stopped capturer has none. A [Start] that fails at ffmpeg leaves
    the capturer stopped, with the command that failed in [cmd] and no
    process; [stopCapture] leaves that command where it is, and the next
    successful [Start] puts its own in its place. When the process of a
    running capturer ends by itself, the capturer still reports that it
    is running and has no process, and [Start] returns no error and spawns
    nothing: only [Stop] followed by [Start] brings the process back. *)
Theorem capture_process_accounting (cfg : Config.CameraConfig)
    (acts : list Capture.Action) (env : Capture.SpawnEnv) :
  Forall (λ a, wholeCall a = true) acts →
  let c := Capture.run (Capture.NewAVCapturer cfg) acts in
  Capture.procs c = (if Capture.cmd c && Capture.cmdProcess c then 1 else 0)%nat
  ∧ (Capture.running c = false →
     Capture.procs c = 0%nat
     ∧ let c' := (Capture.Start Capture.SpawnFails c).2 in
       (Capture.Start Capture.SpawnFails c).1 = Some Capture.ErrStartCapture
       ∧ Capture.running c' = false
       ∧ Capture.cmd c' = true
       ∧ Capture.cmdProcess c' = false
       ∧ Capture.procs c' = 0%nat
       ∧ Capture.stopCapture c' = c'
       ∧ Capture.Stop c' = (None, c')
       ∧ let c2 := (Capture.Start Capture.SpawnOk c').2 in
         Capture.running c2 = true
         ∧ Capture.cmd c2 = true
         ∧ Capture.cmdProcess c2 = true
         ∧ Capture.procs c2 = 1%nat)
  ∧ (Capture.running c = true →
     let c' := Capture.stopCapture c in
     Capture.IsRunning c' = true
     ∧ Capture.procs c' = 0%nat
     ∧ Capture.Start env c' = (None, c')
     ∧ Capture.procs
         (Capture.Start Capture.SpawnOk (Capture.Stop c').2).2 = 1%nat).
Proof.
  intros Hall c.
  assert (processTracked c) as Hk.
  { apply processTracked_run; [done|]. by split. }
  pose proof Hk as [Hp Hr]. unfold hasProcess in Hp, Hr.
  split; [done|]. split.
  - intros Hrun. assert (Capture.procs c = 0%nat) as H0
      by (by rewrite Hp, (Hr Hrun)).
    split; [done|]. unfold Capture.Start. rewrite Hrun.
    cbn [Capture.startCapture fst snd]. rewrite H0.
    split; [done|]. split; [done|]. split; [done|]. split; [done|].
    split; [done|]. split; [done|]. split.
    + unfold Capture.Stop.
      change (Capture.running (Capture.setCmd ?b ?p ?n c))
        with (Capture.running c). by rewrite Hrun.
    + change (Capture.running (Capture.setCmd ?b ?p ?n c))
        with (Capture.running c). by rewrite Hrun.
  - intros Hrun c'.
    destruct (processTracked_stopCapture c Hk) as (Hc & Hn & Hrun').
    fold c' in Hc, Hn, Hrun'.
    assert (Capture.running c' = true) as Hrun2 by congruence.
    split; [done|]. split; [done|]. split.
    + unfold Capture.Start. by rewrite Hrun2.
    + assert (processTracked c') as Hk'.
      { split; [by rewrite Hn, Hc|done]. }
      destruct (Stop_process c' Hk') as (Hp2 & _).
      assert (Capture.running (Capture.Stop c').2 = false) as Hstopped.
      { unfold Capture.Stop. by rewrite Hrun2. }
      unfold Capture.Start. rewrite Hstopped. cbn [Capture.startCapture snd].
      simpl. by rewrite Hp2.
Qed.

Lemma capture_process_accounting_witness :
  let c := Capture.run (Capture.NewAVCapturer cam1) failedStartActions in
  Forall (λ a, wholeCall a = true) failedStartActions
  ∧ Capture.procs c
    = (if Capture.cmd c && Capture.cmdProcess c then 1 else 0)%nat.
Proof.
  intros c.
  assert (H : Forall (λ a, wholeCall a = true) failedStartActions)
    by (repeat constructor).
  split; [exact H|].
  exact (proj1 (capture_process_accounting cam1 failedStartActions
                  Capture.SpawnOk H)).
Defined.

(** ** The push-stream manager: processes, feeds and status *)

Section RtmpAccounting.

Lemma StartStream_cases env id url m :
  (∃ err, Rtmp.StartStream env id url m = (Some err, m))
  ∨ (Rtmp.running <$> Rtmp.streamers m !! id ≠ Some true
     ∧ ∃ c, Rtmp.StartStream env id url m
            = (None,
               Rtmp.mkManager (<[id := c]> (Rtmp.captureManager m))
                 (Rtmp.cameras m)
                 (<[id := Rtmp.mkStreamer id url true]> (Rtmp.streamers m))
                 ({[id]} ∪ Rtmp.frameFeeds m) (Rtmp.procs m + 1))).
Proof.
  unfold Rtmp.StartStream. case_bool_decide as Hrun; [left; eauto|].
  destruct (Rtmp.cameras m !! id) as [cam|]; [|left; eauto].
  destruct (Capture.GetCapturer id (Rtmp.captureManager m)) as [[c|] e];
    [|left; eauto].
  destruct (negb (Capture.IsRunning c)); [left; eauto|].
  destruct env; cbn [Rtmp.StreamerStart Rtmp.NewStreamer Rtmp.running];
    [left; eauto..|].
  right. split; [done|]. eauto.
Qed.

Lemma runningStreamers_lookup m id :
  runningStreamers m !! id
  = match Rtmp.streamers m !! id with
    | Some s => if Rtmp.running s then Some s else None
    | None => None
    end.
Proof.
  unfold runningStreamers. rewrite map_lookup_filter.
  destruct (Rtmp.streamers m !! id) as [s|]; [|done]. simpl.
  destruct (Rtmp.running s) eqn:Hrun.
  - by rewrite option_guard_True.
  - by rewrite option_guard_False.
Qed.

Lemma processesKept_call m k : processesKept m → processesKept (Rtmp.call m k).
Proof.
  intros [Hp Hf]. unfold processesKept, runningStreamers in *.
  destruct k as [env id url|id|id|id a]; cbn [Rtmp.call].
  - destruct (StartStream_cases env id url m) as [[err ->]|(Hrun & c & ->)];
      [done|].
    cbn [snd Rtmp.procs Rtmp.streamers Rtmp.frameFeeds].
    rewrite map_filter_insert_True by done.
    rewrite map_size_insert_None.
    + split; [lia|]. by rewrite dom_insert_L, Hf.
    + apply map_lookup_filter_None. right. intros s Hs Hs'. simpl in Hs'.
      apply Hrun. by rewrite Hs; simpl; rewrite Hs'.
  - unfold Rtmp.StopStream.
    destruct (Rtmp.streamers m !! id) as [s|] eqn:Hs;
      cbn [Rtmp.procs Rtmp.streamers Rtmp.frameFeeds].
    + rewrite map_filter_delete, dom_delete_L, Hf. split; [|done].
      destruct (Rtmp.running s) eqn:Hrun.
      * rewrite map_size_delete_Some; [by rewrite Hp|].
        exists s. by apply map_lookup_filter_Some.
      * rewrite map_size_delete_None; [done|].
        apply map_lookup_filter_None. right. intros s' Hs'. simpl.
        assert (s' = s) as -> by congruence. by rewrite Hrun.
    + split; [done|]. rewrite Hf. apply not_elem_of_dom in Hs.
      apply set_eq. intros x. rewrite elem_of_difference, elem_of_singleton.
      split; [by intros [? _]|]. intros Hx. split; [done|]. by intros ->.
  - unfold Rtmp.processExited.
    destruct (Rtmp.streamers m !! id) as [s|] eqn:Hs; [|done].
    destruct (Rtmp.running s) eqn:Hrun; [|done].
    cbn [Rtmp.procs Rtmp.streamers Rtmp.frameFeeds].
    rewrite map_filter_insert_False by (simpl; congruence).
    rewrite map_filter_delete. split.
    + rewrite map_size_delete_Some; [by rewrite Hp|].
      exists s. by apply map_lookup_filter_Some.
    + rewrite dom_insert_L, Hf. apply elem_of_dom_2 in Hs.
      apply set_eq. intros x. rewrite elem_of_union, elem_of_singleton.
      split; [by right|]. by intros [->|?].
  - done.
Qed.

Lemma processesKept_calls ks : ∀ m,
  processesKept m → processesKept (Rtmp.calls m ks).
Proof.
  induction ks as [|k ks IH]; intros m Hk; [done|].
  apply IH. by apply processesKept_call.
Qed.

Lemma processesKept_new caps cams : processesKept (Rtmp.NewManager caps cams).
Proof.
  split; simpl.
  - unfold runningStreamers. simpl. by rewrite map_filter_empty.
  - by rewrite dom_empty_L.
Qed.

Lemma GetAllStreams_eq m :
  Rtmp.GetAllStreams m = Rtmp.rtmpURL <$> runningStreamers m.
Proof.
  unfold Rtmp.GetAllStreams, runningStreamers.
  apply (map_fold_weak_ind
           (λ r (m' : gmap string Rtmp.Streamer),
              r = Rtmp.rtmpURL <$> filter (λ p, Rtmp.running p.2 = true) m')).
  - by rewrite map_filter_empty, fmap_empty.
  - intros i x m' r Hi ->. destruct (Rtmp.running x) eqn:Hrun.
    + rewrite map_filter_insert_True by done. by rewrite fmap_insert.
    + rewrite map_filter_insert_False by (simpl; congruence).
      by rewrite delete_id.
Qed.

Lemma StopAll_eq m :
  Rtmp.StopAll m
  = Rtmp.mkManager (Rtmp.captureManager m) (Rtmp.cameras m) ∅ ∅
      (Rtmp.procs m - size (runningStreamers m)).
Proof.
  unfold Rtmp.StopAll, runningStreamers.
  assert (set_fold (λ id feeds, feeds ∖ {[id]})
            (Rtmp.frameFeeds m) (Rtmp.frameFeeds m) = ∅) as ->.
  { assert (∀ X : gset string,
              set_fold (λ id feeds, feeds ∖ {[id]}) (Rtmp.frameFeeds m) X
              = Rtmp.frameFeeds m ∖ X) as Hfold.
    { apply (set_fold_ind_L (λ r X, r = Rtmp.frameFeeds m ∖ X)).
      - by rewrite difference_empty_L.
      - intros x X r _ ->. apply set_eq. intros y.
        rewrite !elem_of_difference, elem_of_union, elem_of_singleton.
        split; [intros [[? ?] ?]|intros [? Hn]].
        + split; [done|]. by intros [?|?].
        + split; [split; [done|]|]; intros ?; apply Hn; auto. }
    rewrite Hfold. apply difference_diag_L. }
  pose proof (map_fold_weak_ind
    (λ r (m' : gmap string Rtmp.Streamer),
       r = Rtmp.mkManager (Rtmp.captureManager m) (Rtmp.cameras m)
             (Rtmp.streamers m ∖ m') ∅
             (Rtmp.procs m
              - size (filter (λ p, Rtmp.running p.2 = true) m')))
    (λ id s acc,
       Rtmp.mkManager (Rtmp.captureManager acc) (Rtmp.cameras acc)
         (delete id (Rtmp.streamers acc)) (Rtmp.frameFeeds acc)
         (if Rtmp.running s then pred (Rtmp.procs acc) else Rtmp.procs acc))
    (Rtmp.mkManager (Rtmp.captureManager m) (Rtmp.cameras m)
       (Rtmp.streamers m) ∅ (Rtmp.procs m))) as Hind.
  rewrite Hind.
  - by rewrite map_difference_diag.
  - rewrite map_difference_empty, map_filter_empty, map_size_empty.
    by rewrite Nat.sub_0_r.
  - intros i x m' r Hi ->. cbn [Rtmp.captureManager Rtmp.cameras
      Rtmp.streamers Rtmp.frameFeeds Rtmp.procs].
    rewrite (delete_difference _ _ i x). f_equal.
    destruct (Rtmp.running x) eqn:Hrun.
    + rewrite map_filter_insert_True by done.
      rewrite map_size_insert_None; [lia|].
      apply map_lookup_filter_None. left. done.
    + rewrite map_filter_insert_False by (simpl; congruence).
      by rewrite delete_id.
Qed.

End RtmpAccounting.

(** X12. In every state the push-stream manager can reach by start and
    stop calls, process exits and steps of the capturers, there is exactly
    one transcoding process for each running streamer, so none is left
    behind when a start replaces the entry of a streamer whose process has
    ended, and there is a feed for each streamer in the table. The status
    of a camera is running with a URL exactly when [GetAllStreams] lists
    that URL for it. [StopAll] leaves no streamer, no feed and no
    process. *)
Theorem rtmp_processes_match_streamers
    (capturers : gmap string Capture.Capturer)
    (cams : list Config.CameraConfig) (ks : list Rtmp.Call) :
  let m := Rtmp.calls (Rtmp.NewManager capturers cams) ks in
  Rtmp.procs m = size (runningStreamers m)
  ∧ Rtmp.frameFeeds m = dom (Rtmp.streamers m)
  ∧ (∀ id url, Rtmp.GetStreamStatus id m = (true, url)
               ↔ Rtmp.GetAllStreams m !! id = Some url)
  ∧ Rtmp.streamers (Rtmp.StopAll m) = ∅
  ∧ Rtmp.frameFeeds (Rtmp.StopAll m) = ∅
  ∧ Rtmp.procs (Rtmp.StopAll m) = 0%nat
  ∧ Rtmp.GetAllStreams (Rtmp.StopAll m) = ∅.
Proof.
  intros m.
  assert (processesKept m) as [Hp Hf]
    by apply processesKept_calls, processesKept_new.
  split; [done|]. split; [done|]. split; [|rewrite StopAll_eq; simpl].
  - intros id url. rewrite GetAllStreams_eq, lookup_fmap.
    rewrite runningStreamers_lookup. unfold Rtmp.GetStreamStatus, Rtmp.GetURL.
    destruct (Rtmp.streamers m !! id) as [s|]; [|done].
    destruct (Rtmp.running s); simpl; [|done].
    split; intros [= <-]; done.
  - split; [done|]. split; [done|]. split; [lia|].
    rewrite GetAllStreams_eq. unfold runningStreamers. simpl.
    by rewrite map_filter_empty, fmap_empty.
Qed.

Section RtmpRestart.
Import Capture.

Lemma resubscribe_untabled sid ref c :
  wf c → frameSubscribers c !! sid = Some ref →
  untabled ref (SubscribeFrames sid c).2
  ∧ ∃ ch, chans (SubscribeFrames sid c).2 !! ref = Some ch
          ∧ closes ch = 0%nat.
Proof.
  intros Hwf Hsid.
  destruct (wf_frame_open _ Hwf _ _ Hsid) as (ch & Hr & Hopen).
  pose proof (lookup_lt_Some _ _ _ Hr) as Hlt.
  split.
  - split; intros id; simpl.
    + intros [[_ Heq]|[Hne Hid]]%lookup_insert_Some; [lia|].
      apply Hne. symmetry. by apply (wf_frame_inj _ Hwf id sid ref).
    + by apply (wf_disjoint _ Hwf sid id ref).
  - exists ch. split; [|done]. simpl. by apply lookup_app_l_Some.
Qed.

End RtmpRestart.

(** X13. Let the capturer of a camera be in a state it can reach, with the
    frame subscription of an earlier push stream of that camera still in
    its table, as it is after the transcoding process has ended by itself.
    A [StartStream] that succeeds subscribes again under the same id and
    takes over the table entry: whatever steps the capturer takes from
    then on, the queue of the earlier feed is in no table and is never
    closed, so the goroutine of the earlier feed is never woken. *)
Theorem restart_orphans_feed_queue (cfg : Config.CameraConfig)
    (acts more : list Capture.Action) (env : Capture.SpawnEnv)
    (id url : string) (ref : nat) (m : Rtmp.Manager) :
  let c := Capture.run (Capture.NewAVCapturer cfg) acts in
  Rtmp.captureManager m !! id = Some c →
  Capture.frameSubscribers c !! Rtmp.videoSubID id = Some ref →
  (Rtmp.StartStream env id url m).1 = None →
  ∃ c', Rtmp.captureManager (Rtmp.StartStream env id url m).2 !! id = Some c'
    ∧ Capture.frameSubscribers c' !! Rtmp.videoSubID id
      = Some (length (Capture.chans c))
    ∧ ref ≠ length (Capture.chans c)
    ∧ untabled ref (Capture.run c' more)
    ∧ Capture.closes <$> Capture.chans (Capture.run c' more) !! ref
      = Some 0%nat.
Proof.
  intros c Hc Hsid. unfold Rtmp.StartStream.
  case_bool_decide; [done|].
  destruct (Rtmp.cameras m !! id) as [cam|]; [|done].
  unfold Capture.GetCapturer. rewrite Hc.
  destruct (negb (Capture.IsRunning c)); [done|].
  destruct env; cbn [Rtmp.StreamerStart Rtmp.NewStreamer Rtmp.running fst snd
    Rtmp.captureManager]; [done..|]. intros _.
  assert (Hwf : wf c) by apply wf_run, wf_new.
  set (vid := Rtmp.videoSubID id) in *.
  set (c1 := (Capture.SubscribeFrames vid c).2).
  destruct (resubscribe_untabled vid ref c Hwf Hsid)
    as (Hun & ch & Hr & Hopen). fold c1 in Hun, Hr.
  assert (wf c1) as Hwf1 by (by apply wf_SubscribeFrames).
  set (c2 := if Capture.HasAudio c1
             then (Capture.SubscribeAudio (Rtmp.audioSubID id) c1).2
             else c1).
  assert (∃ pre, c2 = Capture.run c1 pre) as [pre Hpre].
  { subst c2. destruct (Capture.HasAudio c1).
    - by exists [Capture.ASubscribeAudio (Rtmp.audioSubID id)].
    - by exists []. }
  exists c2. rewrite lookup_insert_eq. split; [done|].
  split; [|split].
  - subst c2. destruct (Capture.HasAudio c1); simpl; apply lookup_insert_eq.
  - apply (wf_frame_bound _ _ _ Hwf) in Hsid. lia.
  - assert (Capture.run c2 more = Capture.run c1 (pre ++ more)) as ->.
    { rewrite Hpre. unfold Capture.run. by rewrite foldl_app. }
    destruct (untabled_run ref (pre ++ more) c1 ch Hwf1 Hun Hr)
      as (Hun2 & ch2 & Hr2 & Hc2 & _).
    split; [done|]. rewrite Hr2. simpl. congruence.
Qed.

Lemma restart_orphans_feed_queue_witness :
  let m := Rtmp.calls sampleRtmp
             [Rtmp.CStartStream Capture.SpawnOk "cam1" "rtmp://host/live";
              Rtmp.CProcessExited "cam1"] in
  let acts := [Capture.AStart Capture.SpawnOk;
               Capture.ASubscribeFrames "rtmp_video_cam1";
               Capture.ASubscribeAudio "rtmp_audio_cam1"] in
  let c := Capture.run (Capture.NewAVCapturer cam1) acts in
  Rtmp.captureManager m !! "cam1" = Some c
  ∧ Capture.frameSubscribers c !! Rtmp.videoSubID "cam1" = Some 0%nat
  ∧ (Rtmp.StartStream Capture.SpawnOk "cam1" "rtmp://host/next" m).1 = None
  ∧ ∃ c', Rtmp.captureManager
            (Rtmp.StartStream Capture.SpawnOk "cam1" "rtmp://host/next" m).2
            !! "cam1" = Some c'
      ∧ Capture.frameSubscribers c' !! Rtmp.videoSubID "cam1"
        = Some (length (Capture.chans c))
      ∧ 0%nat ≠ length (Capture.chans c)
      ∧ untabled 0%nat (Capture.run c' [Capture.AStop])
      ∧ Capture.closes <$> Capture.chans (Capture.run c' [Capture.AStop]) !! 0%nat
        = Some 0%nat.
Proof.
  intros m acts c.
  assert (H1 : Rtmp.captureManager m !! "cam1" = Some c)
    by (vm_compute; reflexivity).
  assert (H2 : Capture.frameSubscribers c !! Rtmp.videoSubID "cam1"
               = Some 0%nat) by (vm_compute; reflexivity).
  assert (H3 : (Rtmp.StartStream Capture.SpawnOk "cam1" "rtmp://host/next"
                  m).1 = None) by (vm_compute; reflexivity).
  split; [exact H1|]. split; [exact H2|]. split; [exact H3|].
  exact (restart_orphans_feed_queue cam1 acts [Capture.AStop]
           Capture.SpawnOk "cam1" "rtmp://host/next" 0%nat m H1 H2 H3).
Defined.

(** ** The frame input of the RTP bridge *)

Section RtpInput.
Import Capture.

Lemma byteAt_end init x y :
  Webrtc.byteAt (init ++ [x; y]) (len (init ++ [x; y]) - 2) = x
  ∧ Webrtc.byteAt (init ++ [x; y]) (len (init ++ [x; y]) - 1) = y.
Proof.
  unfold Webrtc.byteAt, len. rewrite length_app. simpl length.
  replace (Z.to_nat (Z.of_nat (length init + 2) - 2)) with (length init)
    by lia.
  replace (Z.to_nat (Z.of_nat (length init + 2) - 1)) with (S (length init))
    by lia.
  rewrite !app_nth2 by lia.
  by rewrite Nat.sub_diag, Nat.sub_succ_l, Nat.sub_diag.
Qed.

Lemma two_last {A} (l : list A) :
  (2 ≤ length l)%nat → ∃ init x y, l = init ++ [x; y].
Proof.
  intros Hlen. destruct (rev l) as [|y [|x r]] eqn:Hrev.
  - apply (f_equal length) in Hrev. rewrite length_rev in Hrev.
    simpl in Hrev. lia.
  - apply (f_equal length) in Hrev. rewrite length_rev in Hrev.
    simpl in Hrev. lia.
  - exists (rev r), x, y. rewrite <- (rev_involutive l), Hrev. simpl.
    by rewrite <- app_assoc.
Qed.

Lemma byte_eqb_eq x y : Byte.eqb x y = true ↔ x = y.
Proof.
  split; [apply Byte.byte_dec_bl|apply Byte.byte_dec_lb].
Qed.

(** A frame is queued without a log line exactly when it begins with the
    start marker and ends with the end marker. *)
Lemma WriteFrame_silent frame frameInput :
  (Webrtc.WriteFrame frame frameInput).2 = []
  ↔ ∃ body, frame = jpegStart ++ body ++ jpegEnd.
Proof.
  unfold Webrtc.WriteFrame. split.
  - destruct (len frame <? 2) eqn:Hlen; [done|]. apply Z.ltb_ge in Hlen.
    destruct (two_last frame) as (init & x & y & ->);
      [unfold len in Hlen; lia|].
    destruct (byteAt_end init x y) as [-> ->].
    destruct (Byte.eqb (Webrtc.byteAt (init ++ [x; y]) 0) xff) eqn:H0;
      [|done].
    destruct (Byte.eqb (Webrtc.byteAt (init ++ [x; y]) 1) xd8) eqn:H1;
      [|done].
    cbn [andb negb snd].
    destruct (2 <=? len (init ++ [x; y])) eqn:H2;
      [|apply Z.leb_gt in H2; lia].
    destruct (Byte.eqb x xff) eqn:Hx; [|done].
    destruct (Byte.eqb y xd9) eqn:Hy; [|done].
    intros _. apply byte_eqb_eq in H0, H1, Hx, Hy. subst x y.
    destruct init as [|a [|b body]].
    + by vm_compute in H1.
    + by vm_compute in H1.
    + vm_compute in H0. vm_compute in H1. subst a b. by exists body.
  - intros [body ->].
    change (jpegStart ++ body ++ jpegEnd)
      with (([xff; xd8] ++ body) ++ [xff; xd9]).
    destruct (byteAt_end ([xff; xd8] ++ body) xff xd9) as [-> ->].
    assert (len (([xff; xd8] ++ body) ++ [xff; xd9]) = len body + 4) as ->.
    { unfold len. rewrite !length_app. simpl. lia. }
    destruct (len body + 4 <? 2) eqn:Hlen;
      [apply Z.ltb_lt in Hlen; unfold len in Hlen; lia|].
    destruct (2 <=? len body + 4) eqn:H2;
      [done|apply Z.leb_gt in H2; unfold len in H2; lia].
Qed.

Lemma WriteFrame_queue frame frameInput :
  (Webrtc.WriteFrame frame frameInput).1 = frameInput
  ∨ ((Webrtc.WriteFrame frame frameInput).1 = frameInput ++ [frame]
     ∧ (length frameInput < Webrtc.frameInputSize)%nat
     ∧ ∃ rest, frame = xff :: xd8 :: rest).
Proof.
  unfold Webrtc.WriteFrame.
  destruct (len frame <? 2) eqn:Hlen; [by left|].
  destruct (Byte.eqb (Webrtc.byteAt frame 0) xff) eqn:H0; [|by left].
  destruct (Byte.eqb (Webrtc.byteAt frame 1) xd8) eqn:H1; [|by left].
  cbn [andb negb fst]. case_bool_decide as Hroom; [|by left].
  right. split; [done|]. split; [done|].
  apply byte_eqb_eq in H0, H1. apply Z.ltb_ge in Hlen.
  destruct frame as [|a [|b rest]]; [unfold len in Hlen; simpl in Hlen; lia..|].
  vm_compute in H0. vm_compute in H1. subst. by exists rest.
Qed.

End RtpInput.

(** X14. The RTP bridge takes every frame the capture demux cuts out: such
    a frame is put on the frame queue when the queue has room, and no line
    is logged for it. In general a frame is queued without a log line
    exactly when it begins with FF D8 and ends with FF D9; a frame is never
    queued unless it begins with FF D8 and the queue holds fewer than ten
    frames, and a frame that is turned away leaves the queue as it was. *)
Theorem rtp_bridge_takes_demuxed_frames (frameBuffer : list byte)
    (chunks : list (list byte)) (frameInput : list (list byte)) :
  Forall (λ frame,
            Webrtc.WriteFrame frame frameInput
            = (if bool_decide (length frameInput < 10)%nat
               then frameInput ++ [frame] else frameInput, []))
    (Capture.demuxStream frameBuffer chunks).1
  ∧ (∀ frame,
       (Webrtc.WriteFrame frame frameInput).2 = []
       ↔ ∃ body, frame = [xff; xd8] ++ body ++ [xff; xd9])
  ∧ (∀ frame,
       (Webrtc.WriteFrame frame frameInput).1 = frameInput
       ∨ ((Webrtc.WriteFrame frame frameInput).1 = frameInput ++ [frame]
          ∧ (length frameInput < 10)%nat
          ∧ ∃ rest, frame = xff :: xd8 :: rest)).
Proof.
  split; [|split].
  - apply demuxStream_Forall. intros fb frame rest Hnext.
    apply nextFrame_cuts in Hnext as (pre & body & _ & Hframe & _).
    assert ((Webrtc.WriteFrame frame frameInput).2 = []) as Hlog
      by (apply WriteFrame_silent; eauto).
    destruct (WriteFrame_queue frame frameInput) as [Hq|(Hq & Hroom & _)].
    + destruct (Webrtc.WriteFrame frame frameInput) as [q logs] eqn:Hw.
      cbn [fst snd] in *. subst q logs. f_equal.
      case_bool_decide as Hroom; [|done].
      exfalso. revert Hw. unfold Webrtc.WriteFrame. rewrite Hframe.
      change (Capture.jpegStart ++ body ++ Capture.jpegEnd)
        with (xff :: xd8 :: body ++ [xff; xd9]).
      destruct (len (xff :: xd8 :: body ++ [xff; xd9]) <? 2) eqn:Hlen.
      { apply Z.ltb_lt in Hlen. unfold len in Hlen. simpl in Hlen. lia. }
      change (Webrtc.byteAt (xff :: xd8 :: body ++ [xff; xd9]) 0) with xff.
      change (Webrtc.byteAt (xff :: xd8 :: body ++ [xff; xd9]) 1) with xd8.
      cbn [Byte.eqb andb negb].
      rewrite bool_decide_eq_true_2 by done.
      intros [= Heq _]. apply (f_equal length) in Heq.
      rewrite length_app in Heq. simpl in Heq. lia.
    + destruct (Webrtc.WriteFrame frame frameInput) as [q logs].
      cbn [fst snd] in *. subst q logs.
      by rewrite bool_decide_eq_true_2 by done.
  - intros frame. apply WriteFrame_silent.
  - intros frame. apply WriteFrame_queue.
Qed.

Lemma StartStream_success env id url m c :
  Rtmp.captureManager m !! id = Some c →
  (Rtmp.StartStream env id url m).1 = None →
  let c1 := (Capture.SubscribeFrames (Rtmp.videoSubID id) c).2 in
  let c2 := if Capture.HasAudio c1
            then (Capture.SubscribeAudio (Rtmp.audioSubID id) c1).2
            else c1 in
  Rtmp.StartStream env id url m
  = (None,
     Rtmp.mkManager (<[id := c2]> (Rtmp.captureManager m)) (Rtmp.cameras m)
       (<[id := Rtmp.mkStreamer id url true]> (Rtmp.streamers m))
       ({[id]} ∪ Rtmp.frameFeeds m) (Rtmp.procs m + 1)).
Proof.
  intros Hc. unfold Rtmp.StartStream.
  case_bool_decide; [done|].
  destruct (Rtmp.cameras m !! id) as [cam|]; [|done].
  unfold Capture.GetCapturer. rewrite Hc.
  destruct (negb (Capture.IsRunning c)); [done|].
  by destruct env.
Qed.

(** X15. [StopStream] only cancels the feed of a stream; the goroutine of
    the feed unsubscribes from the capturer later, under the id that every
    stream of the camera uses. Let that unsubscribe come after a new
    [StartStream] of the camera has succeeded on a capturer in a state it
    can reach. Then it closes the queue the new stream has just made and
    removes its table entry: the manager reports the camera as streaming to
    the new URL, and the capturer has no frame subscription for it. *)
Theorem late_unsubscribe_cuts_new_feed (cfg : Config.CameraConfig)
    (acts : list Capture.Action) (env : Capture.SpawnEnv) (id url : string)
    (m : Rtmp.Manager) :
  let c := Capture.run (Capture.NewAVCapturer cfg) acts in
  Rtmp.captureManager m !! id = Some c →
  (Rtmp.StartStream env id url m).1 = None →
  let m1 := (Rtmp.StartStream env id url m).2 in
  let m2 := Rtmp.call m1
              (Rtmp.CCapturer id
                 (Capture.AUnsubscribeFrames (Rtmp.videoSubID id))) in
  Rtmp.GetStreamStatus id m2 = (true, url)
  ∧ (∃ c1, Rtmp.captureManager m1 !! id = Some c1
           ∧ Capture.frameSubscribers c1 !! Rtmp.videoSubID id
             = Some (length (Capture.chans c))
           ∧ Capture.closes <$> Capture.chans c1 !! length (Capture.chans c)
             = Some 0%nat)
  ∧ (∃ c2, Rtmp.captureManager m2 !! id = Some c2
           ∧ Capture.frameSubscribers c2 !! Rtmp.videoSubID id = None
           ∧ Capture.closes <$> Capture.chans c2 !! length (Capture.chans c)
             = Some 1%nat).
Proof.
  intros c Hc Hstart m1 m2.
  pose proof (StartStream_success env id url m c Hc Hstart) as Heq.
  cbn zeta in Heq.
  set (vid := Rtmp.videoSubID id) in *.
  set (c1 := (Capture.SubscribeFrames vid c).2) in *.
  set (c2 := if Capture.HasAudio c1
             then (Capture.SubscribeAudio (Rtmp.audioSubID id) c1).2
             else c1) in *.
  assert (Capture.frameSubscribers c2 !! vid = Some (length (Capture.chans c)))
    as Hsid.
  { subst c2. destruct (Capture.HasAudio c1); simpl; apply lookup_insert_eq. }
  assert (Capture.chans c2 !! length (Capture.chans c)
          = Some (Capture.makeChan Capture.frameQueueSize)) as Hr.
  { subst c2. destruct (Capture.HasAudio c1); simpl.
    - rewrite lookup_app_l by (rewrite length_app; simpl; lia).
      by rewrite lookup_app_r, Nat.sub_diag.
    - by rewrite lookup_app_r, Nat.sub_diag. }
  subst m2 m1. rewrite Heq. cbn [snd]. split; [|split].
  - unfold Rtmp.GetStreamStatus. cbn [Rtmp.call Rtmp.streamers].
    by rewrite lookup_insert_eq.
  - exists c2. cbn [Rtmp.captureManager].
    rewrite lookup_insert_eq. split; [done|]. split; [done|].
    by rewrite Hr.
  - exists (Capture.step c2 (Capture.AUnsubscribeFrames vid)).
    cbn [Rtmp.call Rtmp.captureManager].
    rewrite lookup_alter_eq, lookup_insert_eq. split; [done|].
    cbn [Capture.step]. split; [apply UnsubscribeFrames_lookup|].
    unfold Capture.UnsubscribeFrames. rewrite Hsid. simpl.
    rewrite onChan_chans. rewrite decide_True by done. by rewrite Hr.
Qed.

Lemma late_unsubscribe_cuts_new_feed_witness :
  let c := Capture.run (Capture.NewAVCapturer cam1)
             [Capture.AStart Capture.SpawnOk] in
  Rtmp.captureManager sampleRtmp !! "cam1" = Some c
  ∧ (Rtmp.StartStream Capture.SpawnOk "cam1" "rtmp://host/live" sampleRtmp).1
    = None
  ∧ Rtmp.GetStreamStatus "cam1"
      (Rtmp.call
         (Rtmp.StartStream Capture.SpawnOk "cam1" "rtmp://host/live"
            sampleRtmp).2
         (Rtmp.CCapturer "cam1"
            (Capture.AUnsubscribeFrames (Rtmp.videoSubID "cam1"))))
    = (true, "rtmp://host/live").
Proof.
  intros c.
  assert (H1 : Rtmp.captureManager sampleRtmp !! "cam1" = Some c)
    by (vm_compute; reflexivity).
  assert (H2 : (Rtmp.StartStream Capture.SpawnOk "cam1" "rtmp://host/live"
                  sampleRtmp).1 = None) by (vm_compute; reflexivity).
  split; [exact H1|]. split; [exact H2|].
  exact (proj1 (late_unsubscribe_cuts_new_feed cam1
                  [Capture.AStart Capture.SpawnOk] Capture.SpawnOk
                  "cam1" "rtmp://host/live" sampleRtmp H1 H2)).
Defined.

(** ** The segmented-output manager: processes, status and URLs *)

Section HlsAccounting.
Import Capture.

Lemma configID_step c a : configID (step c a) = configID c.
Proof.
  assert (∀ op refs c', configID (applyAll op refs c') = configID c') as Happ.
  { intros op refs c'. by destruct (applyAll_sameRest op refs c') as (?&_). }
  assert (∀ op r c', configID (onChan op r c') = configID c') as Hon.
  { intros op r c'. by destruct (onChan_sameRest op r c') as (?&_). }
  assert (configID (stopCapture c) = configID c) as Hstop.
  { unfold stopCapture. by destruct (cmd c && cmdProcess c). }
  destruct a; simpl.
  - unfold Start. destruct (running c); [done|]. by destruct env.
  - unfold Stop. destruct (running c); simpl; [|done].
    rewrite closeAudioSubscribers_eq. cbn [configID setAudioSubscribers].
    rewrite Happ, closeFrameSubscribers_eq. cbn [configID setFrameSubscribers].
    by rewrite Happ.
  - done.
  - rewrite closeFrameSubscribers_eq. cbn [configID setFrameSubscribers].
    apply Happ.
  - rewrite closeAudioSubscribers_eq. cbn [configID setAudioSubscribers].
    apply Happ.
  - done.
  - done.
  - unfold UnsubscribeFrames.
    destruct (frameSubscribers c !! id); [|done]. apply Hon.
  - done.
  - unfold UnsubscribeAudio.
    destruct (audioSubscribers c !! id); [|done]. apply Hon.
  - unfold emitFrame. rewrite broadcastFrame_applyAll. by rewrite Happ.
  - rewrite broadcastAudio_applyAll. apply Happ.
  - apply Hon.
Qed.

Lemma StartOutput_cases env id m :
  (∃ err, Stream.StartOutput env id m = (Some err, m))
  ∨ (Stream.running <$> Stream.outputs m !! id ≠ Some true
     ∧ ∃ c, Stream.captureManager m !! id = Some c
            ∧ Stream.StartOutput env id m
              = (None,
                 Stream.mkManager (Stream.captureManager m) (Stream.cameras m)
                   (<[id := Stream.mkHLSOutput (configID c) true]>
                      (Stream.outputs m))
                   (Stream.procs m + 1))).
Proof.
  unfold Stream.StartOutput. case_bool_decide as Hrun; [left; eauto|].
  destruct (Stream.cameras m !! id) as [cam|]; [|left; eauto].
  unfold GetCapturer.
  destruct (Stream.captureManager m !! id) as [c|] eqn:Hc; [|left; eauto].
  destruct env; cbn [Stream.OutputStart Stream.NewHLSOutput Stream.running
    Stream.capturerID]; [left; eauto..|].
  right. split; [done|]. eauto.
Qed.

Lemma runningOutputs_lookup m id :
  runningOutputs m !! id
  = match Stream.outputs m !! id with
    | Some h => if Stream.running h then Some h else None
    | None => None
    end.
Proof.
  unfold runningOutputs. rewrite map_lookup_filter.
  destruct (Stream.outputs m !! id) as [h|]; [|done]. simpl.
  destruct (Stream.running h) eqn:Hrun.
  - by rewrite option_guard_True.
  - by rewrite option_guard_False.
Qed.

Lemma outputsKept_call m k : outputsKept m → outputsKept (Stream.call m k).
Proof.
  intros (Hp & Hreg & Hout). unfold outputsKept, runningOutputs in *.
  destruct k as [env id|id|id|id a]; cbn [Stream.call].
  - destruct (StartOutput_cases env id m)
      as [[err ->]|(Hrun & c & Hc & ->)]; [done|].
    cbn [snd Stream.procs Stream.outputs Stream.captureManager].
    rewrite map_filter_insert_True by done.
    rewrite map_size_insert_None.
    + split; [lia|]. split; [done|].
      intros id' h [[<- <-]|[_ Hh]]%lookup_insert_Some; [|by apply Hout].
      simpl. by apply Hreg.
    + apply map_lookup_filter_None. right. intros h Hh Hh'. simpl in Hh'.
      apply Hrun. by rewrite Hh; simpl; rewrite Hh'.
  - unfold Stream.StopOutput.
    destruct (Stream.outputs m !! id) as [h|] eqn:Hh; [|done].
    cbn [Stream.procs Stream.outputs Stream.captureManager].
    rewrite map_filter_delete. split; [|split; [done|]].
    + destruct (Stream.running h) eqn:Hrun.
      * rewrite map_size_delete_Some; [by rewrite Hp|].
        exists h. by apply map_lookup_filter_Some.
      * rewrite map_size_delete_None; [done|].
        apply map_lookup_filter_None. right. intros h' Hh'. simpl.
        assert (h' = h) as -> by congruence. by rewrite Hrun.
    + intros id' h' [_ Hh']%lookup_delete_Some. by apply Hout.
  - unfold Stream.processExited.
    destruct (Stream.outputs m !! id) as [h|] eqn:Hh; [|done].
    destruct (Stream.running h) eqn:Hrun; [|done].
    cbn [Stream.procs Stream.outputs Stream.captureManager].
    rewrite map_filter_insert_False by (simpl; congruence).
    rewrite map_filter_delete. split; [|split; [done|]].
    + rewrite map_size_delete_Some; [by rewrite Hp|].
      exists h. by apply map_lookup_filter_Some.
    + intros id' h' [[<- <-]|[_ Hh']]%lookup_insert_Some; [|by apply Hout].
      simpl. by apply Hout.
  - cbn [Stream.procs Stream.outputs Stream.captureManager].
    split; [done|]. split; [|done].
    intros id' c' Hc'. apply lookup_alter_Some in Hc'
      as [(<- & c0 & Hc0 & ->)|[_ Hc0]]; [|by apply Hreg].
    rewrite configID_step. by apply Hreg.
Qed.

Lemma outputsKept_calls ks : ∀ m,
  outputsKept m → outputsKept (Stream.calls m ks).
Proof.
  induction ks as [|k ks IH]; intros m Hk; [done|].
  apply IH. by apply outputsKept_call.
Qed.

Lemma outputsKept_new cams :
  outputsKept (Stream.NewHLSOutputManager (addCapturers cams ∅) cams).
Proof.
  split; [|split]; simpl.
  - unfold runningOutputs. simpl. by rewrite map_filter_empty.
  - intros id c. rewrite lookup_addCapturers, lookup_empty.
    destruct (head (filter (λ cam, enabledAs id cam = true) cams))
      as [cam|] eqn:Hhead; [|done].
    intros [= <-]. simpl. apply head_Some_elem_of in Hhead.
    apply list_elem_of_filter in Hhead as [Hen _].
    unfold enabledAs in Hen. apply andb_true_iff in Hen as [_ Hid].
    by apply bool_decide_eq_true in Hid.
  - intros id h. by rewrite lookup_empty.
Qed.

Lemma GetAllOutputs_eq m :
  Stream.GetAllOutputs m = Stream.GetPlaylistURL <$> runningOutputs m.
Proof.
  unfold Stream.GetAllOutputs, runningOutputs.
  apply (map_fold_weak_ind
           (λ r (m' : gmap string Stream.HLSOutput),
              r = Stream.GetPlaylistURL
                    <$> filter (λ p, Stream.running p.2 = true) m')).
  - by rewrite map_filter_empty, fmap_empty.
  - intros i x m' r Hi ->. destruct (Stream.running x) eqn:Hrun.
    + rewrite map_filter_insert_True by done. by rewrite fmap_insert.
    + rewrite map_filter_insert_False by (simpl; congruence).
      by rewrite delete_id.
Qed.

Lemma StopAllOutputs_eq m :
  Stream.StopAll m
  = Stream.mkManager (Stream.captureManager m) (Stream.cameras m) ∅
      (Stream.procs m - size (runningOutputs m)).
Proof.
  unfold Stream.StopAll, runningOutputs.
  pose proof (map_fold_weak_ind
    (λ r (m' : gmap string Stream.HLSOutput),
       r = Stream.mkManager (Stream.captureManager m) (Stream.cameras m)
             (Stream.outputs m ∖ m')
             (Stream.procs m
              - size (filter (λ p, Stream.running p.2 = true) m')))
    (λ id h acc,
       Stream.mkManager (Stream.captureManager acc) (Stream.cameras acc)
         (delete id (Stream.outputs acc))
         (if Stream.running h then pred (Stream.procs acc)
          else Stream.procs acc))
    m) as Hind.
  rewrite Hind.
  - by rewrite map_difference_diag.
  - rewrite map_difference_empty, map_filter_empty, map_size_empty.
    rewrite Nat.sub_0_r. by destruct m.
  - intros i x m' r Hi ->. cbn [Stream.captureManager Stream.cameras
      Stream.outputs Stream.procs].
    rewrite (delete_difference _ _ i x). f_equal.
    destruct (Stream.running x) eqn:Hrun.
    + rewrite map_filter_insert_True by done.
      rewrite map_size_insert_None; [lia|].
      apply map_lookup_filter_None. left. done.
    + rewrite map_filter_insert_False by (simpl; congruence).
      by rewrite delete_id.
Qed.

End HlsAccounting.

(** X16. Let the segmented-output manager work on the registry that [main]
    fills from the configured cameras. In every state it can reach by
    start and stop calls, process exits and steps of the capturers, there
    is exactly one transcoding process for each running output. A camera
    whose status is running is reported with the playlist address
    /hls/<camera id>/index.m3u8, and [GetAllOutputs] lists exactly the
    cameras whose status is running, with the same address. [StopAll]
    leaves no output and no process. *)
Theorem hls_outputs_match_processes (cams : list Config.CameraConfig)
    (ks : list Stream.Call) :
  let m := Stream.calls
             (Stream.NewHLSOutputManager (Capture.addCapturers cams ∅) cams)
             ks in
  Stream.procs m = size (runningOutputs m)
  ∧ (∀ id url, Stream.GetOutputStatus id m = (true, url)
               ↔ Stream.GetAllOutputs m !! id = Some url)
  ∧ (∀ id url, Stream.GetOutputStatus id m = (true, url) →
               url = "/hls/" +:+ id +:+ "/index.m3u8")
  ∧ Stream.outputs (Stream.StopAll m) = ∅
  ∧ Stream.procs (Stream.StopAll m) = 0%nat.
Proof.
  intros m.
  assert (outputsKept m) as (Hp & Hreg & Hout)
    by apply outputsKept_calls, outputsKept_new.
  split; [done|]. split; [|split; [|rewrite StopAllOutputs_eq; simpl]].
  - intros id url. rewrite GetAllOutputs_eq, lookup_fmap.
    rewrite runningOutputs_lookup. unfold Stream.GetOutputStatus.
    destruct (Stream.outputs m !! id) as [h|]; [|done].
    destruct (Stream.running h); simpl; [|done].
    split; intros [= <-]; done.
  - intros id url. unfold Stream.GetOutputStatus.
    destruct (Stream.outputs m !! id) as [h|] eqn:Hh; [|done].
    destruct (Stream.running h); [|done].
    intros [= <-]. unfold Stream.GetPlaylistURL. by rewrite (Hout id h Hh).
  - split; [done|lia].
Qed.

(** ** Delivery order *)

Section Delivery.
Import Capture.

Lemma notAudio_step ref c a :
  (ref < length (chans c))%nat → notAudio ref c → notAudio ref (step c a).
Proof.
  intros Hlt Ha. unfold notAudio in *.
  assert (∀ op refs c', audioSubscribers c' = audioSubscribers c →
            ∀ sid, audioSubscribers (applyAll op refs c') !! sid ≠ Some ref)
    as Happ.
  { intros op refs c' Heq sid. rewrite applyAll_audioSubscribers, Heq.
    apply Ha. }
  assert (∀ op r sid, audioSubscribers (onChan op r c) !! sid ≠ Some ref)
    as Hon.
  { intros op r sid.
    pose proof (onChan_sameRest op r c) as (_&_&_&_&_&_&_&Hae&_).
    rewrite Hae. apply Ha. }
  destruct a; simpl.
  - unfold Start. destruct (running c); [done|]. by destruct env.
  - unfold Stop. destruct (running c); simpl; [|done].
    rewrite closeAudioSubscribers_eq. intros sid. simpl.
    by rewrite lookup_empty.
  - by destruct (stopCapture_tables c) as [_ ->].
  - rewrite closeFrameSubscribers_eq. simpl. by apply Happ.
  - rewrite closeAudioSubscribers_eq. intros sid. simpl.
    by rewrite lookup_empty.
  - done.
  - done.
  - unfold UnsubscribeFrames.
    destruct (frameSubscribers c !! id) as [r|]; [|done]. simpl. apply Hon.
  - simpl. intros sid [[_ Heq]|[_ Hsid]]%lookup_insert_Some; [lia|].
    by apply (Ha sid).
  - unfold UnsubscribeAudio.
    destruct (audioSubscribers c !! id) as [r|]; [|done]. simpl.
    intros sid [_ Hsid]%lookup_delete_Some. by apply (Ha sid).
  - unfold emitFrame. rewrite broadcastFrame_applyAll. by apply Happ.
  - rewrite broadcastAudio_applyAll. by apply Happ.
  - apply Hon.
Qed.

Lemma sendDropOldest_sublist v ch :
  buf (sendDropOldest v ch).1 `sublist_of` buf ch ++ [v].
Proof.
  unfold sendDropOldest, trySend at 1.
  destruct (isClosed ch) eqn:Hc; [by apply sublist_inserts_r|].
  case_bool_decide; [done|].
  unfold tryRecv. destruct (buf ch) as [|x b] eqn:Hb; rewrite ?Hc.
  - unfold trySend. rewrite Hc.
    case_bool_decide; simpl; rewrite Hb; [done|apply sublist_nil_l].
  - unfold trySend, isClosed in *. simpl. rewrite Hc.
    destruct (bool_decide (length b < cap ch)%nat); simpl.
    + by apply sublist_cons.
    + apply sublist_cons, sublist_inserts_r. reflexivity.
Qed.

(** One step on a channel that is not an audio queue: what its reader
    takes, followed by what it holds afterwards, is what it held followed
    by the frame emitted, with some frames left out. *)
Lemma delivery_step ref c a ch :
  wf c → chans c !! ref = Some ch → notAudio ref c →
  ∃ ch', chans (step c a) !! ref = Some ch'
         ∧ option_list (taken ref c a) ++ buf ch'
           `sublist_of` buf ch ++ emitted [a].
Proof.
  intros Hwf Hr Ha.
  assert (ref ∉ tableRefs (audioSubscribers c)) as Hna.
  { intros [sid Hsid]%elem_of_tableRefs. by apply (Ha sid). }
  assert (∀ c', taken ref c a = None →
            (∃ ch', chans c' !! ref = Some ch' ∧ buf ch' = buf ch) →
            ∃ ch', chans c' !! ref = Some ch'
                   ∧ option_list (taken ref c a) ++ buf ch'
                     `sublist_of` buf ch ++ emitted [a]) as Hsame.
  { intros c' -> (ch' & Hr' & Hb). exists ch'. split; [done|].
    simpl. rewrite Hb. by apply sublist_inserts_r. }
  assert (∀ refs, NoDup refs →
            ∃ ch', chans (applyAll chanClose refs c) !! ref = Some ch'
                   ∧ buf ch' = buf ch) as Hclose.
  { intros refs Hnd. rewrite applyAll_chans by done. rewrite Hr.
    case_decide; simpl; eauto. }
  destruct a; cbn [step].
  - apply Hsame; [done|]. exists ch. split; [|done].
    unfold Start. destruct (running c); [done|]. by destruct env.
  - apply Hsame; [done|]. destruct (running c) eqn:Hrun.
    + destruct (Stop_running c Hwf Hrun) as (_ & _ & _ & Hch).
      rewrite Hch, Hr. case_decide; simpl; eauto.
    + unfold Stop. rewrite Hrun. simpl. eauto.
  - apply Hsame; [done|]. rewrite stopCapture_chans. eauto.
  - apply Hsame; [done|]. rewrite closeFrameSubscribers_eq. simpl.
    apply Hclose, NoDup_tableRefs, Hwf.
  - apply Hsame; [done|]. rewrite closeAudioSubscribers_eq. simpl.
    apply Hclose, NoDup_tableRefs, Hwf.
  - apply Hsame; [done|]. simpl. eauto.
  - apply Hsame; [done|]. simpl. exists ch.
    split; [by apply lookup_app_l_Some|done].
  - apply Hsame; [done|]. unfold UnsubscribeFrames.
    destruct (frameSubscribers c !! id) as [r|]; [|eauto]. simpl.
    rewrite onChan_chans, Hr. case_decide; simpl; eauto.
  - apply Hsame; [done|]. simpl. exists ch.
    split; [by apply lookup_app_l_Some|done].
  - apply Hsame; [done|]. unfold UnsubscribeAudio.
    destruct (audioSubscribers c !! id) as [r|]; [|eauto]. simpl.
    rewrite onChan_chans, Hr. case_decide; simpl; eauto.
  - rewrite emitFrame_chans by done. rewrite Hr. cbn [taken option_list app emitted].
    case_decide; simpl.
    + eexists. split; [done|]. apply sendDropOldest_sublist.
    + exists ch. split; [done|]. by apply sublist_inserts_r.
  - apply Hsame; [done|]. rewrite broadcastAudio_chans by done.
    rewrite decide_False by done. eauto.
  - rewrite onChan_chans. cbn [taken emitted]. rewrite app_nil_r.
    case_decide as Hreq.
    + subst ref0. rewrite decide_True by done. rewrite Hr. simpl.
      eexists. split; [done|]. unfold receive, tryRecv.
      destruct (buf ch) as [|v rest] eqn:Hb; simpl.
      * destruct (isClosed ch); simpl; by rewrite Hb.
      * done.
    + rewrite decide_False by done. simpl. eauto.
Qed.

Lemma emitted_cons a acts : emitted (a :: acts) = emitted [a] ++ emitted acts.
Proof. by destruct a. Qed.

Lemma delivery_run ref acts : ∀ c ch,
  wf c → chans c !! ref = Some ch → notAudio ref c →
  ∃ ch', chans (run c acts) !! ref = Some ch'
         ∧ received ref c acts ++ buf ch' `sublist_of` buf ch ++ emitted acts.
Proof.
  induction acts as [|a acts IH]; intros c ch Hwf Hr Ha.
  - exists ch. split; [done|]. simpl. by rewrite app_nil_r.
  - change (run c (a :: acts)) with (run (step c a) acts).
    destruct (delivery_step ref c a ch Hwf Hr Ha) as (ch1 & Hr1 & Hs1).
    destruct (IH (step c a) ch1) as (ch2 & Hr2 & Hs2);
      [by apply wf_step|done| |].
    { apply notAudio_step; [|done]. by apply lookup_lt_Some in Hr. }
    exists ch2. split; [done|].
    cbn [received]. rewrite emitted_cons, <- app_assoc.
    trans (option_list (taken ref c a) ++ buf ch1 ++ emitted acts).
    + by apply sublist_app.
    + rewrite !app_assoc. by apply sublist_app.
Qed.

End Delivery.

(** X17. Let a capturer be in a state it can reach, and take the queue of
    one of its frame subscriptions. Over any steps that follow, the frames
    its reader has taken from the queue, followed by the frames the queue
    still holds, are the frames it held at first followed by the frames
    emitted since, in that order, with some frames left out. So no frame
    is delivered twice and no two frames are delivered out of order,
    whatever is dropped on the way and however the steps interleave. *)
Theorem frames_delivered_in_order (cfg : Config.CameraConfig)
    (before acts : list Capture.Action) (sid : string) (ref : nat) :
  let c := Capture.run (Capture.NewAVCapturer cfg) before in
  Capture.frameSubscribers c !! sid = Some ref →
  ∃ ch ch',
    Capture.chans c !! ref = Some ch
    ∧ Capture.chans (Capture.run c acts) !! ref = Some ch'
    ∧ received ref c acts ++ Capture.buf ch'
      `sublist_of` Capture.buf ch ++ emitted acts.
Proof.
  intros c Hsid.
  assert (Hwf : wf c) by apply wf_run, wf_new.
  destruct (wf_frame_open _ Hwf _ _ Hsid) as (ch & Hr & _).
  destruct (delivery_run ref acts c ch Hwf Hr) as (ch' & Hr' & Hsub).
  { intros id Hid. by apply (wf_disjoint _ Hwf sid id ref). }
  by exists ch, ch'.
Qed.

Lemma frames_delivered_in_order_witness :
  let before := [Capture.AStart Capture.SpawnOk;
                 Capture.ASubscribeFrames "viewer"] in
  let acts := [Capture.AEmitFrame [xff; xd8; x41; xff; xd9];
               Capture.AEmitFrame [xff; xd8; x42; xff; xd9];
               Capture.AReceive 0%nat] in
  let c := Capture.run (Capture.NewAVCapturer cam1) before in
  Capture.frameSubscribers c !! "viewer" = Some 0%nat
  ∧ ∃ ch ch',
      Capture.chans c !! 0%nat = Some ch
      ∧ Capture.chans (Capture.run c acts) !! 0%nat = Some ch'
      ∧ received 0%nat c acts ++ Capture.buf ch'
        `sublist_of` Capture.buf ch ++ emitted acts.
Proof.
  intros before acts c.
  assert (H : Capture.frameSubscribers c !! "viewer" = Some 0%nat)
    by (vm_compute; reflexivity).
  split; [exact H|].
  exact (frames_delivered_in_order cam1 before acts "viewer" 0%nat H).
Defined.

(** ** The performance monitor *)

Section MonitorHistory.

Lemma checkAlerts_history point m :
  Monitor.history (Monitor.checkAlerts point m) = Monitor.history m
  ∧ Monitor.historySize (Monitor.checkAlerts point m) = Monitor.historySize m.
Proof.
  unfold Monitor.checkAlerts.
  destruct (Monitor.memThreshold m <? Monitor.MemAlloc point),
    (Monitor.lastMemAlert m); cbn [negb];
    match goal with
    | |- context [if ?b <? ?n then _ else _] => destruct (b <? n)
    end;
    match goal with
    | |- context [Monitor.lastGoroutineAlert ?x] =>
        destruct (Monitor.lastGoroutineAlert x)
    end; done.
Qed.

Lemma checkAlerts_flags point m :
  Monitor.lastMemAlert (Monitor.checkAlerts point m)
  = (Monitor.memThreshold m <? Monitor.MemAlloc point)
  ∧ Monitor.lastGoroutineAlert (Monitor.checkAlerts point m)
    = (Monitor.goroutineThreshold m <? Monitor.NumGoroutine point).
Proof.
  unfold Monitor.checkAlerts.
  destruct (Monitor.memThreshold m <? Monitor.MemAlloc point),
    (Monitor.lastMemAlert m) eqn:Hm; cbn [negb];
    cbn [Monitor.goroutineThreshold Monitor.setLastMemAlert Monitor.addAlert
         Monitor.setAlerts Monitor.setLogged Monitor.lastGoroutineAlert];
    destruct (Monitor.goroutineThreshold m <? Monitor.NumGoroutine point),
      (Monitor.lastGoroutineAlert m) eqn:Hg; cbn [negb]; simpl; auto.
Qed.

Lemma history_slides n (pre h : list Monitor.HistoryPoint) point :
  h = drop (length pre - n) pre →
  (if Z.of_nat n <? len (h ++ [point]) then sliceFrom 1 (h ++ [point])
   else h ++ [point])
  = drop (length (pre ++ [point]) - n) (pre ++ [point]).
Proof.
  intros ->. unfold len, sliceFrom. rewrite !length_app, length_drop.
  simpl length. change (Z.to_nat 1) with 1%nat.
  destruct (Z.of_nat n <? _) eqn:Hlt.
  - apply Z.ltb_lt in Hlt.
    rewrite <- (drop_app_le pre [point]) by lia.
    rewrite drop_drop. f_equal. lia.
  - apply Z.ltb_ge in Hlt.
    replace (length pre - n)%nat with 0%nat by lia.
    replace (length pre + 1 - n)%nat with 0%nat by lia. done.
Qed.

Lemma run_history evs : ∀ m pre,
  Monitor.historySize m = 720 →
  Monitor.history m = drop (length pre - 720) pre →
  Monitor.historySize (Monitor.run m evs) = 720
  ∧ Monitor.history (Monitor.run m evs)
    = drop (length (pre ++ collected evs) - 720) (pre ++ collected evs).
Proof.
  induction evs as [|ev evs IH]; intros m pre Hsize Hh.
  - simpl. by rewrite app_nil_r.
  - change (Monitor.run m (ev :: evs)) with (Monitor.run (Monitor.step m ev) evs).
    destruct ev as [point|memMB goroutines]; cbn [collected Monitor.step].
    + replace (pre ++ point :: collected evs)
        with ((pre ++ [point]) ++ collected evs) by (by rewrite <- app_assoc).
      destruct (checkAlerts_history point
                  (Monitor.setHistory
                     (if Monitor.historySize m
                         <? len (Monitor.history m ++ [point])
                      then sliceFrom 1 (Monitor.history m ++ [point])
                      else Monitor.history m ++ [point]) m)) as [Hh' Hs'].
      apply IH; unfold Monitor.collect.
      * by rewrite Hs'.
      * rewrite Hh'. cbn [Monitor.history Monitor.setHistory]. rewrite Hsize.
        by apply (history_slides 720).
    + by apply IH.
Qed.

End MonitorHistory.

(** X18. The history of the performance monitor is a sliding window: after
    any run of collections and threshold changes it holds the last 720
    points collected, oldest first, and all of them while there are fewer.
    After each collection the two alert flags say whether the point just
    collected exceeds the memory threshold and the goroutine threshold. *)
Theorem monitor_history_is_recent_window (evs : list Monitor.Event)
    (point : Monitor.HistoryPoint) :
  let m := Monitor.run Monitor.NewMonitor evs in
  Monitor.history m
  = drop (length (collected evs) - 720) (collected evs)
  ∧ (length (Monitor.history m) ≤ 720)%nat
  ∧ Monitor.lastMemAlert (Monitor.collect point m)
    = (Monitor.memThreshold m <? Monitor.MemAlloc point)
  ∧ Monitor.lastGoroutineAlert (Monitor.collect point m)
    = (Monitor.goroutineThreshold m <? Monitor.NumGoroutine point).
Proof.
  intros m.
  destruct (run_history evs Monitor.NewMonitor [] eq_refl eq_refl) as [_ Hh].
  rewrite app_nil_l in Hh. fold m in Hh.
  split; [done|]. split; [rewrite Hh, length_drop; lia|].
  unfold Monitor.collect.
  match goal with
  | |- context [Monitor.checkAlerts point ?x] =>
      destruct (checkAlerts_flags point x) as [Hmem Hgo]
  end.
  split; [exact Hmem|exact Hgo].
Qed.

Section MonitorAlerts.

Lemma alternating_snoc l x :
  alternating l → (∀ y, last l = Some y → y ≠ x) → alternating (l ++ [x]).
Proof.
  induction l as [|a l IH]; [done|]. intros [Hab Hl] Hlast.
  destruct l as [|b l].
  - split; [|done]. by apply Hlast.
  - split; [done|]. apply IH; [done|].
    intros y Hy. apply Hlast. by rewrite last_cons_cons.
Qed.

Lemma alternating_drop1 l : alternating l → alternating (drop 1 l).
Proof. destruct l as [|a l]; [done|]. by intros [_ H]. Qed.

Lemma last_drop1 {A} (l : list A) y : last (drop 1 l) = Some y → last l = Some y.
Proof. by destruct l as [|a [|b l]]. Qed.

Lemma ownAlerts_drop1 kind types :
  ownAlerts kind (drop 1 types) = ownAlerts kind types
  ∨ ownAlerts kind (drop 1 types) = drop 1 (ownAlerts kind types).
Proof.
  destruct types as [|a r]; [by left|].
  change (drop 1 (a :: r)) with r. unfold ownAlerts.
  rewrite filter_cons. case_decide; [by right|by left].
Qed.

Lemma alertsKept_drop1 kind on flag types :
  alertsKept kind on flag types → alertsKept kind on flag (drop 1 types).
Proof.
  intros [Halt Hlast]. unfold alertsKept.
  destruct (ownAlerts_drop1 kind types) as [-> | ->]; [done|].
  split; [by apply alternating_drop1|].
  intros y Hy. by apply Hlast, last_drop1.
Qed.

Lemma alertsKept_other kind on flag types t :
  isMemory t ≠ kind →
  alertsKept kind on flag types → alertsKept kind on flag (types ++ [t]).
Proof.
  intros Hne. unfold alertsKept, ownAlerts.
  rewrite filter_app, filter_cons, decide_False by done.
  by rewrite filter_nil, app_nil_r.
Qed.

Lemma alertsKept_own kind on flag flag' types t :
  isMemory t = kind →
  alertsKept kind on flag types →
  (t = on ↔ flag = false) → (t = on ↔ flag' = true) →
  alertsKept kind on flag' (types ++ [t]).
Proof.
  intros Hk [Halt Hlast] Hflip Hnew. unfold alertsKept, ownAlerts.
  rewrite filter_app, filter_cons, decide_True by done.
  rewrite filter_nil. split.
  - apply alternating_snoc; [done|]. intros y Hy ->.
    apply Hlast in Hy. destruct flag.
    + destruct Hy as [_ Hy]. specialize (Hy eq_refl).
      by apply Hflip in Hy.
    + destruct Hflip as [_ Hf]. specialize (Hf eq_refl).
      by apply Hy in Hf.
  - intros y. rewrite last_snoc. by intros [= <-].
Qed.

Lemma addAlert_types t v m :
  alertTypes (Monitor.addAlert t v m)
  = if Monitor.alertsLimit m <? len (Monitor.alerts m) + 1
    then drop 1 (alertTypes m ++ [t]) else alertTypes m ++ [t].
Proof.
  unfold alertTypes, Monitor.addAlert.
  cbn [Monitor.alerts Monitor.setAlerts Monitor.setLogged].
  rewrite len_app. change (len [_]) with 1.
  destruct (Monitor.alertsLimit m <? len (Monitor.alerts m) + 1).
  - unfold sliceFrom. by rewrite fmap_drop, fmap_app.
  - by rewrite fmap_app.
Qed.

Lemma addAlert_kept t v m fm fg :
  monitorKept m →
  (if isMemory t
   then (t = Monitor.Memory ↔ Monitor.lastMemAlert m = false)
        ∧ (t = Monitor.Memory ↔ fm = true)
        ∧ fg = Monitor.lastGoroutineAlert m
   else (t = Monitor.Goroutine ↔ Monitor.lastGoroutineAlert m = false)
        ∧ (t = Monitor.Goroutine ↔ fg = true)
        ∧ fm = Monitor.lastMemAlert m) →
  monitorKept (Monitor.setLastGoroutineAlert fg
                 (Monitor.setLastMemAlert fm (Monitor.addAlert t v m))).
Proof.
  intros (Hlim & Hlen & Hmem & Hgo & Hres) Ht.
  unfold monitorKept.
  change (alertTypes (Monitor.setLastGoroutineAlert fg
            (Monitor.setLastMemAlert fm (Monitor.addAlert t v m))))
    with (alertTypes (Monitor.addAlert t v m)).
  rewrite addAlert_types.
  cbn [Monitor.alertsLimit Monitor.alerts Monitor.lastMemAlert
       Monitor.lastGoroutineAlert Monitor.setLastGoroutineAlert
       Monitor.setLastMemAlert Monitor.addAlert Monitor.setAlerts
       Monitor.setLogged].
  assert (alertsKept true Monitor.Memory fm (alertTypes m ++ [t])
          ∧ alertsKept false Monitor.Goroutine fg (alertTypes m ++ [t]))
    as [Hmem' Hgo'].
  { destruct (isMemory t) eqn:Hk.
    - destruct Ht as (Hflip & Hnew & ->). split.
      + by eapply alertsKept_own.
      + apply alertsKept_other; [by rewrite Hk|done].
    - destruct Ht as (Hflip & Hnew & ->). split.
      + apply alertsKept_other; [by rewrite Hk|done].
      + by eapply alertsKept_own. }
  assert (Forall (λ a, Monitor.Resolved a
                       = bool_decide (Monitor.Type' a = Monitor.MemoryResolved
                                      ∨ Monitor.Type' a
                                        = Monitor.GoroutineResolved))
            (Monitor.alerts m
             ++ [Monitor.mkAlert t v
                   (bool_decide (t = Monitor.MemoryResolved
                                 ∨ t = Monitor.GoroutineResolved))]))
    as Hres'.
  { apply Forall_app. split; [done|]. by constructor. }
  split; [done|]. rewrite len_app. change (len [_]) with 1.
  destruct (Monitor.alertsLimit m <? len (Monitor.alerts m) + 1) eqn:Hover.
  - split; [|split; [|split]].
    + unfold sliceFrom, len. rewrite length_drop, length_app. simpl.
      unfold len in Hlen. lia.
    + by apply alertsKept_drop1.
    + by apply alertsKept_drop1.
    + by apply Forall_drop.
  - apply Z.ltb_ge in Hover. split; [|done].
    unfold len in *. rewrite length_app. simpl. lia.
Qed.

Lemma monitorKept_same m m' :
  Monitor.alerts m' = Monitor.alerts m →
  Monitor.alertsLimit m' = Monitor.alertsLimit m →
  Monitor.lastMemAlert m' = Monitor.lastMemAlert m →
  Monitor.lastGoroutineAlert m' = Monitor.lastGoroutineAlert m →
  monitorKept m → monitorKept m'.
Proof.
  intros Ha Hl Hm Hg. unfold monitorKept, alertTypes.
  by rewrite Ha, Hl, Hm, Hg.
Qed.

Lemma checkAlerts_kept point m :
  monitorKept m → monitorKept (Monitor.checkAlerts point m).
Proof.
  intros Hk. unfold Monitor.checkAlerts.
  assert (monitorKept
            (if Monitor.memThreshold m <? Monitor.MemAlloc point
             then if negb (Monitor.lastMemAlert m)
                  then Monitor.setLastMemAlert true
                         (Monitor.addAlert Monitor.Memory
                            (Monitor.MemAlloc point) m)
                  else m
             else if Monitor.lastMemAlert m
                  then Monitor.setLastMemAlert false
                         (Monitor.addAlert Monitor.MemoryResolved
                            (Monitor.MemAlloc point) m)
                  else m)) as Hk1.
  { destruct (Monitor.memThreshold m <? Monitor.MemAlloc point),
      (Monitor.lastMemAlert m) eqn:Hm; cbn [negb]; try done.
    - apply (monitorKept_same
               (Monitor.setLastGoroutineAlert (Monitor.lastGoroutineAlert m)
                  (Monitor.setLastMemAlert true
                     (Monitor.addAlert Monitor.Memory
                        (Monitor.MemAlloc point) m)))); [done..|].
      apply addAlert_kept; [done|]. simpl. by rewrite Hm.
    - apply (monitorKept_same
               (Monitor.setLastGoroutineAlert (Monitor.lastGoroutineAlert m)
                  (Monitor.setLastMemAlert false
                     (Monitor.addAlert Monitor.MemoryResolved
                        (Monitor.MemAlloc point) m)))); [done..|].
      apply addAlert_kept; [done|]. simpl. by rewrite Hm. }
  revert Hk1.
  generalize (if Monitor.memThreshold m <? Monitor.MemAlloc point
              then if negb (Monitor.lastMemAlert m)
                   then Monitor.setLastMemAlert true
                          (Monitor.addAlert Monitor.Memory
                             (Monitor.MemAlloc point) m)
                   else m
              else if Monitor.lastMemAlert m
                   then Monitor.setLastMemAlert false
                          (Monitor.addAlert Monitor.MemoryResolved
                             (Monitor.MemAlloc point) m)
                   else m).
  intros m1 Hk1.
  destruct (Monitor.goroutineThreshold m1 <? Monitor.NumGoroutine point),
    (Monitor.lastGoroutineAlert m1) eqn:Hg; cbn [negb]; try done.
  - apply (monitorKept_same
             (Monitor.setLastGoroutineAlert true
                (Monitor.setLastMemAlert (Monitor.lastMemAlert m1)
                   (Monitor.addAlert Monitor.Goroutine
                      (Monitor.NumGoroutine point) m1)))); [done..|].
    apply addAlert_kept; [done|]. simpl. by rewrite Hg.
  - apply (monitorKept_same
             (Monitor.setLastGoroutineAlert false
                (Monitor.setLastMemAlert (Monitor.lastMemAlert m1)
                   (Monitor.addAlert Monitor.GoroutineResolved
                      (Monitor.NumGoroutine point) m1)))); [done..|].
    apply addAlert_kept; [done|]. simpl. by rewrite Hg.
Qed.

Lemma monitorKept_run evs : ∀ m,
  monitorKept m → monitorKept (Monitor.run m evs).
Proof.
  induction evs as [|ev evs IH]; intros m Hk; [done|].
  apply IH. destruct ev as [point|memMB goroutines]; cbn [Monitor.step].
  - unfold Monitor.collect. apply checkAlerts_kept.
    by apply (monitorKept_same m).
  - by apply (monitorKept_same m).
Qed.

Lemma monitorKept_new : monitorKept Monitor.NewMonitor.
Proof.
  split; [done|]. split; [done|]. split; [|split]; [by split..|].
  constructor.
Qed.

Lemma raisedKept_other kind on flag types t :
  isMemory t ≠ kind →
  raisedKept kind on flag types → raisedKept kind on flag (types ++ [t]).
Proof.
  intros Hne. unfold raisedKept, ownAlerts.
  rewrite filter_app, filter_cons, decide_False by done.
  by rewrite filter_nil, app_nil_r.
Qed.

Lemma raisedKept_own kind on flag flag' types t :
  isMemory t = kind →
  raisedKept kind on flag types →
  (t = on ↔ flag = false) → (t = on ↔ flag' = true) →
  raisedKept kind on flag' (types ++ [t]).
Proof.
  intros Hk (Halt & Hhead & Hlast) Hflip Hnew. unfold raisedKept, ownAlerts.
  rewrite filter_app, filter_cons, decide_True by done.
  rewrite filter_nil. fold (ownAlerts kind types).
  assert (flag = true ∨ flag = false) as [Hf|Hf] by (destruct flag; auto).
  - assert (t ≠ on) as Hne by (intros Ht%Hflip; congruence).
    pose proof (proj1 Hlast Hf) as Hl.
    split; [|split].
    + apply alternating_snoc; [done|]. intros y Hy. congruence.
    + intros y. destruct (ownAlerts kind types) as [|a l]; [done|].
      intros Hy. by apply Hhead.
    + rewrite last_snoc. split; [by intros ?%Hnew|by intros [= ?]].
  - assert (t = on) as -> by (by apply Hflip).
    split; [|split].
    + apply alternating_snoc; [done|]. intros y Hy ->.
      apply Hlast in Hy. congruence.
    + intros y. destruct (ownAlerts kind types) as [|a l] eqn:Hown.
      * by intros [= <-].
      * intros Hy. by apply Hhead.
    + rewrite last_snoc. split; [done|]. intros _. by apply Hnew.
Qed.

Lemma addAlert_logged t v m fm fg :
  logKept m →
  (if isMemory t
   then (t = Monitor.Memory ↔ Monitor.lastMemAlert m = false)
        ∧ (t = Monitor.Memory ↔ fm = true)
        ∧ fg = Monitor.lastGoroutineAlert m
   else (t = Monitor.Goroutine ↔ Monitor.lastGoroutineAlert m = false)
        ∧ (t = Monitor.Goroutine ↔ fg = true)
        ∧ fm = Monitor.lastMemAlert m) →
  logKept (Monitor.setLastGoroutineAlert fg
             (Monitor.setLastMemAlert fm (Monitor.addAlert t v m))).
Proof.
  intros (Hlim & Hheld & Hmem & Hgo) Ht. unfold logKept, loggedTypes.
  cbn [Monitor.alertsLimit Monitor.alerts Monitor.lastMemAlert
       Monitor.lastGoroutineAlert Monitor.setLastGoroutineAlert
       Monitor.setLastMemAlert Monitor.addAlert Monitor.setAlerts
       Monitor.setLogged Monitor.logged].
  split; [done|]. split; [|split].
  - set (alert := Monitor.mkAlert t v _).
    set (n := length (Monitor.logged m)) in *.
    rewrite length_app. cbn [length]. fold n.
    rewrite len_app, Hlim. change (len [alert]) with 1.
    assert (length (Monitor.alerts m) = Nat.min n 100) as Hl.
    { rewrite Hheld, length_drop. fold n. lia. }
    destruct (100 <? len (Monitor.alerts m) + 1) eqn:Hover.
    + apply Z.ltb_lt in Hover. unfold len in Hover.
      assert (100 ≤ n)%nat as Hn by lia.
      unfold sliceFrom. change (Z.to_nat 1) with 1%nat.
      rewrite Hheld. fold n.
      rewrite <- (drop_app_le (Monitor.logged m) [alert]) by (fold n; lia).
      rewrite drop_drop. f_equal. lia.
    + apply Z.ltb_ge in Hover. unfold len in Hover.
      assert (n < 100)%nat as Hn by lia.
      rewrite Hheld. fold n.
      replace (n - 100)%nat with 0%nat by lia.
      replace (n + 1 - 100)%nat with 0%nat by lia. done.
  - rewrite fmap_app. cbn [fmap list_fmap Monitor.Type'].
    destruct (isMemory t) eqn:Hk.
    + destruct Ht as (Hflip & Hnew & ->). by eapply raisedKept_own.
    + apply raisedKept_other; [by rewrite Hk|].
      by destruct Ht as (_ & _ & ->).
  - rewrite fmap_app. cbn [fmap list_fmap Monitor.Type'].
    destruct (isMemory t) eqn:Hk.
    + apply raisedKept_other; [by rewrite Hk|].
      by destruct Ht as (_ & _ & ->).
    + destruct Ht as (Hflip & Hnew & ->). by eapply raisedKept_own.
Qed.

Lemma logKept_same m m' :
  Monitor.alerts m' = Monitor.alerts m →
  Monitor.alertsLimit m' = Monitor.alertsLimit m →
  Monitor.lastMemAlert m' = Monitor.lastMemAlert m →
  Monitor.lastGoroutineAlert m' = Monitor.lastGoroutineAlert m →
  Monitor.logged m' = Monitor.logged m →
  logKept m → logKept m'.
Proof.
  intros Ha Hl Hm Hg Hlog. unfold logKept, loggedTypes.
  by rewrite Ha, Hl, Hm, Hg, Hlog.
Qed.

Lemma checkAlerts_logged point m :
  logKept m → logKept (Monitor.checkAlerts point m).
Proof.
  intros Hk. unfold Monitor.checkAlerts.
  assert (logKept
            (if Monitor.memThreshold m <? Monitor.MemAlloc point
             then if negb (Monitor.lastMemAlert m)
                  then Monitor.setLastMemAlert true
                         (Monitor.addAlert Monitor.Memory
                            (Monitor.MemAlloc point) m)
                  else m
             else if Monitor.lastMemAlert m
                  then Monitor.setLastMemAlert false
                         (Monitor.addAlert Monitor.MemoryResolved
                            (Monitor.MemAlloc point) m)
                  else m)) as Hk1.
  { destruct (Monitor.memThreshold m <? Monitor.MemAlloc point),
      (Monitor.lastMemAlert m) eqn:Hm; cbn [negb]; try done.
    - apply (logKept_same
               (Monitor.setLastGoroutineAlert (Monitor.lastGoroutineAlert m)
                  (Monitor.setLastMemAlert true
                     (Monitor.addAlert Monitor.Memory
                        (Monitor.MemAlloc point) m)))); [done..|].
      apply addAlert_logged; [done|]. simpl. by rewrite Hm.
    - apply (logKept_same
               (Monitor.setLastGoroutineAlert (Monitor.lastGoroutineAlert m)
                  (Monitor.setLastMemAlert false
                     (Monitor.addAlert Monitor.MemoryResolved
                        (Monitor.MemAlloc point) m)))); [done..|].
      apply addAlert_logged; [done|]. simpl. by rewrite Hm. }
  revert Hk1.
  generalize (if Monitor.memThreshold m <? Monitor.MemAlloc point
              then if negb (Monitor.lastMemAlert m)
                   then Monitor.setLastMemAlert true
                          (Monitor.addAlert Monitor.Memory
                             (Monitor.MemAlloc point) m)
                   else m
              else if Monitor.lastMemAlert m
                   then Monitor.setLastMemAlert false
                          (Monitor.addAlert Monitor.MemoryResolved
                             (Monitor.MemAlloc point) m)
                   else m).
  intros m1 Hk1.
  destruct (Monitor.goroutineThreshold m1 <? Monitor.NumGoroutine point),
    (Monitor.lastGoroutineAlert m1) eqn:Hg; cbn [negb]; try done.
  - apply (logKept_same
             (Monitor.setLastGoroutineAlert true
                (Monitor.setLastMemAlert (Monitor.lastMemAlert m1)
                   (Monitor.addAlert Monitor.Goroutine
                      (Monitor.NumGoroutine point) m1)))); [done..|].
    apply addAlert_logged; [done|]. simpl. by rewrite Hg.
  - apply (logKept_same
             (Monitor.setLastGoroutineAlert false
                (Monitor.setLastMemAlert (Monitor.lastMemAlert m1)
                   (Monitor.addAlert Monitor.GoroutineResolved
                      (Monitor.NumGoroutine point) m1)))); [done..|].
    apply addAlert_logged; [done|]. simpl. by rewrite Hg.
Qed.

Lemma logKept_run evs : ∀ m, logKept m → logKept (Monitor.run m evs).
Proof.
  induction evs as [|ev evs IH]; intros m Hk; [done|].
  apply IH. destruct ev as [point|memMB goroutines]; cbn [Monitor.step].
  - unfold Monitor.collect. apply checkAlerts_logged.
    by apply (logKept_same m).
  - by apply (logKept_same m).
Qed.

Lemma logKept_new : logKept Monitor.NewMonitor.
Proof. by repeat split. Qed.

End MonitorAlerts.

(** X19. [addAlert] prints every alert it adds to the log, and the monitor
    holds the last 100 of the alerts it has logged. Among all the alerts
    logged, those about memory alternate between an alert and its
    resolution and begin with an alert, and so do those about goroutines:
    an alert is raised when a measurement first exceeds its threshold, not
    again while it stays above, and resolved once when it is back. The
    flag of a kind is set exactly when the last alert logged of the kind is
    unresolved, whether the monitor still holds that alert or not. Among
    the alerts held, those of a kind alternate as well; when one of the
    kind is held, the flag is set exactly when the last of them is
    unresolved; and an alert is marked resolved exactly when it is a
    resolution. *)
Theorem monitor_alerts_alternate (evs : list Monitor.Event) :
  let m := Monitor.run Monitor.NewMonitor evs in
  len (Monitor.alerts m) ≤ 100
  ∧ Monitor.alerts m
    = drop (length (Monitor.logged m) - 100) (Monitor.logged m)
  ∧ alternating (ownAlerts true (loggedTypes m))
  ∧ alternating (ownAlerts false (loggedTypes m))
  ∧ (∀ t, head (ownAlerts true (loggedTypes m)) = Some t → t = Monitor.Memory)
  ∧ (∀ t, head (ownAlerts false (loggedTypes m)) = Some t →
          t = Monitor.Goroutine)
  ∧ (Monitor.lastMemAlert m = true
     ↔ last (ownAlerts true (loggedTypes m)) = Some Monitor.Memory)
  ∧ (Monitor.lastGoroutineAlert m = true
     ↔ last (ownAlerts false (loggedTypes m)) = Some Monitor.Goroutine)
  ∧ alternating (ownAlerts true (alertTypes m))
  ∧ alternating (ownAlerts false (alertTypes m))
  ∧ (∀ t, last (ownAlerts true (alertTypes m)) = Some t →
          (t = Monitor.Memory ↔ Monitor.lastMemAlert m = true))
  ∧ (∀ t, last (ownAlerts false (alertTypes m)) = Some t →
          (t = Monitor.Goroutine ↔ Monitor.lastGoroutineAlert m = true))
  ∧ Forall (λ a, Monitor.Resolved a = true
                 ↔ Monitor.Type' a = Monitor.MemoryResolved
                   ∨ Monitor.Type' a = Monitor.GoroutineResolved)
      (Monitor.alerts m).
Proof.
  intros m.
  destruct (monitorKept_run evs _ monitorKept_new)
    as (_ & Hlen & [Hm1 Hm2] & [Hg1 Hg2] & Hres).
  destruct (logKept_run evs _ logKept_new)
    as (_ & Hheld & (Hma & Hmh & Hml) & (Hga & Hgh & Hgl)).
  fold m in Hlen, Hm1, Hm2, Hg1, Hg2, Hres, Hheld, Hma, Hmh, Hml, Hga, Hgh, Hgl.
  repeat (split; [done|]).
  eapply Forall_impl; [exact Hres|]. intros a Ha. simpl in Ha.
  rewrite Ha. apply bool_decide_eq_true.
Qed.

Section MonitorReads.

Lemma newest_first {A} (l : list A) (k : nat) :
  (k ≤ length l)%nat →
  omap (λ i : nat, l !! Z.to_nat (len l - 1 - Z.of_nat i)) (seq 0 k)
  = take k (reverse l).
Proof.
  induction k as [|k IH]; intros Hk; [done|].
  rewrite seq_S, omap_app, IH by lia. simpl.
  assert (reverse l !! k = l !! Z.to_nat (len l - 1 - Z.of_nat k)) as Hrev.
  { rewrite reverse_lookup by lia. f_equal. unfold len. lia. }
  destruct (lookup_lt_is_Some_2 (reverse l) k) as [x Hx];
    [rewrite length_reverse; lia|].
  rewrite <- Hrev, Hx. simpl. by rewrite (take_S_r _ _ x).
Qed.

Lemma GetAlerts_eq limit m :
  Monitor.GetAlerts limit m
  = take (if 0 <? limit then Z.to_nat limit else length (Monitor.alerts m))
      (reverse (Monitor.alerts m)).
Proof.
  unfold Monitor.GetAlerts.
  destruct (limit <=? 0) eqn:Hle; cbn [orb].
  - apply Z.leb_le in Hle.
    destruct (0 <? limit) eqn:Hlt; [apply Z.ltb_lt in Hlt; lia|].
    unfold len at 2. rewrite Nat2Z.id. by apply newest_first.
  - apply Z.leb_gt in Hle.
    destruct (0 <? limit) eqn:Hlt; [|apply Z.ltb_ge in Hlt; lia].
    destruct (len (Monitor.alerts m) <? limit) eqn:Hover.
    + apply Z.ltb_lt in Hover. unfold len at 2. rewrite Nat2Z.id.
      rewrite newest_first by done.
      rewrite !take_ge; [done|rewrite length_reverse..]; unfold len in *; lia.
    + apply Z.ltb_ge in Hover. apply newest_first. unfold len in *. lia.
Qed.

Lemma GetHistory_eq minutes m :
  let want := Webrtc.wrapInt ((if minutes <=? 0 then 60 else minutes) * 12) in
  Monitor.GetHistory minutes m
  = if want <? 0 then None
    else Some (drop (length (Monitor.history m) - Z.to_nat want)
                 (Monitor.history m)).
Proof.
  intros want. unfold Monitor.GetHistory. fold want.
  set (h := Monitor.history m). unfold sliceFrom, len.
  destruct (Z.of_nat (length h) <? want) eqn:Hover.
  - apply Z.ltb_lt in Hover.
    destruct (want <? 0) eqn:Hneg; [apply Z.ltb_lt in Hneg; lia|].
    replace (length h - Z.to_nat want)%nat with 0%nat by lia.
    destruct (Z.of_nat (length h) =? 0) eqn:Hz.
    + apply Z.eqb_eq in Hz. by destruct h.
    + destruct (Z.of_nat (length h) <? 0) eqn:Hn;
        [apply Z.ltb_lt in Hn; lia|].
      by rewrite Z.sub_diag.
  - apply Z.ltb_ge in Hover.
    destruct (want =? 0) eqn:Hz.
    + apply Z.eqb_eq in Hz. rewrite Hz. simpl.
      by rewrite Nat.sub_0_r, drop_all.
    + destruct (want <? 0) eqn:Hneg; [done|].
      apply Z.ltb_ge in Hneg. do 2 f_equal. lia.
Qed.

End MonitorReads.

(** X20. How the monitor is read. [GetAlerts] returns the newest alerts
    first: as many as asked for, and all of them when the limit is not
    positive or exceeds their number. [GetHistory] returns the last 12
    points for each minute asked for, oldest first, or the whole history
    if it is shorter, and takes a number of minutes that is not positive
    as 60. This holds while 12 times the minutes fits a 64-bit integer;
    when the product wraps around to a negative number, [GetHistory]
    panics. *)
Theorem monitor_reads_recent_first (minutes limit : Z) (m : Monitor.Monitor) :
  Monitor.GetAlerts limit m
  = take (if 0 <? limit then Z.to_nat limit else length (Monitor.alerts m))
      (reverse (Monitor.alerts m))
  ∧ (0 < minutes → minutes * 12 < 2 ^ 63 →
     Monitor.GetHistory minutes m
     = Some (drop (length (Monitor.history m) - Z.to_nat (minutes * 12))
               (Monitor.history m)))
  ∧ (minutes ≤ 0 → Monitor.GetHistory minutes m = Monitor.GetHistory 60 m)
  ∧ (0 < minutes → Webrtc.wrapInt (minutes * 12) < 0 →
     Monitor.GetHistory minutes m = None).
Proof.
  split; [apply GetAlerts_eq|]. split; [|split].
  - intros Hpos Hfit. rewrite GetHistory_eq. cbn zeta.
    destruct (minutes <=? 0) eqn:Hle; [apply Z.leb_le in Hle; lia|].
    rewrite wrapInt_id by lia.
    by destruct (minutes * 12 <? 0) eqn:Hneg; [apply Z.ltb_lt in Hneg; lia|].
  - intros Hle. rewrite !GetHistory_eq. cbn zeta.
    by destruct (minutes <=? 0) eqn:Hle'; [|apply Z.leb_gt in Hle'; lia].
  - intros Hpos Hneg. rewrite GetHistory_eq. cbn zeta.
    destruct (minutes <=? 0) eqn:Hle; [apply Z.leb_le in Hle; lia|].
    by destruct (Webrtc.wrapInt (minutes * 12) <? 0) eqn:Hn;
      [|apply Z.ltb_ge in Hn; lia].
Qed.

Lemma monitor_reads_recent_first_witness :
  0 < 768614336404564651
  ∧ Webrtc.wrapInt (768614336404564651 * 12) < 0
  ∧ Monitor.GetHistory 768614336404564651 Monitor.NewMonitor = None.
Proof.
  assert (H1 : 0 < 768614336404564651) by lia.
  assert (H2 : Webrtc.wrapInt (768614336404564651 * 12) < 0)
    by (vm_compute; reflexivity).
  split; [exact H1|]. split; [exact H2|].
  exact (proj2 (proj2 (proj2 (monitor_reads_recent_first
                                768614336404564651 0 Monitor.NewMonitor)))
           H1 H2).
Defined.

(** ** The snapshot endpoint *)

Section Snapshot.
Import Capture.

Lemma awaitFrame_closed sid ref t rest pre : ∀ elapsed c,
  wf c → waiting ref c → frameSubscribers c !! sid = Some ref →
  Forall (λ ta, ta.1 < getFrameTimeout ∧ keepsWaiting sid ta.2 = true) pre →
  t < getFrameTimeout → 0 ≤ elapsed < getFrameTimeout →
  let r := awaitFrame ref elapsed (pre ++ (t, ACloseFrames) :: rest) c in
  r.1.1 = GotFrame None ∧ 0 ≤ r.1.2 < getFrameTimeout.
Proof.
  intros elapsed c Hwf Hw Hsid Hpre Ht He.
  by apply (awaitFrame_closing sid).
Qed.

End Snapshot.

(** X21. The snapshot endpoint answers 404 for a camera that is not in the
    registry, and leaves the registry as it is. For a registered capturer
    in a state it can reach: when it is not running the answer is 503;
    when it is running and has ever emitted a frame the answer is 200 with
    the last frame emitted; and when it is running with no cached frame
    and [Stop] closes the frame queues while [GetFrame] waits, [GetFrame]
    returns neither a frame nor an error, before the timer fires, and the
    answer is 503. *)
Theorem snapshot_answers (cfg : Config.CameraConfig)
    (acts : list Capture.Action) (id : string) (now t : Z)
    (sched pre rest : list (Z * Capture.Action))
    (capturers : gmap string Capture.Capturer) :
  let c := Capture.run (Capture.NewAVCapturer cfg) acts in
  (capturers !! id = None →
   Handler.GetSnapshot id now sched capturers
   = (Handler.StatusNotFound, capturers))
  ∧ (capturers !! id = Some c →
     (Capture.running c = false →
      (Handler.GetSnapshot id now sched capturers).1
      = Handler.StatusServiceUnavailable)
     ∧ (Capture.running c = true →
        ∀ frame, last (emitted acts) = Some frame →
                 (Handler.GetSnapshot id now sched capturers).1
                 = Handler.StatusOK frame)
     ∧ (Capture.running c = true →
        Capture.lastFrame c = None →
        Forall (λ ta, ta.1 < Capture.getFrameTimeout
                      ∧ keepsWaiting (Capture.snapshotID now) ta.2 = true)
          pre →
        t < Capture.getFrameTimeout →
        let closing := pre ++ (t, Capture.ACloseFrames) :: rest in
        (Capture.GetFrame now closing c).1.1 = (None, None)
        ∧ 0 ≤ (Capture.GetFrame now closing c).1.2 < Capture.getFrameTimeout
        ∧ (Handler.GetSnapshot id now closing capturers).1
          = Handler.StatusServiceUnavailable)).
Proof.
  intros c. split.
  - intros Hid. unfold Handler.GetSnapshot, Capture.GetCapturer.
    by rewrite Hid.
  - intros Hid.
    assert (Hwf : wf c) by apply wf_run, wf_new.
    assert (∀ sched', Handler.GetSnapshot id now sched' capturers
              = (let '((frame, err), _, capturer') :=
                   Capture.GetFrame now sched' c in
                 (match err, frame with
                  | None, Some frame => Handler.StatusOK frame
                  | _, _ => Handler.StatusServiceUnavailable
                  end, <[id := capturer']> capturers))) as Hsnap.
    { intros sched'. unfold Handler.GetSnapshot, Capture.GetCapturer.
      by rewrite Hid. }
    split; [|split].
    + intros Hrun. rewrite Hsnap. unfold Capture.GetFrame. by rewrite Hrun.
    + intros Hrun frame Hlast. rewrite Hsnap. unfold Capture.GetFrame.
      rewrite Hrun. cbn [negb]. subst c. rewrite lastFrame_run, Hlast. done.
    + intros Hrun Hlast Hpre Ht closing.
      assert ((Capture.GetFrame now closing c).1.1 = (None, None)
              ∧ 0 ≤ (Capture.GetFrame now closing c).1.2
                  < Capture.getFrameTimeout) as [Hres Htime].
      { unfold Capture.GetFrame. rewrite Hrun, Hlast. cbn [negb].
        set (subID := Capture.snapshotID now) in *.
        pose proof (waiting_subscribed subID c Hwf) as Hw.
        pose proof (wf_SubscribeFrames subID c Hwf) as Hwf1.
        assert (Capture.frameSubscribers (Capture.SubscribeFrames subID c).2
                  !! subID = Some (length (Capture.chans c))) as Hsid
          by (simpl; apply lookup_insert_eq).
        destruct (Capture.SubscribeFrames subID c) as [ref c1] eqn:Hsub.
        assert (ref = length (Capture.chans c)) as Href
          by (by injection Hsub as <- _).
        cbn [snd] in Hw, Hwf1, Hsid. rewrite <- Href in Hw, Hsid.
        assert (0 ≤ 0 < Capture.getFrameTimeout) as H0
          by (unfold Capture.getFrameTimeout; lia).
        pose proof (awaitFrame_closed subID ref t rest pre 0 c1
                      Hwf1 Hw Hsid Hpre Ht H0) as [Hgot He].
        fold closing in Hgot, He.
        destruct (Capture.awaitFrame ref 0 closing c1) as [[w e] c2].
        cbn [fst snd] in Hgot, He. subst w. by cbn [fst snd]. }
      split; [done|]. split; [done|].
      rewrite Hsnap.
      destruct (Capture.GetFrame now closing c) as [[[frame err] e] c'].
      cbn [fst snd] in Hres. by injection Hres as -> ->.
Qed.

Lemma snapshot_answers_witness :
  let c := Capture.run (Capture.NewAVCapturer cam1)
             [Capture.AStart Capture.SpawnOk] in
  let closing := [(1000000000, Capture.ACloseFrames)] in
  sampleCapturers !! "cam1" = Some c
  ∧ Capture.running c = true
  ∧ Capture.lastFrame c = None
  ∧ (Capture.GetFrame 1700000000 closing c).1.1 = (None, None)
  ∧ (Handler.GetSnapshot "cam1" 1700000000 closing sampleCapturers).1
    = Handler.StatusServiceUnavailable.
Proof.
  intros c closing.
  assert (Hid : sampleCapturers !! "cam1" = Some c)
    by (vm_compute; reflexivity).
  assert (Hrun : Capture.running c = true) by (vm_compute; reflexivity).
  assert (Hlast : Capture.lastFrame c = None) by (vm_compute; reflexivity).
  assert (Hpre : Forall (λ ta, ta.1 < Capture.getFrameTimeout
                   ∧ keepsWaiting (Capture.snapshotID 1700000000) ta.2 = true)
                   []) by constructor.
  assert (Ht : 1000000000 < Capture.getFrameTimeout)
    by (vm_compute; reflexivity).
  split; [exact Hid|]. split; [exact Hrun|]. split; [exact Hlast|].
  pose proof (proj2 (proj2 (proj2 (snapshot_answers cam1
                [Capture.AStart Capture.SpawnOk] "cam1" 1700000000
                1000000000 [] [] [] sampleCapturers) Hid))
                Hrun Hlast Hpre Ht) as (H1 & _ & H3).
  split; [exact H1|exact H3].
Defined.

Section FormatBytes.

Lemma unitLoop_exits bytes fuel : ∀ n k,
  0 ≤ bytes < 2 ^ 64 → 0 ≤ k →
  1024 ^ (k + 1) ≤ bytes →
  n = bytes / 1024 ^ (k + 1) →
  n < 1024 ^ Z.of_nat fuel →
  ∃ k', Monitor.unitLoop fuel n (1024 ^ (k + 1)) k = (1024 ^ (k' + 1), k')
        ∧ k ≤ k'
        ∧ 1024 ^ (k' + 1) ≤ bytes < 1024 * 1024 ^ (k' + 1).
Proof.
  induction fuel as [|fuel IH]; intros n k Hb Hk Hle Hn Hfuel.
  - exists k. split; [done|]. split; [lia|]. split; [done|].
    simpl in Hfuel.
    assert (0 < 1024 ^ (k + 1)) as Hpos by (apply Z.pow_pos_nonneg; lia).
    assert (0 ≤ n) as Hn0 by (subst n; apply Z.div_pos; lia).
    assert (n = 0) as Hz by lia.
    pose proof (Z.div_mod bytes (1024 ^ (k + 1)) ltac:(lia)) as Hdm.
    pose proof (Z.mod_pos_bound bytes (1024 ^ (k + 1)) Hpos) as Hmod.
    rewrite <- Hn, Hz in Hdm. lia.
  - cbn [Monitor.unitLoop].
    assert (0 < 1024 ^ (k + 1)) as Hpos by (apply Z.pow_pos_nonneg; lia).
    pose proof (Z.div_mod bytes (1024 ^ (k + 1)) ltac:(lia)) as Hdm.
    pose proof (Z.mod_pos_bound bytes (1024 ^ (k + 1)) Hpos) as Hmod.
    rewrite <- Hn in Hdm.
    destruct (1024 <=? n) eqn:Hbig.
    + apply Z.leb_le in Hbig.
      assert (1024 ^ (k + 1 + 1) = 1024 ^ (k + 1) * 1024) as Hpow
        by (rewrite Z.pow_add_r by lia; lia).
      assert (1024 ^ (k + 1 + 1) ≤ bytes) as Hle' by nia.
      rewrite Z.mod_small by lia.
      rewrite wrapInt_id.
      2:{ assert (k < 7); [|lia].
          destruct (decide (k < 7)) as [|Hge]; [done|].
          assert (1024 ^ 7 ≤ 1024 ^ (k + 1))
            by (apply Z.pow_le_mono_r; lia).
          change (1024 ^ 7) with 1180591620717411303424 in *.
          change (2 ^ 64) with 18446744073709551616 in *. lia. }
      rewrite <- Hpow.
      destruct (IH (n / 1024) (k + 1)) as (k' & Heq & Hkk & Hres);
        [done|lia|done| |..].
      * rewrite Hn, Z.div_div by lia. by rewrite Hpow.
      * rewrite Nat2Z.inj_succ, Z.pow_succ_r in Hfuel by lia.
        apply Z.div_lt_upper_bound; lia.
      * exists k'. split; [done|]. split; [lia|done].
    + apply Z.leb_gt in Hbig. exists k. split; [done|]. split; [lia|].
      split; [done|]. nia.
Qed.

End FormatBytes.

(** X22. [formatBytes] prints a count below 1024 as it is. For any larger
    64-bit count its loop ends with a divisor that is a power of 1024, at
    most 1024 to the 6th, such that the count over the divisor is at least
    1 and less than 1024, and with an index between 0 and 5: the letter
    of the unit is always found in KMGTPE, and the index never runs out of
    range. *)
Theorem formatBytes_unit_in_range (bytes : Z) :
  0 ≤ bytes < 2 ^ 64 →
  (bytes < 1024 → Monitor.formatBytes bytes = Some (Monitor.Plain bytes))
  ∧ (1024 ≤ bytes →
     ∃ exp c,
       Monitor.formatBytes bytes
       = Some (Monitor.Scaled bytes (1024 ^ (exp + 1)) c)
       ∧ 0 ≤ exp ≤ 5
       ∧ String.get (Z.to_nat exp) "KMGTPE" = Some c
       ∧ 1024 ^ (exp + 1) ≤ bytes < 1024 * 1024 ^ (exp + 1)).
Proof.
  intros Hb. unfold Monitor.formatBytes. split.
  - intros Hlt. by destruct (bytes <? 1024) eqn:H; [|apply Z.ltb_ge in H; lia].
  - intros Hge.
    destruct (bytes <? 1024) eqn:H; [apply Z.ltb_lt in H; lia|].
    destruct (unitLoop_exits bytes 64 (bytes / 1024) 0)
      as (exp & Heq & Hexp & Hlo & Hhi); [done|lia|simpl; lia|done| |].
    { apply Z.div_lt_upper_bound; [lia|].
      change (2 ^ 64) with 18446744073709551616 in Hb.
      assert (18446744073709551616 ≤ 1024 * 1024 ^ Z.of_nat 64)
        by (vm_compute; discriminate).
      lia. }
    change (1024 ^ (0 + 1)) with 1024 in Heq. rewrite Heq.
    assert (exp ≤ 5) as Hexp5.
    { destruct (decide (exp ≤ 5)) as [|Hgt]; [done|].
      assert (1024 ^ 7 ≤ 1024 ^ (exp + 1)) by (apply Z.pow_le_mono_r; lia).
      change (1024 ^ 7) with 1180591620717411303424 in *.
      change (2 ^ 64) with 18446744073709551616 in *. lia. }
    destruct (exp <? 0) eqn:Hneg; [apply Z.ltb_lt in Hneg; lia|].
    assert (exp = 0 ∨ exp = 1 ∨ exp = 2 ∨ exp = 3 ∨ exp = 4 ∨ exp = 5)
      as Hcases by lia.
    destruct Hcases as [->|[->|[->|[->|[->| ->]]]]];
      (eexists _, _; split; [reflexivity|];
       split; [lia|]; split; [reflexivity|]; split; [exact Hlo|exact Hhi]).
Qed.

Lemma formatBytes_unit_in_range_witness :
  0 ≤ 5368709120 < 2 ^ 64
  ∧ 1024 ≤ 5368709120
  ∧ ∃ exp c,
      Monitor.formatBytes 5368709120
      = Some (Monitor.Scaled 5368709120 (1024 ^ (exp + 1)) c)
      ∧ 0 ≤ exp ≤ 5
      ∧ String.get (Z.to_nat exp) "KMGTPE" = Some c
      ∧ 1024 ^ (exp + 1) ≤ 5368709120 < 1024 * 1024 ^ (exp + 1).
Proof.
  assert (H1 : 0 ≤ 5368709120 < 2 ^ 64)
    by (split; [lia|vm_compute; reflexivity]).
  assert (H2 : 1024 ≤ 5368709120) by lia.
  split; [exact H1|]. split; [exact H2|].
  exact (proj2 (formatBytes_unit_in_range 5368709120 H1) H2).
Defined.

(** ** The defaults of the configuration *)

Section Defaults.

Lemma orInt_set n d : d ≠ 0 → Config.orInt n d ≠ 0.
Proof.
  intros Hd. unfold Config.orInt.
  destruct (n =? 0) eqn:Hn; [done|]. by apply Z.eqb_neq in Hn.
Qed.

Lemma orInt_keep n d : n ≠ 0 → Config.orInt n d = n.
Proof.
  intros Hn. unfold Config.orInt. by apply Z.eqb_neq in Hn as ->.
Qed.

Lemma orString_set s d : d ≠ EmptyString → Config.orString s d ≠ EmptyString.
Proof. intros Hd. unfold Config.orString. by case_decide. Qed.

Lemma orString_keep s d : s ≠ EmptyString → Config.orString s d = s.
Proof. intros Hs. unfold Config.orString. by case_decide. Qed.

Lemma setDefaults_filled config : filled (Config.setDefaults config).
Proof.
  unfold filled, Config.setDefaults. simpl.
  repeat split; try (by apply orInt_set); try (by apply orString_set).
  - apply Forall_fmap, Forall_true. intros a. simpl.
    split; by apply orInt_set.
  - by destruct (Config.MJPEGEnabled (Config.Preview config)),
      (Config.WebRTCEnabled (Config.Preview config)).
  - case_bool_decide as Hlen; [done|].
    intros Hnil. apply Hlen. by rewrite Hnil.
Qed.

Lemma setDefaults_keeps config :
  filled config → Config.setDefaults config = config.
Proof.
  intros (H1&H2&H3&H4&H5&H6&H7&H8&H9&H10&H11&H12&H13&H14&H15).
  destruct config as [[host port] cams [path seg ret fmt] [hseg hpl tmp]
                        [mj mjport mjq rtc rtcport stun]].
  unfold Config.setDefaults. simpl in *.
  rewrite !orInt_keep, !orString_keep by done.
  f_equal.
  - rewrite <- (list_fmap_id cams) at 2. apply list_fmap_ext.
    intros i [rate chans] Ha. eapply Forall_lookup_1 in H3; [|done].
    destruct H3 as [Hr Hc]. simpl in *. by rewrite !orInt_keep.
  - f_equal.
    + by destruct mj, rtc.
    + rewrite bool_decide_eq_false_2; [done|]. by destruct stun.
Qed.

End Defaults.

(** X23. After [setDefaults] every setting that has a default is set and
    a preview is enabled: a port, size, length or rate of 0, an empty
    string and an empty server list are replaced, so a 0 cannot be
    configured for any of them. A configuration in which all of them are
    set, and only such a one, is left as it is; so applying [setDefaults]
    twice is the same as applying it once. *)
Theorem setDefaults_fills_what_is_missing (config : Config.Settings) :
  filled (Config.setDefaults config)
  ∧ (filled config ↔ Config.setDefaults config = config)
  ∧ Config.setDefaults (Config.setDefaults config) = Config.setDefaults config.
Proof.
  split; [apply setDefaults_filled|]. split.
  - split; [apply setDefaults_keeps|].
    intros <-. apply setDefaults_filled.
  - apply setDefaults_keeps, setDefaults_filled.
Qed.

(** ** The frame path of a push streamer *)

Section RtmpFeed.
Import RtmpStreamer.

Lemma failuresLogged_app l k :
  failuresLogged (l ++ k) = failuresLogged l + failuresLogged k.
Proof. unfold failuresLogged. by rewrite filter_app, len_app. Qed.

Lemma noticesLogged_app l k :
  noticesLogged (l ++ k) = noticesLogged l + noticesLogged k.
Proof. unfold noticesLogged. by rewrite filter_app, len_app. Qed.

Lemma feedStep_kept k st ev st' :
  feedKept k st → k + 1 < 2 ^ 63 →
  feedStep st ev = Some st' → feedKept (k + 1) st'.
Proof.
  intros (He & Hf & Hk & Hw & Hfail & Hnote) Hfit.
  assert (0 ≤ k) as Hk0 by lia.
  destruct ev as [|running stdin frame writeOk]; [done|].
  cbn [feedStep]. destruct running; [|done]. cbn [negb].
  destruct (stdin && (0 <? len frame)).
  2:{ intros [= <-]. unfold feedKept. repeat split; try done; lia. }
  destruct writeOk; cbn [negb]; intros [= <-]; unfold feedKept;
    cbn [errCount frameCount written logs].
  - rewrite wrapInt_id by (change (2 ^ 63) with 9223372036854775808 in *; lia).
    rewrite failuresLogged_app, noticesLogged_app, len_app.
    change (len [frame]) with 1.
    assert (failuresLogged
              (if (frameCount st + 1 =? 1)
                  || (Z.rem (frameCount st + 1) 300 =? 0)
               then [LogPushed (frameCount st + 1)] else []) = 0) as ->
      by (by destruct ((frameCount st + 1 =? 1)
                       || (Z.rem (frameCount st + 1) 300 =? 0))).
    assert (noticesLogged
              (if (frameCount st + 1 =? 1)
                  || (Z.rem (frameCount st + 1) 300 =? 0)
               then [LogPushed (frameCount st + 1)] else []) = 0) as ->
      by (by destruct ((frameCount st + 1 =? 1)
                       || (Z.rem (frameCount st + 1) 300 =? 0))).
    destruct (Z.leb_spec 3 (errCount st)); simpl; repeat split; lia.
  - rewrite wrapInt_id by (change (2 ^ 63) with 9223372036854775808 in *; lia).
    rewrite !failuresLogged_app, !noticesLogged_app.
    destruct (Z.leb_spec (errCount st + 1) 3) as [H3|H3];
      destruct (Z.eqb_spec (errCount st + 1) 3) as [E3|E3];
      destruct (Z.leb_spec 3 (errCount st)) as [Hold|Hold];
      destruct (Z.leb_spec 3 (errCount st + 1)) as [Hnew|Hnew];
      change (failuresLogged [LogWriteFailed]) with 1;
      change (failuresLogged [LogSuppressed]) with 0;
      change (failuresLogged []) with 0;
      change (noticesLogged [LogWriteFailed]) with 0;
      change (noticesLogged [LogSuppressed]) with 1;
      change (noticesLogged []) with 0;
      repeat split; lia.
Qed.

Lemma feedLoop_kept evs : ∀ k st,
  feedKept k st → k + len evs < 2 ^ 63 →
  ∃ k', feedKept k' (feedLoop st evs).
Proof.
  induction evs as [|ev evs IH]; intros k st Hk Hfit; [by exists k|].
  cbn [feedLoop].
  assert (len (ev :: evs) = 1 + len evs) as Hlen
    by (unfold len; simpl length; lia).
  assert (0 ≤ len evs) as Hpos by (unfold len; lia).
  destruct (feedStep st ev) as [st'|] eqn:Hstep; [|by exists k].
  apply (IH (k + 1)); [|lia].
  apply (feedStep_kept k st ev); [done|lia|done].
Qed.

Lemma feedLoop_written evs : ∀ st,
  written (feedLoop st evs) `sublist_of` written st ++ offered evs.
Proof.
  induction evs as [|ev evs IH]; intros st.
  - simpl. by rewrite app_nil_r.
  - cbn [feedLoop]. destruct ev as [|running stdin frame writeOk].
    + simpl. by apply sublist_inserts_r.
    + cbn [feedStep offered]. destruct running; cbn [negb];
        [|by apply sublist_inserts_r].
      destruct (stdin && (0 <? len frame)).
      * destruct writeOk; cbn [negb].
        -- etrans; [apply IH|]. cbn [written].
           by rewrite <- app_assoc.
        -- etrans; [apply IH|]. cbn [written].
           apply sublist_app; [done|]. by apply sublist_cons.
      * etrans; [apply IH|]. apply sublist_app; [done|].
        by apply sublist_cons.
Qed.

End RtmpFeed.

(** X24. The loop that feeds a push streamer's transcoder logs a failed
    write at most three times in a row, then one notice that further
    failures are not shown, and starts over after a write that succeeds:
    over any run of fewer than 2^63 passes the failure lines are at most
    three for each frame written plus three, and the notices at most one
    for each frame written plus one. A failed write does not end the
    loop. The frame counter is the number of frames written, and the
    frames written are frames taken from the queue, in their order. *)
Theorem rtmp_feed_logs_are_throttled (evs : list RtmpStreamer.FeedEvent) :
  len evs < 2 ^ 63 →
  let st := RtmpStreamer.feedFrames evs in
  RtmpStreamer.frameCount st = len (RtmpStreamer.written st)
  ∧ failuresLogged (RtmpStreamer.logs st)
    ≤ 3 * (len (RtmpStreamer.written st) + 1)
  ∧ noticesLogged (RtmpStreamer.logs st) ≤ len (RtmpStreamer.written st) + 1
  ∧ RtmpStreamer.written st `sublist_of` offered evs
  ∧ (∀ st' frame, RtmpStreamer.feedStep st'
                    (RtmpStreamer.EFrame true true frame false) ≠ None).
Proof.
  intros Hfit st.
  destruct (feedLoop_kept evs 0 (RtmpStreamer.mkFeed 0 0 [] []))
    as (k & He & Hf & Hk & Hw & Hfail & Hnote); [by repeat split|lia|].
  fold (RtmpStreamer.feedFrames evs) in He, Hf, Hk, Hw, Hfail, Hnote.
  fold st in He, Hf, Hk, Hw, Hfail, Hnote.
  split; [done|]. split; [lia|]. split.
  - destruct (3 <=? RtmpStreamer.errCount st); lia.
  - split; [apply (feedLoop_written evs (RtmpStreamer.mkFeed 0 0 [] []))|].
    intros st' frame. cbn [RtmpStreamer.feedStep negb andb].
    by destruct (0 <? len frame).
Qed.

Lemma rtmp_feed_logs_are_throttled_witness :
  let frame := [xff; xd8; xff; xd9] in
  let evs := replicate 5 (RtmpStreamer.EFrame true true frame false)
             ++ [RtmpStreamer.EFrame true true frame true] in
  len evs < 2 ^ 63
  ∧ failuresLogged (RtmpStreamer.logs (RtmpStreamer.feedFrames evs))
    ≤ 3 * (len (RtmpStreamer.written (RtmpStreamer.feedFrames evs)) + 1).
Proof.
  intros frame evs.
  assert (H : len evs < 2 ^ 63) by (vm_compute; reflexivity).
  split; [exact H|].
  exact (proj1 (proj2 (rtmp_feed_logs_are_throttled evs H))).
Defined.

Section RtmpInput.
Import RtmpStreamer.

Lemma WriteFrames_queue frames : ∀ frameInput,
  (length frameInput ≤ frameInputSize)%nat →
  foldl (λ q frame, WriteFrame true frame q) frameInput frames
  = take frameInputSize (frameInput ++ frames).
Proof.
  induction frames as [|f frames IH]; intros q Hq.
  - simpl. by rewrite app_nil_r, take_ge.
  - cbn [foldl]. unfold WriteFrame at 2. cbn [negb].
    assert ((if bool_decide (length q < frameInputSize)%nat
             then q ++ [f] else q) = take frameInputSize (q ++ [f])) as ->.
    { rewrite <- drop_newest_step by done.
      case_bool_decide; by case_decide. }
    rewrite IH by (rewrite length_take; lia).
    by rewrite take_first_app, <- app_assoc.
Qed.

End RtmpInput.

(** X25. [WriteFrame] hands frames to a push streamer without blocking. On
    a streamer that is not running, as after [Stop] or after its process
    has ended, it does nothing. On a running streamer whose feed takes
    nothing from the queue, the queue holds the first 30 frames of what it
    held followed by the frames written: a frame that finds the queue full
    is dropped, older frames are kept. *)
Theorem rtmp_writeFrame_keeps_oldest (frames frameInput : list (list byte)) :
  (length frameInput ≤ 30)%nat →
  foldl (λ q frame, RtmpStreamer.WriteFrame false frame q) frameInput frames
  = frameInput
  ∧ foldl (λ q frame, RtmpStreamer.WriteFrame true frame q) frameInput frames
    = take 30 (frameInput ++ frames).
Proof.
  intros Hq. split; [|by apply WriteFrames_queue].
  induction frames as [|f frames IH]; [done|]. cbn [foldl]. exact IH.
Qed.

Lemma rtmp_writeFrame_keeps_oldest_witness :
  (length (take 29 sampleFrames) ≤ 30)%nat
  ∧ foldl (λ q frame, RtmpStreamer.WriteFrame true frame q)
      (take 29 sampleFrames) (drop 29 sampleFrames)
    = take 30 (take 29 sampleFrames ++ drop 29 sampleFrames).
Proof.
  assert (H : (length (take 29 sampleFrames) ≤ 30)%nat)
    by (vm_compute; lia).
  split; [exact H|].
  exact (proj2 (rtmp_writeFrame_keeps_oldest (drop 29 sampleFrames)
                  (take 29 sampleFrames) H)).
Defined.

Section StopAllProps.
Import Capture.

Lemma Stop_stopped c : running (Stop c).2 = false.
Proof.
  unfold Stop. destruct (running c) eqn:Hrun; [done|]. simpl. by rewrite Hrun.
Qed.

Lemma Stop_twice c : (Stop (Stop c).2).2 = (Stop c).2.
Proof. unfold Stop at 1. by rewrite Stop_stopped. Qed.

End StopAllProps.

(** X26. Let every capturer of the registry be in a state in which it has
    one process when [cmd] holds a command that was started and none
    otherwise, and none when it is stopped, as it is when its calls have
    come one after another, failed starts included. After [StopAll] no
    capturer is running and none has a capture process; the registry
    holds the same ids; and a second [StopAll] changes nothing. When
    moreover [cmd] is set in no stopped capturer, and only to a command
    that was started, so that no failed start has left its command behind,
    [cmd] is nil in every capturer afterwards. *)
Theorem stopAll_leaves_nothing_running
    (capturers : gmap string Capture.Capturer) :
  map_Forall (λ _ c, processTracked c) capturers →
  dom (Capture.StopAll capturers) = dom capturers
  ∧ map_Forall (λ _ c, Capture.running c = false
                       ∧ hasProcess c = false
                       ∧ Capture.procs c = 0%nat)
      (Capture.StopAll capturers)
  ∧ (map_Forall (λ _ c, processKept c) capturers →
     map_Forall (λ _ c, Capture.cmd c = false) (Capture.StopAll capturers))
  ∧ Capture.StopAll (Capture.StopAll capturers) = Capture.StopAll capturers.
Proof.
  intros Hall. unfold Capture.StopAll. split; [apply dom_fmap_L|].
  split; [|split].
  - intros id c'. rewrite lookup_fmap.
    destruct (capturers !! id) as [c|] eqn:Hc; [|done].
    intros [= <-]. split; [apply Stop_stopped|].
    destruct (Stop_process c (Hall id c Hc)) as (Hn & Hh & _). done.
  - intros Hkept id c'. rewrite lookup_fmap.
    destruct (capturers !! id) as [c|] eqn:Hc; [|done].
    intros [= <-].
    pose proof (Hkept id c Hc) as (Hp & Hr & Hs).
    destruct (Stop_process c (Hall id c Hc)) as (_ & _ & Hcmd).
    destruct (Capture.running c) eqn:Hrun.
    + destruct (Capture.cmd c) eqn:Hc'; [by apply Hcmd; [| |apply Hs]|].
      unfold Capture.Stop. rewrite Hrun. cbn [negb snd].
      change (Capture.cmd (Capture.setRunning false ?x)) with (Capture.cmd x).
      destruct (hasProcess_closed (Capture.stopCapture c)) as (_ & _ & ->).
      unfold Capture.stopCapture. by rewrite Hc'.
    + unfold Capture.Stop. rewrite Hrun. cbn [negb snd]. by apply Hr.
  - rewrite <- map_fmap_compose. apply map_fmap_ext.
    intros id c _. apply Stop_twice.
Qed.

Lemma stopAll_leaves_nothing_running_witness :
  map_Forall (λ _ c, processTracked c) failedCapturers
  ∧ dom (Capture.StopAll failedCapturers) = dom failedCapturers.
Proof.
  assert (H : map_Forall (λ _ c, processTracked c) failedCapturers).
  { intros id c. unfold failedCapturers.
    intros [[_ <-]|[_ [_ <-]%lookup_singleton_Some]]%lookup_insert_Some;
      by split. }
  split; [exact H|].
  exact (proj1 (stopAll_leaves_nothing_running failedCapturers H)).
Defined.
